(** * PL-Daily-Lambda: the batched, concurrency-bounded collection pipeline

    A shallow embedding of [src/polygon_client.py], [src/service.py],
    [src/redis_cache.py] and the clamps of [src/config.py], with the
    Python built-ins they call ([range], slicing, [str.strip],
    [str.upper], [float], [max]) written out as the Python reference
    documents them.

    Conventions.
    - Python [int] is [Z]; Python [float] is an IEEE-754 binary64 value,
      [spec_float] of the standard library, with precision 53 and
      exponent bound 1024.
    - Python [str] is [string]; the text handled here (ticker symbols,
      keys, URLs) is 7-bit ASCII, and [strip]/[upper] are the ASCII
      restrictions of the Python methods.
    - A call that may raise returns a [result]; a call that logs or
      talks to the network returns an [io], a result together with the
      events it emitted, in order. *)

From Stdlib Require Import ZArith Lia SpecFloat Ascii DecimalString.
From Stdlib Require DecimalPos DecimalZ.
From stdpp Require Import gmap strings list.

Local Open Scope Z_scope.
Local Set Warnings "-register-all".

(** ** Python runtime *)

Module Py.

(** The exceptions that occur in the modelled code. [TransportError]
    stands for what [httpx] raises on a timeout or a connection
    failure. *)
Inductive exn : Type :=
| ValueError
| TypeError
| OverflowError
| AttributeError
| ZoneInfoNotFoundError
| RuntimeError
| PolygonApiError
| RedisCacheError
| TransportError.

Inductive result (A : Type) : Type :=
| Ok (a : A)
| Raise (e : exn).
Arguments Ok {A} a.
Arguments Raise {A} e.

#[global] Instance result_ret : MRet result := fun A a => Ok a.
#[global] Instance result_bind : MBind result := fun A B f m =>
  match m with
  | Ok a => f a
  | Raise e => Raise e
  end.

#[global] Instance exn_eq_dec : EqDecision exn.
Proof. solve_decision. Defined.

(** [len(range(start, stop, step))] for [step <> 0]. *)
Definition range_length (start stop step : Z) : Z :=
  if (0 <? step) && (start <? stop) then 1 + (stop - 1 - start) / step
  else if (step <? 0) && (stop <? start) then 1 + (start - 1 - stop) / (- step)
  else 0.

(** [range(start, stop, step)]: [ValueError] on a zero step, otherwise
    the items [start + i * step]. *)
Definition range (start stop step : Z) : result (list Z) :=
  if step =? 0 then Raise ValueError
  else Ok (map (fun i : nat => start + Z.of_nat i * step)
               (seq 0 (Z.to_nat (range_length start stop step)))).

(** A slice bound as [slice.indices] normalises it: a negative bound
    counts from the end, and every bound is clipped to [0 .. len]. *)
Definition slice_bound (len i : Z) : Z :=
  if i <? 0 then Z.max 0 (i + len) else Z.min i len.

(** [items[lo:hi]] *)
Definition slice {A : Type} (items : list A) (lo hi : Z) : list A :=
  let n := Z.of_nat (length items) in
  let a := slice_bound n lo in
  let b := slice_bound n hi in
  take (Z.to_nat (b - a)) (drop (Z.to_nat a) items).

(** [len(items)] *)
Definition len {A : Type} (items : list A) : Z := Z.of_nat (length items).

(** *** Strings *)

Definition code (c : ascii) : Z := Z.of_N (Ascii.N_of_ascii c).
Definition chr (n : Z) : ascii := Ascii.ascii_of_N (Z.to_N n).

(** The double quote and the backslash, by code. *)
Definition dquote : string := String (chr 34) EmptyString.
Definition backslash : string := String (chr 92) EmptyString.

(** [c.isspace()] on ASCII: tab to carriage return, the four
    separators 28..31, and the space. *)
Definition isspace (c : ascii) : bool :=
  let n := code c in
  ((9 <=? n) && (n <=? 13)) || ((28 <=? n) && (n <=? 31)) || (n =? 32).

(** The whitespace that [float(s)] and [int(s)] drop around an ASCII
    text: tab to carriage return, and the space. *)
Definition isspace_c (c : ascii) : bool :=
  let n := code c in ((9 <=? n) && (n <=? 13)) || (n =? 32).

Definition isdigit (c : ascii) : bool := (48 <=? code c) && (code c <=? 57).
Definition islower (c : ascii) : bool := (97 <=? code c) && (code c <=? 122).
Definition isupper (c : ascii) : bool := (65 <=? code c) && (code c <=? 90).

Definition upper_char (c : ascii) : ascii :=
  if islower c then chr (code c - 32) else c.
Definition lower_char (c : ascii) : ascii :=
  if isupper c then chr (code c + 32) else c.

Fixpoint map_string (f : ascii -> ascii) (s : string) : string :=
  match s with
  | EmptyString => EmptyString
  | String c s' => String (f c) (map_string f s')
  end.

(** [s.upper()], [s.lower()] on a text of ASCII characters (every
    code below 128): there Python maps the letters [a-z], or [A-Z],
    and nothing else. A code of 128 or more is left as it is, which is
    not Python's map on the rest of Unicode: a statement about these
    two functions speaks of ASCII texts. *)
Definition upper (s : string) : string := map_string upper_char s.
Definition lower (s : string) : string := map_string lower_char s.

(** [s.lstrip(chars)], [s.rstrip(chars)] with the stripped characters
    given as a predicate. *)
Fixpoint lstrip_by (p : ascii -> bool) (s : string) : string :=
  match s with
  | EmptyString => EmptyString
  | String c s' => if p c then lstrip_by p s' else s
  end.
Definition rstrip_by (p : ascii -> bool) (s : string) : string :=
  String.rev (lstrip_by p (String.rev s)).

(** [s.strip()] *)
Definition strip (s : string) : string := rstrip_by isspace (lstrip_by isspace s).

(** [bool(s)] for a string: non-empty. *)
Definition nonempty (s : string) : bool :=
  match s with EmptyString => false | String _ _ => true end.

(** [sep.join(items)] *)
Fixpoint join (sep : string) (items : list string) : string :=
  match items with
  | [] => EmptyString
  | [x] => x
  | x :: rest => x +:+ sep +:+ join sep rest
  end.

(** [str(n)] for an integer. *)
Definition str_int (n : Z) : string := NilZero.string_of_int (Z.to_int n).

(** [str(b)] for a boolean. *)
Definition str_bool (b : bool) : string := if b then "True" else "False".

(** *** Floats *)

Definition prec : Z := 53.
Definition emax : Z := 1024.

(** [float(n)] for an integer [n]: the nearest binary64 value, ties
    to even; [OverflowError] when that is not finite. *)
Definition float_of_int (n : Z) : result spec_float :=
  match binary_normalize prec emax n 0 false with
  | S754_infinity _ => Raise OverflowError
  | f => Ok f
  end.

Definition digit_value (c : ascii) : Z := code c - 48.

(** The rest of a [digitpart ::= digit (["_"] digit)*] once its first
    digit is read: the value, the number of digits, the unread text. *)
Fixpoint digitpart_tail (s : string) (v n : Z) : Z * Z * string :=
  match s with
  | String c s' =>
      if isdigit c then digitpart_tail s' (10 * v + digit_value c) (n + 1)
      else if code c =? 95 then
        match s' with
        | String d s'' =>
            if isdigit d then digitpart_tail s'' (10 * v + digit_value d) (n + 1)
            else (v, n, s)
        | EmptyString => (v, n, s)
        end
      else (v, n, s)
  | EmptyString => (v, n, s)
  end.

Definition digitpart (s : string) : option (Z * Z * string) :=
  match s with
  | String c s' =>
      if isdigit c then Some (digitpart_tail s' (digit_value c) 1) else None
  | EmptyString => None
  end.

(** An optional sign: [true] for a minus. *)
Definition read_sign (s : string) : bool * string :=
  match s with
  | String c s' =>
      if code c =? 45 then (true, s')
      else if code c =? 43 then (false, s')
      else (false, s)
  | EmptyString => (false, s)
  end.

(** [number ::= [digitpart] "." digitpart | digitpart ["."]]: the
    digits as one integer, the number of fraction digits, the rest. *)
Definition number (s : string) : option (Z * Z * string) :=
  match digitpart s with
  | Some (ip, _, rest) =>
      match rest with
      | String c rest' =>
          if code c =? 46 then
            match digitpart rest' with
            | Some (fp, nf, rest'') => Some (ip * 10 ^ nf + fp, nf, rest'')
            | None => Some (ip, 0, rest')
            end
          else Some (ip, 0, rest)
      | EmptyString => Some (ip, 0, rest)
      end
  | None =>
      match s with
      | String c rest' => if code c =? 46 then digitpart rest' else None
      | EmptyString => None
      end
  end.

(** [exponent ::= ("e" | "E") [sign] digitpart], optional. *)
Definition exponent (s : string) : option (Z * string) :=
  match s with
  | String c s' =>
      if (code c =? 101) || (code c =? 69) then
        let '(neg, s'') := read_sign s' in
        match digitpart s'' with
        | Some (e, _, rest) => Some (if neg then - e else e, rest)
        | None => None
        end
      else Some (0, s)
  | EmptyString => Some (0, s)
  end.

(** The binary64 value nearest to [m * 10 ^ e10], ties to even, with
    sign [neg]. A negative [e10] divides: the quotient is taken with
    enough binary digits below the last kept one, and the remainder
    places the exact value against the midpoint. *)
Definition float_of_decimal (neg : bool) (m e10 : Z) : spec_float :=
  if m =? 0 then S754_zero neg
  else if 0 <=? e10 then
    binary_normalize prec emax (if neg then - (m * 10 ^ e10) else m * 10 ^ e10) 0 neg
  else
    let k := - e10 in
    let s := 1200 + 4 * k in
    let '(q, r) := Z.div_eucl (m * 2 ^ s) (10 ^ k) in
    let loc := if r =? 0 then loc_Exact else loc_Inexact (2 * r ?= 10 ^ k) in
    binary_round_aux prec emax neg q (- s) loc.

(** [sys.int_info.default_max_str_digits]: the most digits a decimal
    text may have for [int(s)] to convert it. *)
Definition max_str_digits : Z := 4300.

(** [int(s)] for a string, base ten: surrounding whitespace is
    dropped, then [[sign] digitpart]; anything else is a
    [ValueError], and so is a text of more than [max_str_digits]
    digits (underscores, sign and whitespace not counted). *)
Definition int_of_str (s : string) : result Z :=
  let '(neg, body) := read_sign (rstrip_by isspace_c (lstrip_by isspace_c s)) in
  match digitpart body with
  | Some (v, n, EmptyString) =>
      if max_str_digits <? n then Raise ValueError
      else Ok (if neg then - v else v)
  | _ => Raise ValueError
  end.

(** [float(s)] for a string: surrounding whitespace is dropped, then
    [[sign] (floatnumber | "inf" | "infinity" | "nan")], the words in
    any case; anything else is a [ValueError]. *)
Definition float_of_str (s : string) : result spec_float :=
  let '(neg, body) := read_sign (rstrip_by isspace_c (lstrip_by isspace_c s)) in
  let word := lower body in
  if (word =? "inf")%string || (word =? "infinity")%string then Ok (S754_infinity neg)
  else if (word =? "nan")%string then Ok S754_nan
  else
    match number body with
    | Some (m, nf, rest) =>
        match exponent rest with
        | Some (e, EmptyString) => Ok (float_of_decimal neg m (e - nf))
        | _ => Raise ValueError
        end
    | None => Raise ValueError
    end.

(** *** JSON values, as [json.loads] builds them *)

(** A [dict] keeps its fields in insertion order, one per key. *)
Inductive json : Type :=
| JNull
| JBool (b : bool)
| JInt (n : Z)
| JFloat (f : spec_float)
| JStr (s : string)
| JList (items : list json)
| JDict (fields : list (string * json)).

Fixpoint assoc (k : string) (fields : list (string * json)) : option json :=
  match fields with
  | [] => None
  | (k', v) :: rest => if (k' =? k)%string then Some v else assoc k rest
  end.

(** [v.get(k)]: only a [dict] has the method. *)
Definition get (v : json) (k : string) : result json :=
  match v with
  | JDict fields => Ok (default JNull (assoc k fields))
  | _ => Raise AttributeError
  end.

(** [bool(v)] *)
Definition truthy (v : json) : bool :=
  match v with
  | JNull => false
  | JBool b => b
  | JInt n => negb (n =? 0)
  | JFloat (S754_zero _) => false
  | JFloat _ => true
  | JStr s => nonempty s
  | JList items => match items with [] => false | _ => true end
  | JDict fields => match fields with [] => false | _ => true end
  end.

(** [v or w] *)
Definition or_else (v w : json) : json := if truthy v then v else w.

(** [len(v)] *)
Definition len_of (v : json) : result Z :=
  match v with
  | JStr s => Ok (Z.of_nat (String.length s))
  | JList items => Ok (len items)
  | JDict fields => Ok (len fields)
  | _ => Raise TypeError
  end.

Fixpoint chars (s : string) : list json :=
  match s with
  | EmptyString => []
  | String c s' => JStr (String c EmptyString) :: chars s'
  end.

(** The items [for x in v] visits. *)
Definition iter (v : json) : result (list json) :=
  match v with
  | JStr s => Ok (chars s)
  | JList items => Ok items
  | JDict fields => Ok (map (fun kv => JStr (fst kv)) fields)
  | _ => Raise TypeError
  end.

(** [float(v)] *)
Definition float (v : json) : result spec_float :=
  match v with
  | JNull => Raise TypeError
  | JBool b => float_of_int (if b then 1 else 0)
  | JInt n => float_of_int n
  | JFloat f => Ok f
  | JStr s => float_of_str s
  | JList _ => Raise TypeError
  | JDict _ => Raise TypeError
  end.

(** *** Logging and the network *)

(** What a run leaves behind, in order: log records (level and
    message) and HTTP requests. *)
Inductive event : Type :=
| Log (level msg : string)
| HttpGet (url : string) (params : list (string * string))
| HttpPost (url : string) (headers : list (string * string))
           (payload : list (list string)).

Record io (A : Type) : Type := IO { outcome : result A; events : list event }.
Arguments IO {A} outcome events.
Arguments outcome {A} _.
Arguments events {A} _.

#[global] Instance io_ret : MRet io := fun A a => IO (Ok a) [].
#[global] Instance io_bind : MBind io := fun A B f m =>
  match outcome m with
  | Ok a => IO (outcome (f a)) (events m ++ events (f a))
  | Raise e => IO (Raise e) (events m)
  end.

Definition emit (e : event) : io unit := IO (Ok tt) [e].
Definition lift {A : Type} (r : result A) : io A := IO r [].
Definition raise {A : Type} (e : exn) : io A := IO (Raise e) [].

(** An HTTP response: the status code and what [resp.json()]
    returns. The transport answers a request with a response or
    raises. *)
Record response : Type := Response { status_code : Z; json_body : result json }.

(** The requests among the events. *)
Definition is_request (e : event) : bool :=
  match e with Log _ _ => false | _ => true end.
Definition requests (es : list event) : list event := List.filter is_request es.

(** [asyncio.Semaphore(value)]: the counter, or [ValueError] on a
    negative initial value. *)
Definition Semaphore (value : Z) : result Z :=
  if value <? 0 then Raise ValueError else Ok value.

End Py.

Import Py.

(** ** [src/config.py] *)

Module Config.

Definition _parse_bool (value : option string) (default : bool) : bool :=
  match value with
  | None => default
  | Some v =>
      let w := lower (strip v) in
      bool_decide (w ∈ ["1"; "true"; "t"; "yes"; "y"])
  end.

Definition _parse_int (value : option string) (default : Z) : Z :=
  match value with
  | None => default
  | Some v =>
      match int_of_str v with
      | Ok n => n
      | Raise _ => default
      end
  end.

Record AppConfig : Type := {
  api_key : string;
  include_otc : bool;
  ticker_batch_size : Z;
  snapshot_concurrency : Z;
  http_timeout : spec_float;
  http_read_timeout : spec_float;
  ticker_limit : option Z;
  redis_url : option string;
  redis_token : option string;
  redis_pipeline_size : Z;
  redis_key_prefix : string;
  redis_ttl_seconds : option Z;
  pl_timezone : string;
}.

(** A positive integer read from a text, [None] otherwise. *)
Definition positive_int (raw : string) : option Z :=
  match int_of_str raw with
  | Ok value => if 0 <? value then Some value else None
  | Raise _ => None
  end.

(** [get_config()], with the process environment as [getenv]. *)
Definition get_config (getenv : string -> option string) : result AppConfig :=
  let api_key := default "" (getenv "POLYGON_API_KEY") in
  if negb (nonempty api_key) then Raise RuntimeError
  else
    let include_otc := _parse_bool (getenv "INCLUDE_OTC") false in
    let batch_size := Z.max 1 (_parse_int (getenv "TICKER_BATCH_SIZE") 500) in
    let concurrency := Z.max 1 (_parse_int (getenv "SNAPSHOT_CONCURRENCY") 5) in
    http_timeout ← float_of_str (default "20" (getenv "HTTP_CONNECT_TIMEOUT"));
    http_read_timeout ← float_of_str (default "60" (getenv "HTTP_READ_TIMEOUT"));
    let ticker_limit :=
      match getenv "TICKER_LIMIT" with
      | Some raw => if nonempty raw then positive_int raw else None
      | None => None
      end in
    let redis_pipeline_size := Z.max 1 (_parse_int (getenv "REDIS_PIPELINE_SIZE") 50) in
    let redis_key_prefix := default "stock:pl_daily" (getenv "REDIS_KEY_PREFIX") in
    let redis_ttl_seconds := positive_int (default "86400" (getenv "REDIS_TTL_SECONDS")) in
    mret {| api_key := api_key;
            include_otc := include_otc;
            ticker_batch_size := batch_size;
            snapshot_concurrency := concurrency;
            http_timeout := http_timeout;
            http_read_timeout := http_read_timeout;
            ticker_limit := ticker_limit;
            redis_url := getenv "REDIS_URL";
            redis_token := getenv "REDIS_TOKEN";
            redis_pipeline_size := redis_pipeline_size;
            redis_key_prefix := redis_key_prefix;
            redis_ttl_seconds := redis_ttl_seconds;
            pl_timezone := default "America/New_York" (getenv "PL_TIMEZONE") |}.

End Config.

(** ** [src/polygon_client.py] *)

Module PolygonClient.

(** [_chunked(items, chunk_size)]: the generator's items, in order.
    The [range] is built when the generator is first advanced, so a
    zero [chunk_size] raises at the first iteration. *)
Definition _chunked (items : list string) (chunk_size : Z)
  : result (list (list string)) :=
  idxs ← range 0 (len items) chunk_size;
  mret (map (fun idx => slice items idx (idx + chunk_size)) idxs).

(** [[ticker.strip().upper() for ticker in tickers if ticker.strip()]] *)
Definition normalize (tickers : list string) : list string :=
  map (fun ticker => upper (strip ticker))
      (List.filter (fun ticker => nonempty (strip ticker)) tickers).

Definition url : string :=
  "https://api.polygon.io/v2/snapshot/locale/us/markets/stocks/tickers".

(** The request of [fetch_chunk(chunk)]. *)
Definition snapshot_request (api_key : string) (include_otc : bool)
    (chunk : list string) : event :=
  HttpGet url [("tickers", join "," chunk);
               ("include_otc", lower (str_bool include_otc));
               ("apiKey", api_key)].

(** What [fetch_chunk] returns once its request is answered; the
    closing log call takes [len(data)]. *)
Definition fetch_chunk_result (answer : result response) : result json :=
  resp ← answer;
  if 400 <=? status_code resp then Raise PolygonApiError
  else
    payload ← json_body resp;
    tickers ← get payload "tickers";
    let data := or_else tickers (JList []) in
    _ ← len_of data;
    mret data.

(** *** The event loop over the chunk tasks

    Every chunk task is created before any of them runs. A task logs
    its request and enters the gate if a slot is free, else it waits;
    inside the gate it has one request in flight; when the request is
    answered it leaves the gate and finishes. The loop resumes one
    task at a time; which one is the scheduler's choice. *)

Inductive phase : Type := Created | Waiting | InFlight | Finished.

#[global] Instance phase_eq_dec : EqDecision phase.
Proof. solve_decision. Defined.

Record loop_state : Type := LoopState {
  permits : Z;                (* the semaphore's counter *)
  phases : list phase;        (* one per chunk task *)
  completed : list nat;       (* finished tasks, first finished first *)
  trace : list event;
}.

Section EventLoop.
Variables (api_key : string) (include_otc : bool).
Variable chunks : list (list string).
Variable respond : nat -> result response.

(** [async with semaphore: resp = await client.get(...)], entering. *)
Definition enter_gate (i : nat) (chunk : list string) (st : loop_state)
  : loop_state :=
  {| permits := permits st - 1;
     phases := <[i := InFlight]> (phases st);
     completed := completed st;
     trace := trace st ++ [snapshot_request api_key include_otc chunk] |}.

(** The answer arrives: the gate is left, the task finishes. *)
Definition leave_gate (i : nat) (st : loop_state) : loop_state :=
  {| permits := permits st + 1;
     phases := <[i := Finished]> (phases st);
     completed := completed st ++ [i];
     trace := trace st ++
              match fetch_chunk_result (respond i) with
              | Ok _ => [Log "INFO" "snapshot_page_fetched"]
              | Raise _ => []
              end |}.

(** The loop resumes task [i]. A waiting task stays where it is
    while the gate is full. *)
Definition step (st : loop_state) (i : nat) : loop_state :=
  match phases st !! i, chunks !! i with
  | Some Created, Some chunk =>
      let st' := {| permits := permits st;
                    phases := <[i := Waiting]> (phases st);
                    completed := completed st;
                    trace := trace st ++ [Log "INFO" "snapshot_request"] |} in
      if 0 <? permits st then enter_gate i chunk st' else st'
  | Some Waiting, Some chunk =>
      if 0 <? permits st then enter_gate i chunk st else st
  | Some InFlight, Some _ => leave_gate i st
  | _, _ => st
  end.

Definition run (st : loop_state) (schedule : list nat) : loop_state :=
  foldl step st schedule.

Definition initial (value : Z) : loop_state :=
  {| permits := value;
     phases := replicate (length chunks) Created;
     completed := [];
     trace := [] |}.

(** The requests in flight. *)
Definition in_flight (st : loop_state) : Z :=
  len (List.filter (fun p => bool_decide (p = InFlight)) (phases st)).

(** The loop does not stop while a task is unfinished and none has
    failed: after the scheduler's choices it answers the requests in
    flight, then runs each remaining task through the gate. *)
Definition tasks_in (p : phase -> bool) (st : loop_state) : list nat :=
  List.filter (fun i => match phases st !! i with Some q => p q | None => false end)
              (seq 0 (length (phases st))).

Definition drain (st : loop_state) : list nat :=
  tasks_in (fun p => bool_decide (p = InFlight)) st ++
  flat_map (fun i => [i; i])
           (tasks_in (fun p => bool_decide (p = Created) || bool_decide (p = Waiting)) st).

(** The gathering loop retrieves the tasks as they finish and raises
    at the first one that has failed: the client is closed and the
    tasks still pending are cancelled, so no task is resumed after it.
    [halted] tells that a finished task has failed. *)
Definition halted (st : loop_state) : bool :=
  existsb (fun i => match fetch_chunk_result (respond i) with
                    | Ok _ => false
                    | Raise _ => true
                    end)
          (completed st).

(** The resumptions of a schedule that take place: those up to the
    one at which a task first finishes in failure. *)
Fixpoint until_halt (st : loop_state) (schedule : list nat) : list nat :=
  match schedule with
  | [] => []
  | i :: rest =>
      i :: (if halted (step st i) then [] else until_halt (step st i) rest)
  end.

Definition event_loop (value : Z) (schedule : list nat) : loop_state :=
  let st := run (initial value) (until_halt (initial value) schedule) in
  if halted st then st else run st (until_halt st (drain st)).

(** [for task in asyncio.as_completed(tasks): results.extend(await task)] *)
Fixpoint gather (order : list nat) (results : list json) : result (list json) :=
  match order with
  | [] => Ok results
  | i :: rest =>
      data ← fetch_chunk_result (respond i);
      items ← iter data;
      gather rest (results ++ items)
  end.

End EventLoop.

(** [fetch_market_snapshots(api_key, tickers, include_otc=...,
    batch_size=..., concurrency=...)]. The two time-outs configure
    the transport, whose answers are [respond] here (by chunk), and
    [schedule] is the order in which the loop resumes the tasks. *)
Definition fetch_market_snapshots
    (respond : nat -> result response) (schedule : list nat)
    (api_key : string) (tickers : list string)
    (include_otc : bool) (batch_size concurrency : Z) : io (list json) :=
  if negb (nonempty api_key) then raise ValueError
  else
    let tickers := normalize tickers in
    match tickers with
    | [] => mret []
    | _ =>
        value ← lift (Semaphore (Z.max 1 concurrency));
        chunks ← lift (_chunked tickers (Z.max 1 batch_size));
        let st := event_loop api_key include_otc chunks respond value schedule in
        IO (gather respond (completed st) []) (trace st)
    end.

End PolygonClient.

(** ** [src/service.py] *)

Module Service.
Import Config.

(** *** Time zones and the calendar ([zoneinfo], [datetime]) *)

(** A zone gives the offset from UTC, in seconds, at an instant
    (seconds since the epoch). *)
Record tzinfo : Type := { tz_key : string; utcoffset : Z -> Z }.

(** [key.split("/")] *)
Fixpoint components (key : string) : list string :=
  match key with
  | EmptyString => [EmptyString]
  | String c rest =>
      if code c =? 47 then EmptyString :: components rest
      else
        match components rest with
        | first :: others => String c first :: others
        | [] => [String c EmptyString]
        end
  end.

(** A key is well formed when it is a normalised relative path that
    stays below the zone directory: no component is empty, ["."] or
    [".."] (so the key is not empty and not absolute). *)
Definition conforming (key : string) : bool :=
  forallb (fun part => negb ((part =? "")%string || (part =? ".")%string
                             || (part =? "..")%string))
          (components key).

(** What the zone directory of the system holds under a key: a zone
    file, or a file of another kind ([zone.tab], [leapseconds]). *)
Inductive zone_file : Type :=
| Zone (tz : tzinfo)
| NotAZone.

(** [ZoneInfo(key)] over the zone data of the system: [ValueError]
    on a key that is not well formed, [ZoneInfoNotFoundError] when the
    data hold no file under the key, and [ValueError] again when the
    file found is not a zone file. *)
Definition ZoneInfo (tzdata : string -> option zone_file) (key : string) : result tzinfo :=
  if conforming key then
    match tzdata key with
    | Some (Zone tz) => Ok tz
    | Some NotAZone => Raise ValueError
    | None => Raise ZoneInfoNotFoundError
    end
  else Raise ValueError.

Definition _DAYS_IN_MONTH (month : Z) : Z :=
  match month with
  | 1 => 31 | 2 => 28 | 3 => 31 | 4 => 30 | 5 => 31 | 6 => 30
  | 7 => 31 | 8 => 31 | 9 => 30 | 10 => 31 | 11 => 30 | 12 => 31
  | _ => -1
  end.

Definition _DAYS_BEFORE_MONTH (month : Z) : Z :=
  match month with
  | 1 => 0 | 2 => 31 | 3 => 59 | 4 => 90 | 5 => 120 | 6 => 151
  | 7 => 181 | 8 => 212 | 9 => 243 | 10 => 273 | 11 => 304 | 12 => 334
  | _ => -1
  end.

(** The month and day of day [n] (from 0) of a year. *)
Definition month_day (n : Z) (leapyear : bool) : Z * Z :=
  let month := (n + 50) / 32 in
  let preceding :=
    _DAYS_BEFORE_MONTH month + (if (2 <? month) && leapyear then 1 else 0) in
  if n <? preceding then
    let month' := month - 1 in
    let preceding' :=
      preceding - (_DAYS_IN_MONTH month' + (if (month' =? 2) && leapyear then 1 else 0)) in
    (month', n - preceding' + 1)
  else (month, n - preceding + 1).

(** [datetime._ord2ymd]: day 1 is 0001-01-01. *)
Definition _ord2ymd (ordinal : Z) : Z * Z * Z :=
  let n := ordinal - 1 in
  let n400 := n / 146097 in
  let n := n mod 146097 in
  let year := n400 * 400 + 1 in
  let n100 := n / 36524 in
  let n := n mod 36524 in
  let n4 := n / 1461 in
  let n := n mod 1461 in
  let n1 := n / 365 in
  let n := n mod 365 in
  let year := year + n100 * 100 + n4 * 4 + n1 in
  if (n1 =? 4) || (n100 =? 4) then (year - 1, 12, 31)
  else
    let leapyear := (n1 =? 3) && (negb (n4 =? 24) || (n100 =? 3)) in
    let '(month, day) := month_day n leapyear in
    (year, month, day).

Definition _MAXORDINAL : Z := 3652059.
Definition _EPOCH_ORDINAL : Z := 719163.

(** The date of [datetime.now(tz)] when the clock reads [clock]
    seconds since the epoch: the instant must be a [datetime] in UTC
    and again in the zone (years 1 to 9999). *)
Definition now_date (tz : tzinfo) (clock : Z) : result (Z * Z * Z) :=
  let utc := _EPOCH_ORDINAL + clock / 86400 in
  if (utc <? 1) || (_MAXORDINAL <? utc) then Raise ValueError
  else
    let ordinal := _EPOCH_ORDINAL + (clock + utcoffset tz clock) / 86400 in
    if (ordinal <? 1) || (_MAXORDINAL <? ordinal) then Raise OverflowError
    else Ok (_ord2ymd ordinal).

Definition digit_char (d : Z) : ascii := chr (48 + d mod 10).

(** [strftime("%Y-%m-%d")]: four, two and two digits. *)
Definition strftime_ymd (ymd : Z * Z * Z) : string :=
  let '(y, m, d) := ymd in
  String (digit_char (y / 1000)) (String (digit_char (y / 100))
    (String (digit_char (y / 10)) (String (digit_char y)
    (String "-" (String (digit_char (m / 10)) (String (digit_char m)
    (String "-" (String (digit_char (d / 10)) (String (digit_char d)
    EmptyString))))))))).

(** *** The derivation *)

(** [_to_float(value)] *)
Definition _to_float (value : json) : result (option spec_float) :=
  match float value with
  | Ok f => Ok (Some f)
  | Raise TypeError => Ok None
  | Raise ValueError => Ok None
  | Raise e => Raise e
  end.

Record TickerPL : Type := {
  ticker : string;
  daily_pl : option spec_float;
  daily_pl_percent : option spec_float;
  min_close : option spec_float;
  date : string;
}.

(** [TickerPL.to_dict()] *)
Definition to_dict (e : TickerPL) : json :=
  let number o := match o with Some f => JFloat f | None => JNull end in
  JDict [("ticker", JStr (ticker e));
         ("daily_pl", number (daily_pl e));
         ("daily_pl_percent", number (daily_pl_percent e));
         ("min_close", number (min_close e));
         ("date", JStr (date e))].

(** One turn of the loop over [snapshots]: [None] when the record is
    skipped, the entry to append otherwise. *)
Definition derive (as_of : string) (snap : json) : result (option TickerPL) :=
  ticker ← get snap "ticker";
  match ticker with
  | JStr symbol =>
      if negb (nonempty symbol) then mret None
      else
        change ← get snap "todaysChange";
        todays_change ← _to_float change;
        change_perc ← get snap "todaysChangePerc";
        todays_change_perc ← _to_float change_perc;
        minute_block ← get snap "min";
        minute_close ←
          match minute_block with
          | JDict _ => close ← get minute_block "c"; _to_float close
          | _ => mret None
          end;
        mret (Some {| ticker := upper symbol;
                      daily_pl := todays_change;
                      daily_pl_percent := todays_change_perc;
                      min_close := minute_close;
                      date := as_of |})
  | _ => mret None
  end.

(** The loop over [snapshots], appending to [pl_entries]. *)
Fixpoint derive_all (as_of : string) (snapshots : list json)
    (pl_entries : list TickerPL) : result (list TickerPL) :=
  match snapshots with
  | [] => Ok pl_entries
  | snap :: rest =>
      entry ← derive as_of snap;
      derive_all as_of rest
        (match entry with Some e => pl_entries ++ [e] | None => pl_entries end)
  end.

(** What the run meets outside the process: the zone data, the
    clock, the ticker discovery (by API key; its pagination is not
    part of this development) and the snapshot transport. *)
Record world : Type := {
  tzdata : string -> option zone_file;
  clock : Z;
  fetch_all_active_stock_tickers : string -> io (list string);
  respond : nat -> result response;
  schedule : list nat;
}.

(** The zone of the run: the configured one, or New York with a
    warning when the configured key is not found. *)
Definition resolve_zone (w : world) (config : AppConfig) : io tzinfo :=
  match ZoneInfo (tzdata w) (pl_timezone config) with
  | Raise ZoneInfoNotFoundError =>
      _ ← emit (Log "WARNING" "timezone_not_found");
      lift (ZoneInfo (tzdata w) "America/New_York")
  | r => lift r
  end.

(** [collect_daily_pl(config)] from the line that reads the clock. *)
Definition collect_in_zone (w : world) (config : AppConfig) (tz : tzinfo)
  : io (list TickerPL) :=
  today ← lift (now_date tz (clock w));
  let as_of := strftime_ymd today in
  tickers ← fetch_all_active_stock_tickers w (api_key config);
  tickers ←
    match ticker_limit config with
    | Some limit =>
        _ ← emit (Log "INFO" "ticker_limit_applied");
        mret (slice tickers 0 limit)
    | None => mret tickers
    end;
  _ ← emit (Log "INFO" "ticker_fetch_done");
  snapshots ← PolygonClient.fetch_market_snapshots (respond w) (schedule w)
                (api_key config) tickers (include_otc config)
                (ticker_batch_size config) (snapshot_concurrency config);
  _ ← emit (Log "INFO" "snapshot_fetch_done");
  pl_entries ← lift (derive_all as_of snapshots []);
  _ ← emit (Log "INFO" "collect_daily_pl_complete");
  mret pl_entries.

(** [collect_daily_pl(config)] *)
Definition collect_daily_pl (w : world) (config : AppConfig) : io (list TickerPL) :=
  _ ← emit (Log "INFO" "collect_daily_pl_start");
  tz ← resolve_zone w config;
  collect_in_zone w config tz.

End Service.

(** ** [src/redis_cache.py] *)

Module RedisCache.
Import Config Service.

Section Publisher.
(** [float.__repr__] for a finite value, the shortest text that
    reads back as the same float. *)
Variable float_repr : spec_float -> string.

Definition hex_digit (n : Z) : ascii :=
  if n <? 10 then chr (48 + n) else chr (87 + n).

(** One character inside a JSON string, [ensure_ascii] on. *)
Definition escape_char (c : ascii) : string :=
  let n := code c in
  if n =? 34 then backslash +:+ dquote
  else if n =? 92 then backslash +:+ backslash
  else if n =? 10 then backslash +:+ "n"
  else if n =? 13 then backslash +:+ "r"
  else if n =? 9 then backslash +:+ "t"
  else if n =? 12 then backslash +:+ "f"
  else if n =? 8 then backslash +:+ "b"
  else if (32 <=? n) && (n <=? 126) then String c EmptyString
  else backslash +:+ "u00" +:+
       String (hex_digit (n / 16)) (String (hex_digit (n mod 16)) EmptyString).

Fixpoint escape (s : string) : string :=
  match s with
  | EmptyString => EmptyString
  | String c s' => escape_char c +:+ escape s'
  end.

Definition dumps_str (s : string) : string := dquote +:+ escape s +:+ dquote.

Definition dumps_float (f : spec_float) : string :=
  match f with
  | S754_nan => "NaN"
  | S754_infinity false => "Infinity"
  | S754_infinity true => "-Infinity"
  | _ => float_repr f
  end.

(** [json.dumps(v, separators=(",", ":"))] *)
Fixpoint json_dumps (v : json) : string :=
  match v with
  | JNull => "null"
  | JBool b => if b then "true" else "false"
  | JInt n => str_int n
  | JFloat f => dumps_float f
  | JStr s => dumps_str s
  | JList items => "[" +:+ join "," (map json_dumps items) +:+ "]"
  | JDict fields =>
      "{" +:+
      join "," (map (fun kv => match kv with
                               | (k, x) => dumps_str k +:+ ":" +:+ json_dumps x
                               end) fields)
      +:+ "}"
  end.

(** [_chunked(entries, chunk_size)] *)
Definition _chunked (entries : list TickerPL) (chunk_size : Z)
  : result (list (list TickerPL)) :=
  idxs ← range 0 (len entries) chunk_size;
  mret (map (fun idx => slice entries idx (idx + chunk_size)) idxs).

(** The commands one entry adds to its batch. *)
Definition commands_of (config : AppConfig) (ticker_pl : TickerPL)
  : list (list string) :=
  let key := redis_key_prefix config +:+ ":" +:+ ticker ticker_pl in
  let value := json_dumps (to_dict ticker_pl) in
  ["SET"; key; value] ::
  match redis_ttl_seconds config with
  | Some ttl => [["EXPIRE"; key; str_int ttl]]
  | None => []
  end.

(** The inner loop: the command list of a batch. *)
Definition batch_commands (config : AppConfig) (batch : list TickerPL)
  : list (list string) :=
  flat_map (commands_of config) batch.

(** The loop over the batches; [respond i] is the answer to the
    request for batch [i]. *)
Fixpoint publish (respond : nat -> result response)
    (endpoint : string) (headers : list (string * string))
    (config : AppConfig) (batches : list (list TickerPL)) (i : nat) : io unit :=
  match batches with
  | [] => mret tt
  | batch :: rest =>
      let commands := batch_commands config batch in
      _ ← emit (Log "INFO" "redis_pipeline_publish");
      _ ← emit (HttpPost endpoint headers commands);
      resp ← lift (respond i);
      if 400 <=? status_code resp then raise RedisCacheError
      else publish respond endpoint headers config rest (S i)
  end.

(** [bool(s)] for an optional string: set and non-empty. *)
Definition is_set (s : option string) : bool :=
  match s with Some v => nonempty v | None => false end.

(** [push_daily_pl_to_redis(config, entries)] *)
Definition push_daily_pl_to_redis (respond : nat -> result response)
    (config : AppConfig) (entries : list TickerPL) : io unit :=
  if negb (is_set (redis_url config)) || negb (is_set (redis_token config)) then
    emit (Log "INFO" "redis_disabled")
  else
    match entries with
    | [] => emit (Log "INFO" "redis_skipped_empty")
    | _ =>
        let pipeline_size := Z.max 1 (redis_pipeline_size config) in
        let redis_url := rstrip_by (fun c => code c =? 47) (default "" (redis_url config)) in
        let endpoint := redis_url +:+ "/pipeline" in
        let headers :=
          [("Authorization", "Bearer " +:+ default "" (redis_token config));
           ("Content-Type", "application/json")] in
        batches ← lift (_chunked entries pipeline_size);
        _ ← publish respond endpoint headers config batches 0;
        emit (Log "INFO" "redis_publish_complete")
    end.

End Publisher.

(** *** The cache server *)

(** Modelled from the spec: the key-value cache behind the pipeline
    endpoint, which is not part of the repository. A pipelined
    request is executed command by command in the submitted order;
    [SET] overwrites the value at its key and clears its expiry;
    [EXPIRE] sets the expiry of an existing key, and removes the key
    when the number of seconds is not positive. *)
Record slot : Type := Slot { stored : string; expiry : option Z }.

(** Modelled from the spec: an integer argument in the canonical
    decimal form that [str(n)] produces. *)
Definition seconds_arg (s : string) : option Z :=
  match int_of_str s with
  | Ok n => if (str_int n =? s)%string then Some n else None
  | Raise _ => None
  end.

(** Modelled from the spec: one command of a pipeline (see [slot]). *)
Definition execute (db : gmap string slot) (command : list string)
  : gmap string slot :=
  match command with
  | ["SET"; key; value] => <[key := Slot value None]> db
  | ["EXPIRE"; key; seconds] =>
      match seconds_arg seconds, db !! key with
      | Some n, Some (Slot value _) =>
          if 0 <? n then <[key := Slot value (Some n)]> db else delete key db
      | _, _ => db
      end
  | _ => db
  end.

(** Modelled from the spec: the cache after it has executed every
    request among the events. *)
Definition serve (db : gmap string slot) (es : list event) : gmap string slot :=
  foldl (fun db e =>
           match e with
           | HttpPost _ _ payload => foldl execute db payload
           | _ => db
           end) db es.

(** Modelled from the spec: a cache that accepts every request. *)
Definition accepting (i : nat) : result response :=
  Ok (Response 200 (Ok (JList []))).

End RedisCache.

(** ** [src/polygon_client.py]: ticker discovery *)

Module Discovery.

(** [needle in text] for two strings. *)
Fixpoint contains (needle text : string) : bool :=
  String.prefix needle text ||
  match text with
  | EmptyString => false
  | String _ rest => contains needle rest
  end.

Definition base_url : string := "https://api.polygon.io/v3/reference/tickers".

(** The query of the first request. *)
Definition params (api_key : string) (per_page_limit : Z) (active_only : bool)
  : list (string * string) :=
  [("market", "stocks");
   ("active", lower (str_bool active_only));
   ("order", "asc");
   ("limit", str_int per_page_limit);
   ("sort", "ticker");
   ("apiKey", api_key)].

(** The request of one turn of the loop, by its three branches. *)
Definition page_request (api_key next_url : string) (query : list (string * string))
  : event :=
  if (next_url =? base_url)%string then HttpGet next_url query
  else if contains "apiKey=" next_url then HttpGet next_url []
  else HttpGet next_url [("apiKey", api_key)].

(** The loop over the items of a page: the tickers it appends. *)
Fixpoint page_tickers (items : list json) : result (list string) :=
  match items with
  | [] => Ok []
  | item :: rest =>
      ticker ← get item "ticker";
      found ← page_tickers rest;
      mret (match ticker with
            | JStr symbol => if nonempty symbol then upper symbol :: found else found
            | _ => found
            end)
  end.

(** What a turn reads off an answer of success status: the tickers of
    the page and the value of its ["next_url"]. *)
Definition read_page (resp : response) : result (list string * json) :=
  payload ← json_body resp;
  results ← get payload "results";
  items ← iter (or_else results (JList []));
  found ← page_tickers items;
  cursor ← get payload "next_url";
  mret (found, cursor).

(** How the loop goes on from the cursor of a page. *)
Inductive advance : Type :=
| Stop                   (* a false value: the loop ends *)
| Goto (url : string)    (* a non-empty string, the credential added if missing *)
| Fail (e : exn)         (* a true value that [in] cannot search *)
| NotModelled.           (* a non-empty list or object *)

Definition next_request (api_key : string) (cursor : json) : advance :=
  if negb (truthy cursor) then Stop
  else
    match cursor with
    | JStr next_url =>
        Goto (if contains "apiKey=" next_url then next_url
              else next_url +:+ "&apiKey=" +:+ api_key)
    | JList _ => NotModelled
    | JDict _ => NotModelled
    | _ => Fail TypeError
    end.

(** The loop has no bound of its own, so a run is followed for [fuel]
    turns: it has returned or raised; or it is still looping; or it met
    a cursor that is a non-empty list or object, whose text form
    ([str] of a list) is beyond this development. *)
Inductive paged (A : Type) : Type :=
| Returned (r : io A)
| Looping (es : list event)
| Beyond (es : list event).
Arguments Returned {A} r.
Arguments Looping {A} es.
Arguments Beyond {A} es.

(** [while next_url: ...], with [server i] the answer to request [i]. *)
Fixpoint pages (fuel : nat) (server : nat -> result response) (api_key : string)
    (i : nat) (next_url : string) (query : list (string * string))
    (tickers : list string) (es : list event) : paged (list string) :=
  match fuel with
  | O => Looping es
  | S fuel' =>
      let es := es ++ [Log "DEBUG" "ticker_fetch_page";
                       page_request api_key next_url query] in
      match server i with
      | Raise e => Returned (IO (Raise e) es)
      | Ok resp =>
          if 400 <=? status_code resp then Returned (IO (Raise PolygonApiError) es)
          else
            match read_page resp with
            | Raise e => Returned (IO (Raise e) es)
            | Ok (found, cursor) =>
                let tickers := tickers ++ found in
                let es := es ++ [Log "INFO" "ticker_page_fetched"] in
                match next_request api_key cursor with
                | Stop =>
                    Returned (IO (Ok tickers)
                                 (es ++ [Log "INFO" "ticker_discovery_complete"]))
                | Goto url => pages fuel' server api_key (S i) url [] tickers es
                | Fail e => Returned (IO (Raise e) es)
                | NotModelled => Beyond es
                end
            end
      end
  end.

(** [fetch_all_active_stock_tickers(api_key, per_page_limit=...,
    active_only=...)], followed for [fuel] turns of its loop. *)
Definition fetch_all_active_stock_tickers (fuel : nat)
    (server : nat -> result response) (api_key : string)
    (per_page_limit : Z) (active_only : bool) : paged (list string) :=
  if negb (nonempty api_key) then Returned (raise ValueError)
  else pages fuel server api_key 0 base_url
         (params api_key per_page_limit active_only) [] [].

End Discovery.

(** ** [src/service.py], [src/lambda_handler.py], [src/main.py]: the output *)

Module Output.
Import Config Service.

(** [serialize_pl(entries)] *)
Definition serialize_pl (entries : list TickerPL) : list json :=
  map to_dict entries.

(** [_async_collect()] of the Lambda handler: the count and the items
    of its payload. [getenv] is the process environment, [w] what the
    collection meets, [cache] the answers of the cache endpoint. *)
Definition _async_collect (float_repr : spec_float -> string)
    (getenv : string -> option string) (w : world)
    (cache : nat -> result response) : io (Z * list json) :=
  config ← lift (get_config getenv);
  entries ← collect_daily_pl w config;
  _ ← RedisCache.push_daily_pl_to_redis float_repr cache config entries;
  mret (len entries, serialize_pl entries).

(** The limit [main()] reads from PRINT_LIMIT. *)
Definition print_limit (getenv : string -> option string) : Z :=
  match getenv "PRINT_LIMIT" with
  | Some limit_env =>
      match int_of_str limit_env with
      | Ok limit => limit
      | Raise _ => 5
      end
  | None => 5
  end.

(** [_async_entry(limit)]: the line it prints and the entries it dumps
    after it (the indented JSON text of the dump is not spelled out). *)
Definition _async_entry (float_repr : spec_float -> string)
    (getenv : string -> option string) (w : world)
    (cache : nat -> result response) (limit : option Z)
  : io (string * list json) :=
  config ← lift (get_config getenv);
  entries ← collect_daily_pl w config;
  _ ← RedisCache.push_daily_pl_to_redis float_repr cache config entries;
  let line := "Collected daily P&L for " +:+ str_int (len entries) +:+ " tickers." in
  let serialized := serialize_pl entries in
  let subset :=
    match limit with
    | Some n => if 0 <=? n then slice serialized 0 n else slice serialized 0 5
    | None => slice serialized 0 5
    end in
  mret (line, subset).

(** [main()], the logging set-up apart. *)
Definition main (float_repr : spec_float -> string)
    (getenv : string -> option string) (w : world)
    (cache : nat -> result response) : io (string * list json) :=
  _async_entry float_repr getenv w cache (Some (print_limit getenv)).

End Output.

(** ** Vocabulary of the statements *)

(** [ceil(n / b)] for a positive [b]. *)
Definition ceil_div (n b : Z) : Z := (n + b - 1) / b.

(** The items of [range(0, n, b)] for a non-zero [b]. *)
Definition starts (n b : Z) : list Z :=
  map (fun i : nat => 0 + Z.of_nat i * b) (seq 0 (Z.to_nat (range_length 0 n b))).

(** What both [_chunked] generators yield for a non-zero [b]. *)
Definition pieces {A : Type} (items : list A) (b : Z) : list (list A) :=
  map (fun idx => slice items idx (idx + b)) (starts (len items) b).

(** The value a record holds under a key, if any. *)
Definition held (k : string) (fields : list (string * json)) : option json :=
  assoc k fields.

(** The nested minute-bar close of a record, if any: the ["c"] of a
    ["min"] that is an object. *)
Definition close_of (fields : list (string * json)) : option json :=
  match assoc "min" fields with
  | Some (JDict block) => assoc "c" block
  | _ => None
  end.

(** A value that is not a number: null, a list, an object, or a text
    that does not read as a number. *)
Definition non_numeric (v : json) : bool :=
  match v with
  | JNull => true
  | JList _ => true
  | JDict _ => true
  | JStr s => match float_of_str s with Ok _ => false | Raise _ => true end
  | JBool _ => false
  | JInt _ => false
  | JFloat _ => false
  end.

Definition absent_or_non_numeric (field : option json) : bool :=
  match field with
  | None => true
  | Some v => non_numeric v
  end.

(** The symbol of a record whose ticker field is a non-empty string. *)
Definition symbol_of (fields : list (string * json)) : option string :=
  match assoc "ticker" fields with
  | Some (JStr symbol) => if nonempty symbol then Some symbol else None
  | _ => None
  end.

Fixpoint all_chars (p : ascii -> bool) (s : string) : bool :=
  match s with
  | EmptyString => true
  | String c s' => p c && all_chars p s'
  end.

(** A text with no lower-case letter. *)
Definition uppercase (s : string) : bool := all_chars (fun c => negb (islower c)) s.

(** A text of the shape [YYYY-MM-DD]. *)
Definition is_ymd (s : string) : bool :=
  match s with
  | String y1 (String y2 (String y3 (String y4 (String h1 (String m1 (String m2
      (String h2 (String d1 (String d2 EmptyString))))))))) =>
      isdigit y1 && isdigit y2 && isdigit y3 && isdigit y4 && (code h1 =? 45) &&
      isdigit m1 && isdigit m2 && (code h2 =? 45) && isdigit d1 && isdigit d2
  | _ => false
  end.

(** The year, month and day a text of that shape spells. *)
Definition read_ymd (s : string) : option (Z * Z * Z) :=
  match s with
  | String y1 (String y2 (String y3 (String y4 (String h1 (String m1 (String m2
      (String h2 (String d1 (String d2 EmptyString))))))))) =>
      if is_ymd s then
        Some (1000 * digit_value y1 + 100 * digit_value y2 + 10 * digit_value y3
              + digit_value y4,
              10 * digit_value m1 + digit_value m2,
              10 * digit_value d1 + digit_value d2)
      else None
  | _ => None
  end.

(** *** Sample surroundings, for the concrete runs *)

(** New York at its standard-time offset, and UTC. *)
Definition new_york : Service.tzinfo :=
  {| Service.tz_key := "America/New_York"; Service.utcoffset := fun _ => -18000 |}.
Definition utc : Service.tzinfo :=
  {| Service.tz_key := "UTC"; Service.utcoffset := fun _ => 0 |}.

(** Zone data that hold those two, and the table of zones that zone
    directories keep beside the zone files. *)
Definition sample_zones (key : string) : option Service.zone_file :=
  if (key =? "America/New_York")%string then Some (Service.Zone new_york)
  else if (key =? "UTC")%string then Some (Service.Zone utc)
  else if (key =? "zone.tab")%string then Some Service.NotAZone
  else None.

(** A system with no zone data at all. *)
Definition no_zones (key : string) : option Service.zone_file := None.

Definition sample_snapshot : json :=
  JDict [("ticker", JStr "AAPL");
         ("todaysChange", JFloat (S754_finite false 5539427541665710 (-52)));
         ("todaysChangePerc", JStr "bad");
         ("min", JDict [("c", JFloat (S754_finite false 5295247999369216 (-45)))])].

(** Discovery finds two tickers; every snapshot request is answered
    with one record; the clock reads 2024-11-04 00:00:00 UTC. *)
Definition sample_world (zones : string -> option Service.zone_file) : Service.world :=
  {| Service.tzdata := zones;
     Service.clock := 1730678400;
     Service.fetch_all_active_stock_tickers := fun _ => IO (Ok ["AAPL"; "MSFT"]) [];
     Service.respond := fun _ =>
       Ok (Response 200 (Ok (JDict [("tickers", JList [sample_snapshot])])));
     Service.schedule := [] |}.

Definition sample_config (zone : string) (pipeline_size : Z) : Config.AppConfig :=
  {| Config.api_key := "key";
     Config.include_otc := false;
     Config.ticker_batch_size := 500;
     Config.snapshot_concurrency := 5;
     Config.http_timeout := S754_finite false 5629499534213120 (-48);
     Config.http_read_timeout := S754_finite false 8444249301319680 (-47);
     Config.ticker_limit := None;
     Config.redis_url := Some "https://cache.example/";
     Config.redis_token := Some "token";
     Config.redis_pipeline_size := pipeline_size;
     Config.redis_key_prefix := "stock:pl_daily";
     Config.redis_ttl_seconds := Some 60;
     Config.pl_timezone := zone |}.

Definition sample_entry (symbol : string) : Service.TickerPL :=
  {| Service.ticker := symbol;
     Service.daily_pl := None;
     Service.daily_pl_percent := None;
     Service.min_close := None;
     Service.date := "2024-11-03" |}.

(** The gate's invariant for a semaphore created with [value]: the
    counter never goes below zero, and the slots taken and the slots
    free add up to [value]. *)
Definition gate_ok (chunks : list (list string)) (value : Z)
    (st : PolygonClient.loop_state) : Prop :=
  0 <= PolygonClient.permits st /\
  PolygonClient.permits st + PolygonClient.in_flight st = value /\
  length (PolygonClient.phases st) = length chunks.

(** A request is accepted when it is answered with a status below
    400. *)
Definition accepted (answer : result response) : bool :=
  match answer with
  | Ok resp => status_code resp <? 400
  | Raise _ => false
  end.

(** How many of [n] batches, from batch [i] on, get a request: the
    publisher stops after the first request that is not accepted. *)
Fixpoint issued (respond : nat -> result response) (i n : nat) : nat :=
  match n with
  | O => O
  | S n' => if accepted (respond i) then S (issued respond (S i) n') else 1%nat
  end.

(** The number of commands a request carries. *)
Definition command_count (e : event) : nat :=
  match e with
  | HttpPost _ _ payload => length payload
  | _ => O
  end.

(** The sample entries hold no float: their serialisation never asks
    for the text of one. *)
Definition no_floats (f : spec_float) : string := "".

(** A cache that answers every request with status 500. *)
Definition refusing (i : nat) : result response :=
  Ok (Response 500 (Ok JNull)).

(** What the commands of one entry leave at its key, whatever was
    there: the record with the configured expiry, or nothing when the
    expiry is not positive. *)
Definition write_of (float_repr : spec_float -> string) (config : Config.AppConfig)
    (e : Service.TickerPL) : string * option RedisCache.slot :=
  let key := Config.redis_key_prefix config +:+ ":" +:+ Service.ticker e in
  let value := RedisCache.json_dumps float_repr (Service.to_dict e) in
  (key,
   match Config.redis_ttl_seconds config with
   | None => Some (RedisCache.Slot value None)
   | Some ttl =>
       match RedisCache.seconds_arg (str_int ttl) with
       | Some n => if 0 <? n then Some (RedisCache.Slot value (Some n)) else None
       | None => Some (RedisCache.Slot value None)
       end
   end).

Definition apply_writes (db : gmap string RedisCache.slot)
    (writes : list (string * option RedisCache.slot)) : gmap string RedisCache.slot :=
  foldl (fun db w => partial_alter (fun _ => snd w) (fst w) db) db writes.

(** The last write to a key, if any. *)
Fixpoint last_write (writes : list (string * option RedisCache.slot)) (k : string)
  : option (option RedisCache.slot) :=
  match writes with
  | [] => None
  | w :: rest =>
      match last_write rest k with
      | Some o => Some o
      | None => if decide (fst w = k) then Some (snd w) else None
      end
  end.

(** 1.0 and 0.0 *)
Definition float_one : spec_float := S754_finite false 4503599627370496 (-52).
Definition float_zero : spec_float := S754_zero false.

(** *** Discovery *)

(** The events of a followed run, however far it got. *)
Definition paged_events {A : Type} (r : Discovery.paged A) : list event :=
  match r with
  | Discovery.Returned r => events r
  | Discovery.Looping es => es
  | Discovery.Beyond es => es
  end.

(** Request [i] is answered with a readable page that appends [found]
    and names a next page, fetched at [url]. *)
Definition continues (server : nat -> result response) (api_key : string)
    (i : nat) (found : list string) (url : string) : Prop :=
  exists resp cursor,
    server i = Ok resp /\ status_code resp < 400 /\
    Discovery.read_page resp = Ok (found, cursor) /\
    Discovery.next_request api_key cursor = Discovery.Goto url.

(** Request [i] is answered with a readable page that appends [found]
    and names no next page. *)
Definition ends (server : nat -> result response) (api_key : string)
    (i : nat) (found : list string) : Prop :=
  exists resp cursor,
    server i = Ok resp /\ status_code resp < 400 /\
    Discovery.read_page resp = Ok (found, cursor) /\
    Discovery.next_request api_key cursor = Discovery.Stop.

(** Request [i] fails with [e]: the transport raises, the status is
    400 or more, or the page cannot be read. *)
Definition fails (server : nat -> result response) (i : nat) (e : exn) : Prop :=
  server i = Raise e \/
  (exists resp, server i = Ok resp /\ 400 <= status_code resp /\ e = PolygonApiError) \/
  (exists resp, server i = Ok resp /\ status_code resp < 400 /\
                Discovery.read_page resp = Raise e).

(** The URL the loop requests for a cursor: the cursor as the server
    sent it when the text [apiKey=] occurs in it, and with
    [&apiKey=key] appended when it does not. *)
Definition with_key (api_key cursor : string) : string :=
  if Discovery.contains "apiKey=" cursor then cursor
  else cursor +:+ "&apiKey=" +:+ api_key.

(** Request [i] is answered with a readable page whose ["next_url"]
    is the non-empty text [cursor]. *)
Definition names_next (server : nat -> result response) (i : nat) (cursor : string)
  : Prop :=
  nonempty cursor = true /\
  exists resp found,
    server i = Ok resp /\ status_code resp < 400 /\
    Discovery.read_page resp = Ok (found, JStr cursor).

(** A sample reference server: two pages, the second without a
    cursor. *)
Definition sample_pages (i : nat) : result response :=
  match i with
  | O =>
      Ok (Response 200 (Ok (JDict
        [("results", JList [JDict [("ticker", JStr "aapl")]; JDict [("ticker", JStr "")]]);
         ("next_url", JStr "https://api.polygon.io/v3/reference/tickers?cursor=abc")])))
  | _ =>
      Ok (Response 200 (Ok (JDict [("results", JList [JDict [("ticker", JStr "msft")]])])))
  end.

(** A server that names a next page for ever. *)
Definition endless_pages (i : nat) : result response :=
  Ok (Response 200 (Ok (JDict
    [("results", JList [JDict [("ticker", JStr "A")]]);
     ("next_url", JStr "https://api.polygon.io/v3/reference/tickers?cursor=again")]))).

(** A server whose second answer has status 503. *)
Definition failing_pages (i : nat) : result response :=
  match i with
  | O => sample_pages O
  | _ => Ok (Response 503 (Ok JNull))
  end.

(** *** The snapshot fetcher *)

(** What the gathering loop extends the results with for chunk [i]:
    the items of the data its task returns. *)
Definition chunk_items (respond : nat -> result response) (i : nat)
  : result (list json) :=
  data ← PolygonClient.fetch_chunk_result (respond i); iter data.

(** The books of the loop agree with the phases: [entered] lists the
    tasks whose request was issued, in the order of issue and each
    once; the finished tasks are the completed ones, each once. *)
Definition accounted (api_key : string) (include_otc : bool)
    (chunks : list (list string)) (st : PolygonClient.loop_state)
    (entered : list nat) : Prop :=
  length (PolygonClient.phases st) = length chunks /\
  NoDup entered /\
  (forall i, i ∈ entered <->
     PolygonClient.phases st !! i = Some PolygonClient.InFlight \/
     PolygonClient.phases st !! i = Some PolygonClient.Finished) /\
  requests (PolygonClient.trace st)
  = map (fun i => PolygonClient.snapshot_request api_key include_otc
                    (default [] (chunks !! i))) entered /\
  NoDup (PolygonClient.completed st) /\
  (forall i, i ∈ PolygonClient.completed st <->
     PolygonClient.phases st !! i = Some PolygonClient.Finished).

(** A snapshot server that answers every chunk with one record. *)
Definition sample_snapshots (i : nat) : result response :=
  Ok (Response 200 (Ok (JDict [("tickers", JList [sample_snapshot])]))).

(** A snapshot server that answers chunk [i] with the one item [i]. *)
Definition numbered_snapshots (i : nat) : result response :=
  Ok (Response 200 (Ok (JDict [("tickers", JList [JInt (Z.of_nat i)])]))).

(** A snapshot server whose answer to the second chunk has status
    500. *)
Definition failing_snapshots (i : nat) : result response :=
  match i with
  | 1%nat => Ok (Response 500 (Ok JNull))
  | _ => sample_snapshots i
  end.

(** *** The run *)

(** The tickers the snapshots are fetched for: the discovered ones,
    cut by [tickers[: ticker_limit]] when a limit is set. *)
Definition limited (config : Config.AppConfig) (tickers : list string) : list string :=
  match Config.ticker_limit config with
  | Some limit => slice tickers 0 limit
  | None => tickers
  end.

(** The sample surroundings with a discovery whose first page fails. *)
Definition failing_discovery (zones : string -> option Service.zone_file) : Service.world :=
  {| Service.tzdata := zones;
     Service.clock := 1730678400;
     Service.fetch_all_active_stock_tickers := fun key =>
       IO (Raise PolygonApiError)
          [Log "DEBUG" "ticker_fetch_page";
           HttpGet Discovery.base_url (Discovery.params key 1000 true)];
     Service.respond := sample_snapshots;
     Service.schedule := [] |}.

(** The sample configuration in UTC with a limit of one ticker. *)
Definition limited_config : Config.AppConfig :=
  {| Config.api_key := "key";
     Config.include_otc := false;
     Config.ticker_batch_size := 500;
     Config.snapshot_concurrency := 5;
     Config.http_timeout := S754_finite false 5629499534213120 (-48);
     Config.http_read_timeout := S754_finite false 8444249301319680 (-47);
     Config.ticker_limit := Some 1;
     Config.redis_url := Some "https://cache.example/";
     Config.redis_token := Some "token";
     Config.redis_pipeline_size := 2;
     Config.redis_key_prefix := "stock:pl_daily";
     Config.redis_ttl_seconds := Some 60;
     Config.pl_timezone := "UTC" |}.

(** *** The publisher *)

(** What the publisher raises on an answer it does not accept: what
    the transport raised, or [RedisCacheError] on a status of 400 or
    more. *)
Definition failure_of (answer : result response) : exn :=
  match answer with
  | Raise e => e
  | Ok _ => RedisCacheError
  end.

(** A cache that accepts the first request and whose transport fails
    at the second. *)
Definition dropping (i : nat) : result response :=
  match i with
  | O => Ok (Response 200 (Ok (JList [])))
  | _ => Raise TransportError
  end.

(** *** Decimal texts *)

(** The integer a list of decimal digits spells when read after the
    value [v]. *)
Fixpoint digits_value (d : Decimal.uint) (v : Z) : Z :=
  match d with
  | Decimal.Nil => v
  | Decimal.D0 d => digits_value d (10 * v + 0)
  | Decimal.D1 d => digits_value d (10 * v + 1)
  | Decimal.D2 d => digits_value d (10 * v + 2)
  | Decimal.D3 d => digits_value d (10 * v + 3)
  | Decimal.D4 d => digits_value d (10 * v + 4)
  | Decimal.D5 d => digits_value d (10 * v + 5)
  | Decimal.D6 d => digits_value d (10 * v + 6)
  | Decimal.D7 d => digits_value d (10 * v + 7)
  | Decimal.D8 d => digits_value d (10 * v + 8)
  | Decimal.D9 d => digits_value d (10 * v + 9)
  end.

(** The decimal text of [n] is short enough for [int] to convert
    it back. *)
Definition convertible (n : Z) : Prop :=
  Z.of_nat (String.length (str_int n)) <= max_str_digits.

(** A text of ASCII characters. *)
Definition ascii_text (s : string) : bool := all_chars (fun c => code c <? 128) s.

(** The environment of a process that sets the API key and the
    given integer settings, written in decimal. *)
Definition integer_env (batch concurrency pipeline limit ttl : Z) (name : string)
  : option string :=
  if (name =? "POLYGON_API_KEY")%string then Some "key"
  else if (name =? "TICKER_BATCH_SIZE")%string then Some (str_int batch)
  else if (name =? "SNAPSHOT_CONCURRENCY")%string then Some (str_int concurrency)
  else if (name =? "REDIS_PIPELINE_SIZE")%string then Some (str_int pipeline)
  else if (name =? "TICKER_LIMIT")%string then Some (str_int limit)
  else if (name =? "REDIS_TTL_SECONDS")%string then Some (str_int ttl)
  else None.

(** *** The entry points *)

(** How many entries [main()] prints for a limit: the limit itself
    when it is not negative, five otherwise. *)
Definition printed (limit : Z) : nat := Z.to_nat (if 0 <=? limit then limit else 5).

(** The environment of a process that sets the API key and nothing
    else but PRINT_LIMIT. *)
Definition print_env (limit : string) (name : string) : option string :=
  if (name =? "POLYGON_API_KEY")%string then Some "key"
  else if (name =? "PRINT_LIMIT")%string then Some limit
  else None.

(** ** Partitioning *)

Section Chunking.
Context {A : Type}.
Implicit Types (items : list A) (b : Z).

Lemma ceil_div_bounds n b :
  1 <= b -> b * (ceil_div n b - 1) < n <= b * ceil_div n b.
Proof.
  intros Hb. unfold ceil_div.
  pose proof (Z.div_mod (n + b - 1) b ltac:(lia)) as Hdm.
  pose proof (Z.mod_pos_bound (n + b - 1) b ltac:(lia)) as Hm.
  lia.
Qed.

Lemma range_length_chunks n b :
  1 <= b -> 0 <= n -> range_length 0 n b = ceil_div n b.
Proof.
  intros Hb Hn. unfold range_length, ceil_div.
  assert ((0 <? b) = true) as -> by lia.
  assert ((b <? 0) = false) as -> by lia.
  destruct (0 <? n) eqn:Hpos; simpl.
  - replace (n - 1 - 0) with (n - 1) by lia.
    replace (n + b - 1) with ((n - 1) + 1 * b) by lia.
    rewrite Z.div_add by lia. lia.
  - assert (n = 0) as -> by lia.
    symmetry. apply Z.div_small. lia.
Qed.

Lemma slice_chunk items (i : nat) b :
  1 <= b -> Z.of_nat i * b <= len items ->
  slice items (0 + Z.of_nat i * b) (0 + Z.of_nat i * b + b)
  = take (Z.to_nat b) (drop (i * Z.to_nat b) items).
Proof.
  intros Hb Hi. unfold slice, slice_bound, len in *. rewrite !Z.add_0_l.
  set (n := Z.of_nat (length items)) in *.
  assert ((Z.of_nat i * b <? 0) = false) as -> by lia.
  assert ((Z.of_nat i * b + b <? 0) = false) as -> by lia.
  rewrite (Z.min_l (Z.of_nat i * b) n) by lia.
  replace (Z.to_nat (Z.of_nat i * b)) with (i * Z.to_nat b)%nat by lia.
  apply list_eq. intros j.
  rewrite !lookup_take, !lookup_drop.
  repeat case_decide; try done; try lia.
  symmetry. apply lookup_ge_None. lia.
Qed.

(** The first [k] pieces of width [w] put together are the first
    [k * w] items. *)
Lemma concat_pieces items (w k : nat) :
  concat (map (fun i : nat => take w (drop (i * w) items)) (seq 0 k))
  = take (k * w) items.
Proof.
  induction k as [|k IH].
  - by rewrite take_0.
  - rewrite seq_S, map_app, concat_app, IH. simpl.
    rewrite app_nil_r, take_take_drop. f_equal. lia.
Qed.

Lemma pieces_take items b :
  1 <= b ->
  pieces items b
  = map (fun i : nat => take (Z.to_nat b) (drop (i * Z.to_nat b) items))
        (seq 0 (Z.to_nat (ceil_div (len items) b))).
Proof.
  intros Hb. unfold pieces, starts.
  rewrite range_length_chunks by (unfold len; lia).
  rewrite map_map. apply map_ext_in. intros i Hi%in_seq.
  apply slice_chunk; [done|].
  pose proof (ceil_div_bounds (len items) b Hb) as Hc.
  assert (0 <= ceil_div (len items) b).
  { unfold ceil_div. apply Z.div_pos; unfold len; lia. }
  nia.
Qed.

Lemma pieces_partition items b :
  1 <= b ->
  len (pieces items b) = ceil_div (len items) b /\
  Forall (fun piece => 1 <= len piece <= b) (pieces items b) /\
  concat (pieces items b) = items.
Proof.
  intros Hb.
  pose proof (ceil_div_bounds (len items) b Hb) as Hc.
  assert (0 <= ceil_div (len items) b) as Hk.
  { unfold ceil_div. apply Z.div_pos; unfold len; lia. }
  rewrite pieces_take by done. split; [|split].
  - unfold len in *. rewrite length_map, length_seq. lia.
  - apply Forall_forall. intros piece Hin%list_elem_of_In.
    apply in_map_iff in Hin as (i & <- & Hi%in_seq).
    unfold len in *. rewrite length_take, length_drop. nia.
  - rewrite concat_pieces. apply take_ge. unfold len in *. nia.
Qed.

End Chunking.

Lemma polygon_chunked_pieces (items : list string) (b : Z) :
  1 <= b -> PolygonClient._chunked items b = Ok (pieces items b).
Proof.
  intros Hb. unfold PolygonClient._chunked, range.
  by assert ((b =? 0) = false) as -> by lia.
Qed.

Lemma redis_chunked_pieces (entries : list Service.TickerPL) (b : Z) :
  1 <= b -> RedisCache._chunked entries b = Ok (pieces entries b).
Proof.
  intros Hb. unfold RedisCache._chunked, range.
  by assert ((b =? 0) = false) as -> by lia.
Qed.

(** C1. For every chunk size [b >= 1] and every list of [n] tickers,
    [_chunked] yields [ceil(n / b)] chunks (the least [k] with
    [n <= b * k]), each of size at most [b] (and none empty), and the chunks
    put together in order are the list; the publisher's [_chunked] is
    the same function on entries. *)
Theorem chunked_partition (items : list string) (entries : list Service.TickerPL) (b : Z) :
  1 <= b ->
  (exists chunks,
      PolygonClient._chunked items b = Ok chunks /\
      len chunks = ceil_div (len items) b /\
      b * (len chunks - 1) < len items <= b * len chunks /\
      Forall (fun chunk => 1 <= len chunk <= b) chunks /\
      concat chunks = items) /\
  (exists batches,
      RedisCache._chunked entries b = Ok batches /\
      len batches = ceil_div (len entries) b /\
      b * (len batches - 1) < len entries <= b * len batches /\
      Forall (fun batch => 1 <= len batch <= b) batches /\
      concat batches = entries).
Proof.
  intros Hb. split.
  - exists (pieces items b).
    destruct (pieces_partition items b Hb) as (Hlen & Hall & Hcat).
    rewrite polygon_chunked_pieces by done.
    repeat split; try done.
    all: rewrite Hlen; apply ceil_div_bounds; done.
  - exists (pieces entries b).
    destruct (pieces_partition entries b Hb) as (Hlen & Hall & Hcat).
    rewrite redis_chunked_pieces by done.
    repeat split; try done.
    all: rewrite Hlen; apply ceil_div_bounds; done.
Qed.

Lemma chunked_partition_witness :
  exists chunks,
    PolygonClient._chunked ["AAPL"; "MSFT"; "X"] 2 = Ok chunks /\
    len chunks = 2 /\ concat chunks = ["AAPL"; "MSFT"; "X"].
Proof.
  destruct (chunked_partition ["AAPL"; "MSFT"; "X"] [] 2 ltac:(lia))
    as [(chunks & Heq & Hlen & _ & _ & Hcat) _].
  exists chunks. repeat split; [exact Heq | exact Hlen | exact Hcat].
Defined.

(** ** Numeric coercion and the derivation *)

Import Service.

Lemma float_of_int_raises n x :
  float_of_int n = Raise x -> x = OverflowError.
Proof.
  unfold float_of_int.
  destruct (binary_normalize prec emax n 0 false); congruence.
Qed.

Lemma float_of_str_raises s x :
  float_of_str s = Raise x -> x = ValueError.
Proof.
  unfold float_of_str.
  destruct (read_sign _) as [neg body].
  repeat match goal with
         | |- context [if ?c then _ else _] => destruct c
         | |- context [match ?m with _ => _ end] => destruct m
         end; congruence.
Qed.

Lemma to_float_null_iff v :
  _to_float v = Ok None <-> non_numeric v = true.
Proof.
  unfold _to_float. destruct v as [|b|n|f|s|l|d]; simpl; try (split; congruence).
  - destruct b; simpl; split; discriminate.
  - destruct (float_of_int n) as [f|[]] eqn:E; split; try discriminate.
    all: apply float_of_int_raises in E; discriminate.
  - destruct (float_of_str s) as [f|x] eqn:E; [split; discriminate|].
    apply float_of_str_raises in E as ->. split; reflexivity.
Qed.

Lemma to_float_raises v x :
  _to_float v = Raise x ->
  x = OverflowError /\ exists n, v = JInt n /\ float_of_int n = Raise OverflowError.
Proof.
  unfold _to_float. destruct v as [|b|n|f|s|l|d]; simpl; try discriminate.
  - destruct b; discriminate.
  - destruct (float_of_int n) as [f|y] eqn:E; [discriminate|].
    pose proof (float_of_int_raises _ _ E) as ->. intros [= <-]. eauto.
  - destruct (float_of_str s) as [f|y] eqn:E; [discriminate|].
    apply float_of_str_raises in E as ->. discriminate.
Qed.

Lemma to_float_absent_or_non_numeric field :
  absent_or_non_numeric field = true -> _to_float (default JNull field) = Ok None.
Proof.
  destruct field as [v|]; simpl; [apply to_float_null_iff | reflexivity].
Qed.

(** The derivation of an object, by its symbol and its three numeric
    sources. *)
Lemma derive_dict as_of fields :
  derive as_of (JDict fields) =
  match symbol_of fields with
  | None => Ok None
  | Some symbol =>
      todays_change ← _to_float (default JNull (held "todaysChange" fields));
      todays_change_perc ← _to_float (default JNull (held "todaysChangePerc" fields));
      minute_close ← _to_float (default JNull (close_of fields));
      Ok (Some {| ticker := upper symbol;
                  daily_pl := todays_change;
                  daily_pl_percent := todays_change_perc;
                  min_close := minute_close;
                  date := as_of |})
  end.
Proof.
  unfold derive, symbol_of, close_of, held, get. simpl.
  destruct (assoc "ticker" fields) as [[| | | |symbol| |]|]; simpl; try reflexivity.
  destruct (nonempty symbol); simpl; [|reflexivity].
  destruct (_to_float (default JNull (assoc "todaysChange" fields))) as [a|]; simpl; [|reflexivity].
  destruct (_to_float (default JNull (assoc "todaysChangePerc" fields))) as [b|]; simpl; [|reflexivity].
  destruct (assoc "min" fields) as [[| | | | | |block]|]; simpl; reflexivity.
Qed.

Lemma derive_dict_some as_of fields e :
  derive as_of (JDict fields) = Ok (Some e) ->
  exists symbol,
    symbol_of fields = Some symbol /\
    _to_float (default JNull (held "todaysChange" fields)) = Ok (daily_pl e) /\
    _to_float (default JNull (held "todaysChangePerc" fields)) = Ok (daily_pl_percent e) /\
    _to_float (default JNull (close_of fields)) = Ok (min_close e) /\
    ticker e = upper symbol /\ date e = as_of.
Proof.
  rewrite derive_dict. destruct (symbol_of fields) as [symbol|]; [|discriminate].
  destruct (_to_float (default JNull (held "todaysChange" fields))) as [a|];
    simpl; [|discriminate].
  destruct (_to_float (default JNull (held "todaysChangePerc" fields))) as [b|];
    simpl; [|discriminate].
  destruct (_to_float (default JNull (close_of fields))) as [c|]; simpl; [|discriminate].
  intros [= <-]. simpl. eauto 10.
Qed.

Lemma derive_all_app as_of snapshots acc entries :
  derive_all as_of snapshots acc = Ok entries <->
  exists kept,
    Forall2 (fun snap r => derive as_of snap = Ok r) snapshots kept /\
    entries = acc ++ omap id kept.
Proof.
  revert acc. induction snapshots as [|snap rest IH]; intros acc; simpl.
  - split.
    + intros [= <-]. exists []. split; [constructor | by rewrite app_nil_r].
    + intros (kept & Hk & ->). inversion Hk. by rewrite app_nil_r.
  - destruct (derive as_of snap) as [r|x] eqn:E; simpl.
    + rewrite IH. split.
      * intros (kept & Hk & ->). exists (r :: kept). split; [by constructor|].
        destruct r; simpl; [by rewrite <- app_assoc | done].
      * intros (kept & Hk & ->). inversion Hk as [|? r' ? kept' Hr Hrest]; subst.
        rewrite E in Hr. injection Hr as <-. exists kept'. split; [done|].
        destruct r; simpl; [by rewrite <- app_assoc | done].
    + split; [discriminate|].
      intros (kept & Hk & _). inversion Hk; subst. congruence.
Qed.

(** C2. For every snapshot record (an object), a record is skipped
    exactly when its ticker field is missing, empty or not a string; the
    coercion of an absent or non-numeric value is null and not an error,
    so an emitted entry has null in each field whose source (daily
    change, daily change percent, nested minute-bar close) is absent or
    non-numeric; the derivation of a record raises only [OverflowError],
    and only on a source that holds an integer; and the entries are the
    kept records' entries in input order, one per kept record. *)
Theorem derive_nulls_missing_numerics
    (as_of : string) (fields : list (string * json)) (snapshots : list json) :
  (derive as_of (JDict fields) = Ok None <-> symbol_of fields = None) /\
  (symbol_of fields = None <->
     held "ticker" fields = None \/
     held "ticker" fields = Some (JStr "") \/
     exists v, held "ticker" fields = Some v /\ forall s, v <> JStr s) /\
  (forall field, absent_or_non_numeric field = true ->
     _to_float (default JNull field) = Ok None) /\
  (forall e, derive as_of (JDict fields) = Ok (Some e) ->
     (absent_or_non_numeric (held "todaysChange" fields) = true -> daily_pl e = None) /\
     (absent_or_non_numeric (held "todaysChangePerc" fields) = true ->
        daily_pl_percent e = None) /\
     (absent_or_non_numeric (close_of fields) = true -> min_close e = None)) /\
  (forall x, derive as_of (JDict fields) = Raise x ->
     x = OverflowError /\
     exists n, float_of_int n = Raise OverflowError /\
       (held "todaysChange" fields = Some (JInt n) \/
        held "todaysChangePerc" fields = Some (JInt n) \/
        close_of fields = Some (JInt n))) /\
  (forall symbol, symbol_of fields = Some symbol ->
     absent_or_non_numeric (held "todaysChange" fields) = true ->
     absent_or_non_numeric (held "todaysChangePerc" fields) = true ->
     absent_or_non_numeric (close_of fields) = true ->
     derive as_of (JDict fields) =
     Ok (Some {| ticker := upper symbol; daily_pl := None; daily_pl_percent := None;
                 min_close := None; date := as_of |})) /\
  (forall entries, derive_all as_of snapshots [] = Ok entries <->
     exists kept,
       Forall2 (fun snap r => derive as_of snap = Ok r) snapshots kept /\
       entries = omap id kept).
Proof.
  pose proof (derive_dict as_of fields) as Hd.
  repeat match goal with |- _ /\ _ => split end.
  - rewrite Hd. destruct (symbol_of fields) as [symbol|]; [|done].
    split; [|discriminate]. intros H. exfalso. revert H.
    destruct (_to_float (default JNull (held "todaysChange" fields))) as [a|];
      simpl; [|discriminate].
    destruct (_to_float (default JNull (held "todaysChangePerc" fields))) as [b|];
      simpl; [|discriminate].
    destruct (_to_float (default JNull (close_of fields))) as [c|]; simpl; discriminate.
  - unfold symbol_of, held.
    destruct (assoc "ticker" fields) as [[| | | |symbol| |]|].
    all: try (split; [intros _; right; right; eexists; split; [reflexivity|discriminate] | reflexivity]).
    + destruct symbol as [|c symbol]; simpl.
      * split; [intros _; right; left; reflexivity | reflexivity].
      * split; [discriminate|].
        intros [H|[H|(v & [= <-] & H)]]; try discriminate.
        exfalso. by eapply H.
    + split; [by left | reflexivity].
  - exact to_float_absent_or_non_numeric.
  - intros e (symbol & _ & Ea & Eb & Ec & _)%derive_dict_some.
    repeat split; intros H%to_float_absent_or_non_numeric; congruence.
  - intros x. rewrite Hd. destruct (symbol_of fields) as [symbol|]; [|discriminate].
    assert (forall field y, _to_float (default JNull field) = Raise y ->
              y = OverflowError /\ exists n, float_of_int n = Raise OverflowError /\
              field = Some (JInt n)) as Hraise.
    { intros field y (-> & n & Hv & Hn)%to_float_raises. split; [done|].
      exists n. split; [done|]. destruct field; simpl in Hv; congruence. }
    destruct (_to_float (default JNull (held "todaysChange" fields))) as [a|y] eqn:Ea; simpl.
    2:{ intros [= <-]. destruct (Hraise _ _ Ea) as (-> & n & ? & ?). eauto 6. }
    destruct (_to_float (default JNull (held "todaysChangePerc" fields))) as [b|y] eqn:Eb; simpl.
    2:{ intros [= <-]. destruct (Hraise _ _ Eb) as (-> & n & ? & ?). eauto 6. }
    destruct (_to_float (default JNull (close_of fields))) as [c|y] eqn:Ec; simpl.
    2:{ intros [= <-]. destruct (Hraise _ _ Ec) as (-> & n & ? & ?). eauto 7. }
    discriminate.
  - intros symbol Hs Ha Hb Hc. rewrite Hd, Hs.
    rewrite !to_float_absent_or_non_numeric by done. reflexivity.
  - intros entries. apply (derive_all_app as_of snapshots []).
Qed.

(** The scenario of the specification: a numeric change, a
    non-numeric percentage and a nested close. *)
Example derive_scenario :
  derive "2024-11-04"
    (JDict [("ticker", JStr "AAPL");
            ("todaysChange", JFloat (S754_finite false 5539427541665710 (-52)));
            ("todaysChangePerc", JStr "bad");
            ("min", JDict [("c", JFloat (S754_finite false 5295247999369216 (-45)))])])
  = Ok (Some {| ticker := "AAPL";
                daily_pl := Some (S754_finite false 5539427541665710 (-52));
                daily_pl_percent := None;
                min_close := Some (S754_finite false 5295247999369216 (-45));
                date := "2024-11-04" |}).
Proof. vm_compute. reflexivity. Qed.

(** C10. A boolean is coerced to 1.0 (true) or 0.0 (false), not to
    null: so is a boolean held in any of the three numeric sources of a
    record that yields an entry. *)
Theorem to_float_bool (b : bool) (as_of : string) (fields : list (string * json))
    (e : TickerPL) :
  let number := if b then float_one else float_zero in
  _to_float (JBool b) = Ok (Some number) /\
  (derive as_of (JDict fields) = Ok (Some e) ->
   (held "todaysChange" fields = Some (JBool b) -> daily_pl e = Some number) /\
   (held "todaysChangePerc" fields = Some (JBool b) -> daily_pl_percent e = Some number) /\
   (close_of fields = Some (JBool b) -> min_close e = Some number)).
Proof.
  intros number.
  assert (_to_float (JBool b) = Ok (Some number)) as Hb by (by destruct b).
  split; [exact Hb|].
  intros (symbol & _ & Ea & Eb & Ec & _)%derive_dict_some.
  repeat split; intros H; rewrite H in *; simpl in *; congruence.
Qed.

(** ** The as-of date and the tickers of a run *)

Lemma code_chr n : 0 <= n < 256 -> code (chr n) = n.
Proof.
  intros Hn. unfold code, chr.
  rewrite N_ascii_embedding; lia.
Qed.

Lemma upper_char_idem c : upper_char (upper_char c) = upper_char c.
Proof. destruct c as [[] [] [] [] [] [] [] []]; reflexivity. Qed.

Lemma upper_char_not_lower c : islower (upper_char c) = false.
Proof. destruct c as [[] [] [] [] [] [] [] []]; reflexivity. Qed.

Lemma upper_idem s : upper (upper s) = upper s.
Proof.
  induction s as [|c s IH]; simpl; [done|].
  unfold upper in *. simpl. by rewrite upper_char_idem, IH.
Qed.

Lemma upper_uppercase s : uppercase (upper s) = true.
Proof.
  induction s as [|c s IH]; simpl; [done|].
  unfold uppercase, upper in *. simpl. by rewrite upper_char_not_lower, IH.
Qed.

Lemma upper_nonempty s : nonempty (upper s) = nonempty s.
Proof. by destruct s. Qed.

Lemma digit_char_digit x :
  isdigit (digit_char x) = true /\ digit_value (digit_char x) = x mod 10.
Proof.
  unfold isdigit, digit_value, digit_char.
  pose proof (Z.mod_pos_bound x 10 ltac:(lia)) as Hx.
  rewrite code_chr by lia. lia.
Qed.

Lemma strftime_ymd_shape y m d :
  is_ymd (strftime_ymd (y, m, d)) = true.
Proof.
  unfold strftime_ymd, is_ymd.
  rewrite !(proj1 (digit_char_digit _)). reflexivity.
Qed.

Lemma strftime_ymd_reads_back y m d :
  0 <= y <= 9999 -> 0 <= m <= 99 -> 0 <= d <= 99 ->
  read_ymd (strftime_ymd (y, m, d)) = Some (y, m, d).
Proof.
  intros Hy Hm Hd.
  pose proof (strftime_ymd_shape y m d) as Hs.
  unfold read_ymd. unfold strftime_ymd in *. rewrite Hs.
  rewrite !(proj2 (digit_char_digit _)).
  do 3 f_equal; Z.div_mod_to_equations; lia.
Qed.

Lemma month_day_range n leapyear :
  0 <= n <= 364 ->
  1 <= fst (month_day n leapyear) <= 12 /\ 1 <= snd (month_day n leapyear) <= 31.
Proof.
  intros Hn.
  assert (forallb (fun k : nat =>
            forallb (fun leap =>
              let '(m, d) := month_day (Z.of_nat k) leap in
              (1 <=? m) && (m <=? 12) && (1 <=? d) && (d <=? 31)) [true; false])
            (seq 0 365) = true) as Hall by (vm_compute; reflexivity).
  rewrite forallb_forall in Hall.
  specialize (Hall (Z.to_nat n)). rewrite Z2Nat.id in Hall by lia.
  assert (In (Z.to_nat n) (seq 0 365)) as Hin by (apply in_seq; lia).
  specialize (Hall Hin). rewrite forallb_forall in Hall.
  specialize (Hall leapyear ltac:(destruct leapyear; simpl; auto)).
  destruct (month_day n leapyear) as [m d]. simpl. lia.
Qed.

Lemma ord2ymd_range ordinal :
  1 <= ordinal <= _MAXORDINAL ->
  exists y m d, _ord2ymd ordinal = (y, m, d) /\
    1 <= y <= 9999 /\ 1 <= m <= 12 /\ 1 <= d <= 31.
Proof.
  unfold _MAXORDINAL, _ord2ymd. intros Hord.
  set (n0 := ordinal - 1).
  set (n400 := n0 / 146097). set (r0 := n0 mod 146097).
  set (n100 := r0 / 36524). set (r1 := r0 mod 36524).
  set (n4 := r1 / 1461). set (r2 := r1 mod 1461).
  set (n1 := r2 / 365). set (r3 := r2 mod 365).
  assert (0 <= n400 /\ 0 <= n100 <= 4 /\ 0 <= n4 <= 24 /\ 0 <= n1 <= 4 /\ 0 <= r3 <= 364 /\
          n0 = 146097 * n400 + 36524 * n100 + 1461 * n4 + 365 * n1 + r3) as Hq.
  { subst n400 r0 n100 r1 n4 r2 n1 r3. Z.div_mod_to_equations. lia. }
  clearbody n400 r0 n100 r1 n4 r2 n1 r3.
  destruct ((n1 =? 4) || (n100 =? 4)) eqn:Hspecial.
  - eexists _, _, _. split; [reflexivity|]. lia.
  - pose proof (month_day_range r3 ((n1 =? 3) && (negb (n4 =? 24) || (n100 =? 3)))
                  ltac:(lia)) as Hmd.
    destruct (month_day r3 _) as [m d]. simpl in Hmd.
    eexists _, _, _. split; [reflexivity|]. lia.
Qed.

Lemma outcome_bind {A B : Type} (m : io A) (f : A -> io B) :
  outcome (m ≫= f) =
  match outcome m with Ok a => outcome (f a) | Raise e => Raise e end.
Proof. unfold mbind, io_bind. by destruct (outcome m). Qed.

Lemma events_bind {A B : Type} (m : io A) (f : A -> io B) :
  events (m ≫= f) =
  match outcome m with Ok a => events m ++ events (f a) | Raise e => events m end.
Proof. unfold mbind, io_bind. by destruct (outcome m). Qed.

(** From a successful [m >>= f] to a successful [m] and [f a]. *)
Ltac bind_ok H a Ha :=
  rewrite outcome_bind in H;
  match type of H with
  | match ?o with _ => _ end = _ => destruct o as [a|] eqn:Ha; [|discriminate H]
  end.

Lemma derive_some as_of snap e :
  derive as_of snap = Ok (Some e) ->
  date e = as_of /\ exists symbol, nonempty symbol = true /\ ticker e = upper symbol.
Proof.
  destruct snap as [| | | | | |fields]; try discriminate.
  intros (symbol & Hs & _ & _ & _ & Ht & Hd)%derive_dict_some.
  split; [done|]. exists symbol. split; [|done].
  unfold symbol_of in Hs.
  destruct (assoc "ticker" fields) as [[| | | |symbol'| |]|]; try discriminate.
  destruct (nonempty symbol') eqn:Hn; [|discriminate]. by injection Hs as <-.
Qed.

Lemma derive_all_entries as_of snapshots entries :
  derive_all as_of snapshots [] = Ok entries ->
  Forall (fun e => exists snap, snap ∈ snapshots /\ derive as_of snap = Ok (Some e)) entries.
Proof.
  intros (kept & Hk & ->)%derive_all_app. simpl.
  induction Hk as [|snap r rest kept Hr Hrest IH]; simpl; [constructor|].
  assert (Forall (fun e => exists s, s ∈ snap :: rest /\ derive as_of s = Ok (Some e))
                 (omap id kept)) as IH'.
  { eapply Forall_impl; [exact IH|]. intros e (s & Hin & Hs). exists s.
    split; [by right | done]. }
  destruct r as [e|]; simpl; [|exact IH'].
  constructor; [|exact IH']. exists snap. split; [by left | done].
Qed.

Lemma now_date_range tz clock today :
  now_date tz clock = Ok today ->
  exists y m d, today = (y, m, d) /\ 1 <= y <= 9999 /\ 1 <= m <= 12 /\ 1 <= d <= 31.
Proof.
  unfold now_date.
  destruct (_ || _); [discriminate|].
  destruct (_ || _) eqn:Hrange; [discriminate|].
  intros [= <-].
  destruct (ord2ymd_range (_EPOCH_ORDINAL + (clock + utcoffset tz clock) / 86400))
    as (y & m & d & -> & Hy & Hm & Hd); [|eauto 8].
  apply orb_false_iff in Hrange. lia.
Qed.

Lemma collect_in_zone_ok w config tz entries :
  outcome (collect_in_zone w config tz) = Ok entries ->
  exists today snapshots,
    now_date tz (clock w) = Ok today /\
    derive_all (strftime_ymd today) snapshots [] = Ok entries.
Proof.
  unfold collect_in_zone. intros H.
  bind_ok H today Htoday. bind_ok H tickers Ht. bind_ok H tickers' Ht'.
  bind_ok H u1 Hu1. bind_ok H snapshots Hsnap. bind_ok H u2 Hu2.
  bind_ok H pl Hpl. bind_ok H u3 Hu3. simpl in *.
  injection H as <-. eauto.
Qed.

(** C4. All entries a run emits carry one date string, the calendar
    date of the clock reading in the zone of the run, taken before
    discovery starts and spelled [YYYY-MM-DD]; and every emitted entry has
    a non-empty ticker in upper case. *)
Theorem collect_one_date_upper_tickers
    (w : world) (config : Config.AppConfig) (entries : list TickerPL) :
  outcome (collect_daily_pl w config) = Ok entries ->
  exists tz y m d,
    outcome (resolve_zone w config) = Ok tz /\
    now_date tz (clock w) = Ok (y, m, d) /\
    1 <= y <= 9999 /\ 1 <= m <= 12 /\ 1 <= d <= 31 /\
    is_ymd (strftime_ymd (y, m, d)) = true /\
    read_ymd (strftime_ymd (y, m, d)) = Some (y, m, d) /\
    Forall (fun e =>
              date e = strftime_ymd (y, m, d) /\
              nonempty (ticker e) = true /\
              upper (ticker e) = ticker e /\
              uppercase (ticker e) = true) entries.
Proof.
  unfold collect_daily_pl. intros H.
  bind_ok H u Hu. bind_ok H tz Htz.
  apply collect_in_zone_ok in H as (today & snapshots & Hnow & Hall).
  destruct (now_date_range _ _ _ Hnow) as (y & m & d & -> & Hy & Hm & Hd).
  exists tz, y, m, d. repeat split; try done; try lia.
  - apply strftime_ymd_shape.
  - apply strftime_ymd_reads_back; lia.
  - eapply Forall_impl; [exact (derive_all_entries _ _ _ Hall)|].
    intros e (snap & _ & (Hdate & symbol & Hs & Ht)%derive_some).
    rewrite Ht, upper_nonempty, upper_idem, upper_uppercase. done.
Qed.

Lemma collect_one_date_upper_tickers_witness :
  exists entries,
    outcome (collect_daily_pl (sample_world sample_zones) (sample_config "UTC" 2))
    = Ok entries /\
    Forall (fun e => date e = "2024-11-04" /\ ticker e = "AAPL") entries /\
    length entries = 1%nat.
Proof.
  set (run := outcome (collect_daily_pl (sample_world sample_zones) (sample_config "UTC" 2))).
  assert (exists entries, run = Ok entries /\ length entries = 1%nat
                          /\ Forall (fun e => ticker e = "AAPL") entries) as (entries & Hrun & Hlen & Ht).
  { vm_compute. eexists. split; [reflexivity|]. split; [reflexivity|].
    repeat constructor. }
  exists entries. split; [exact Hrun|]. split; [|exact Hlen].
  destruct (collect_one_date_upper_tickers _ _ _ Hrun)
    as (tz & y & m & d & Htz & Hnow & _ & _ & _ & _ & _ & Hall).
  vm_compute in Htz. injection Htz as <-.
  vm_compute in Hnow. injection Hnow as <- <- <-.
  rewrite Forall_forall in Hall, Ht. apply Forall_forall. intros e He.
  split; [apply (Hall e He) | apply (Ht e He)].
Defined.

(** ** The concurrency gate *)

Section Gate.
Import PolygonClient.
Variables (api_key : string) (include_otc : bool).
Variable chunks : list (list string).
Variable respond : nat -> result response.

Local Abbreviation step := (step api_key include_otc chunks respond).
Local Abbreviation run := (run api_key include_otc chunks respond).
Local Abbreviation busy l := (len (List.filter (fun p => bool_decide (p = InFlight)) l)).

Lemma busy_insert (l : list phase) (i : nat) (q p : phase) :
  l !! i = Some q ->
  busy (<[i := p]> l)
  = busy l - (if bool_decide (q = InFlight) then 1 else 0)
           + (if bool_decide (p = InFlight) then 1 else 0).
Proof.
  revert i. induction l as [|x l IH]; intros i Hi; [done|].
  destruct i as [|i]; simpl in *.
  - injection Hi as ->. unfold len.
    destruct (bool_decide (q = InFlight)), (bool_decide (p = InFlight)); simpl; lia.
  - specialize (IH i Hi). unfold len in *.
    destruct (bool_decide (x = InFlight)); simpl; lia.
Qed.

Lemma busy_nonneg (l : list phase) : 0 <= busy l.
Proof. unfold len. lia. Qed.

Lemma busy_pos (l : list phase) (i : nat) : l !! i = Some InFlight -> 1 <= busy l.
Proof.
  revert i. induction l as [|x l IH]; intros i Hi; [done|].
  destruct i as [|i]; simpl in *.
  - injection Hi as ->. unfold len. simpl. lia.
  - specialize (IH i Hi). unfold len in *.
    destruct (bool_decide (x = InFlight)); simpl; lia.
Qed.

Lemma busy_zero (l : list phase) :
  busy l = 0 <-> forall i, l !! i <> Some InFlight.
Proof.
  split.
  - intros Hz i Hi. pose proof (busy_pos l i Hi). lia.
  - induction l as [|x l IH]; intros Hno; [done|].
    assert (x <> InFlight) as Hx by (intros ->; by apply (Hno 0%nat)).
    simpl. rewrite bool_decide_eq_false_2 by done. apply IH.
    intros i. apply (Hno (S i)).
Qed.

Lemma step_gate_ok value st i :
  gate_ok chunks value st -> gate_ok chunks value (step st i).
Proof.
  intros (Hp & Hsum & Hlen). unfold PolygonClient.step, in_flight in *.
  destruct (phases st !! i) as [q|] eqn:Hq; [|done].
  destruct (chunks !! i) as [chunk|] eqn:Hc; [|by destruct q].
  assert (i < length (phases st))%nat as Hi by (by eapply lookup_lt_Some).
  destruct q; try done.
  - destruct (0 <? permits st) eqn:Hfree; unfold gate_ok, enter_gate, in_flight; simpl.
    + rewrite list_insert_insert_eq, (busy_insert _ _ _ _ Hq), !length_insert. simpl. lia.
    + rewrite (busy_insert _ _ _ _ Hq), !length_insert. simpl. lia.
  - destruct (0 <? permits st) eqn:Hfree; [|done].
    unfold gate_ok, enter_gate, in_flight; simpl.
    rewrite (busy_insert _ _ _ _ Hq), !length_insert. simpl. lia.
  - unfold gate_ok, leave_gate, in_flight; simpl.
    rewrite (busy_insert _ _ _ _ Hq), !length_insert. simpl. lia.
Qed.

Lemma run_gate_ok value st schedule :
  gate_ok chunks value st -> gate_ok chunks value (run st schedule).
Proof.
  revert st. induction schedule as [|i schedule IH]; intros st Hst; [done|].
  simpl. apply IH. by apply step_gate_ok.
Qed.

Lemma initial_gate_ok value : 0 <= value -> gate_ok chunks value (initial chunks value).
Proof.
  intros Hv. unfold gate_ok, initial, in_flight. simpl.
  rewrite length_replicate. split; [done|]. split; [|done].
  assert (busy (replicate (length chunks) Created) = 0) as ->; [|lia].
  apply busy_zero. intros i Hi. apply lookup_replicate in Hi as [? _]. done.
Qed.

Lemma step_waits_while_full value st i :
  gate_ok chunks value st -> in_flight st = value ->
  phases st !! i = Some Created \/ phases st !! i = Some Waiting ->
  in_flight (step st i) = value /\ phases (step st i) !! i = Some Waiting.
Proof.
  intros (Hp & Hsum & Hlen) Hfull Hi.
  assert (i < length chunks)%nat as Hlt.
  { rewrite <- Hlen. destruct Hi as [Hi|Hi]; by eapply lookup_lt_Some. }
  destruct (lookup_lt_is_Some_2 chunks i Hlt) as [chunk Hc].
  assert ((0 <? permits st) = false) as Hnone by lia.
  unfold PolygonClient.step. rewrite Hc, Hnone.
  destruct Hi as [Hi|Hi]; rewrite Hi; [|done].
  unfold in_flight in *. simpl. rewrite (busy_insert _ _ _ _ Hi). simpl.
  split; [lia|]. apply list_lookup_insert_eq. by eapply lookup_lt_Some.
Qed.

Lemma step_enters_freed_slot value st i j :
  gate_ok chunks value st ->
  phases st !! i = Some InFlight -> phases st !! j = Some Waiting ->
  phases (step st i) !! i = Some Finished /\
  phases (step (step st i) j) !! j = Some InFlight.
Proof.
  intros (Hp & Hsum & Hlen) Hi Hj.
  assert (i <> j) as Hne by (intros ->; congruence).
  assert (i < length (phases st))%nat as Hilt by (by eapply lookup_lt_Some).
  assert (j < length (phases st))%nat as Hjlt by (by eapply lookup_lt_Some).
  destruct (lookup_lt_is_Some_2 chunks i ltac:(lia)) as [ci Hci].
  destruct (lookup_lt_is_Some_2 chunks j ltac:(lia)) as [cj Hcj].
  assert (step st i = leave_gate respond i st) as ->.
  { unfold PolygonClient.step. by rewrite Hi, Hci. }
  split; [by apply list_lookup_insert_eq|].
  unfold PolygonClient.step, leave_gate. simpl.
  rewrite list_lookup_insert_ne, Hj, Hcj by done.
  assert ((0 <? permits st + 1) = true) as -> by lia.
  unfold enter_gate. simpl. apply list_lookup_insert_eq. by rewrite length_insert.
Qed.

(** *** The loop is not left waiting at the gate *)

Lemma step_other st i j : i <> j -> phases (step st i) !! j = phases st !! j.
Proof.
  intros Hne. unfold PolygonClient.step.
  destruct (phases st !! i) as [[]|]; destruct (chunks !! i); try done; simpl.
  - destruct (0 <? permits st); simpl; by rewrite !list_lookup_insert_ne.
  - destruct (0 <? permits st); simpl; [by rewrite list_lookup_insert_ne | done].
  - by rewrite list_lookup_insert_ne.
Qed.

Lemma step_answers value st i :
  gate_ok chunks value st ->
  phases st !! i = Some InFlight \/ phases st !! i = Some Finished ->
  phases (step st i) !! i = Some Finished.
Proof.
  intros (_ & _ & Hlen) [Hi|Hi]; unfold PolygonClient.step; rewrite Hi.
  - assert (i < length chunks)%nat as Hlt by (rewrite <- Hlen; by eapply lookup_lt_Some).
    destruct (lookup_lt_is_Some_2 chunks i Hlt) as [chunk ->]. simpl.
    apply list_lookup_insert_eq. by eapply lookup_lt_Some.
  - by destruct (chunks !! i).
Qed.

Lemma run_answers value st ids :
  gate_ok chunks value st ->
  (forall i, i ∈ ids -> phases st !! i = Some InFlight \/ phases st !! i = Some Finished) ->
  (forall j, j ∈ ids -> phases (run st ids) !! j = Some Finished) /\
  (forall j, j ∉ ids -> phases (run st ids) !! j = phases st !! j).
Proof.
  revert st. induction ids as [|i rest IH]; intros st Hok Hids.
  - split; [intros j Hj; by apply elem_of_nil in Hj | done].
  - simpl.
    assert (phases (step st i) !! i = Some Finished) as Hi.
    { eapply step_answers; [exact Hok|]. apply Hids. by left. }
    destruct (IH (step st i)) as [Hin Hout].
    + by apply step_gate_ok.
    + intros k Hk. destruct (decide (k = i)) as [->|Hne]; [by right|].
      rewrite step_other by done. apply Hids. by right.
    + split.
      * intros j Hj. destruct (decide (j ∈ rest)) as [Hr|Hr]; [by apply Hin|].
        apply elem_of_cons in Hj as [->|Hj]; [|done]. by rewrite Hout.
      * intros j Hj. apply not_elem_of_cons in Hj as [Hne Hr].
        rewrite Hout by done. by apply step_other.
Qed.

Lemma step_twice value st i :
  gate_ok chunks value st -> 1 <= value -> in_flight st = 0 ->
  (i < length chunks)%nat ->
  in_flight (step (step st i) i) = 0 /\
  phases (step (step st i) i) !! i = Some Finished.
Proof.
  intros Hok Hv Hidle Hlt.
  pose proof Hok as (Hp & Hsum & Hlen).
  destruct (lookup_lt_is_Some_2 chunks i Hlt) as [chunk Hc].
  destruct (lookup_lt_is_Some_2 (phases st) i ltac:(lia)) as [q Hq].
  assert ((0 <? permits st) = true) as Hfree by lia.
  assert (i < length (phases st))%nat as Hi by lia.
  destruct q.
  - assert (step st i = enter_gate api_key include_otc i chunk
              {| permits := permits st; phases := <[i := Waiting]> (phases st);
                 completed := completed st;
                 trace := trace st ++ [Log "INFO" "snapshot_request"] |}) as ->.
    { unfold PolygonClient.step. by rewrite Hq, Hc, Hfree. }
    unfold PolygonClient.step, enter_gate, leave_gate, in_flight in *. simpl.
    rewrite ?list_insert_insert_eq, list_lookup_insert_eq, Hc by done. simpl.
    rewrite ?list_insert_insert_eq, (busy_insert _ _ _ _ Hq), list_lookup_insert_eq by done.
    simpl. split; [lia | done].
  - assert (step st i = enter_gate api_key include_otc i chunk st) as ->.
    { unfold PolygonClient.step. by rewrite Hq, Hc, Hfree. }
    unfold PolygonClient.step, enter_gate, leave_gate, in_flight in *. simpl.
    rewrite ?list_insert_insert_eq, list_lookup_insert_eq, Hc by done. simpl.
    rewrite ?list_insert_insert_eq, (busy_insert _ _ _ _ Hq), list_lookup_insert_eq by done.
    simpl. split; [lia | done].
  - pose proof (busy_pos _ _ Hq). unfold in_flight in Hidle. lia.
  - assert (step st i = st) as Hstay.
    { unfold PolygonClient.step. by rewrite Hq. }
    by rewrite !Hstay.
Qed.

Lemma run_pairs value st ids :
  gate_ok chunks value st -> 1 <= value -> in_flight st = 0 ->
  (forall i, i ∈ ids -> (i < length chunks)%nat) ->
  (forall j, j ∈ ids ->
     phases (run st (flat_map (fun i => [i; i]) ids)) !! j = Some Finished) /\
  (forall j, j ∉ ids ->
     phases (run st (flat_map (fun i => [i; i]) ids)) !! j = phases st !! j).
Proof.
  revert st. induction ids as [|i rest IH]; intros st Hok Hv Hidle Hids.
  - split; [intros j Hj; by apply elem_of_nil in Hj | done].
  - simpl.
    destruct (step_twice value st i Hok Hv Hidle) as [Hidle' Hi].
    { apply Hids. by left. }
    destruct (IH (step (step st i) i)) as [Hin Hout]; try done.
    + by do 2 apply step_gate_ok.
    + intros k Hk. apply Hids. by right.
    + split.
      * intros j Hj. destruct (decide (j ∈ rest)) as [Hr|Hr]; [by apply Hin|].
        apply elem_of_cons in Hj as [->|Hj]; [|done]. by rewrite Hout.
      * intros j Hj. apply not_elem_of_cons in Hj as [Hne Hr].
        rewrite Hout by done. by rewrite !step_other.
Qed.

Lemma elem_of_tasks_in (p : phase -> bool) st j :
  j ∈ tasks_in p st <-> exists q, phases st !! j = Some q /\ p q = true.
Proof.
  unfold tasks_in. rewrite list_elem_of_In, filter_In, in_seq. split.
  - intros [_ Hp]. destruct (phases st !! j) as [q|]; [eauto | done].
  - intros (q & Hq & Hp). rewrite Hq. split; [|done].
    apply lookup_lt_Some in Hq. lia.
Qed.

Lemma drained_finishes value schedule :
  1 <= value ->
  phases (run (run (initial chunks value) schedule)
              (drain (run (initial chunks value) schedule)))
  = replicate (length chunks) Finished.
Proof.
  intros Hv.
  set (st := run (initial chunks value) schedule).
  assert (gate_ok chunks value st) as Hok by (apply run_gate_ok, initial_gate_ok; lia).
  unfold drain. unfold PolygonClient.run. rewrite foldl_app. fold (run st).
  set (flying := tasks_in (fun p => bool_decide (p = InFlight)) st).
  set (pending := tasks_in _ st).
  destruct (run_answers value st flying Hok) as [Hfin Hsame].
  { intros i (q & Hq & Hp)%elem_of_tasks_in. apply bool_decide_eq_true in Hp as ->.
    by left. }
  set (st1 := run st flying) in *.
  assert (gate_ok chunks value st1) as Hok1 by (by apply run_gate_ok).
  assert (in_flight st1 = 0) as Hidle.
  { apply busy_zero. intros j Hj.
    destruct (decide (j ∈ flying)) as [Hin|Hout].
    - rewrite Hfin in Hj by done. discriminate.
    - rewrite Hsame in Hj by done. apply Hout, elem_of_tasks_in.
      exists InFlight. by rewrite bool_decide_eq_true_2. }
  destruct (run_pairs value st1 pending Hok1 Hv Hidle) as [Hfin2 Hsame2].
  { intros i (q & Hq & _)%elem_of_tasks_in. destruct Hok as (_ & _ & <-).
    by eapply lookup_lt_Some. }
  fold (run st1 (flat_map (fun i => [i; i]) pending)).
  set (st2 := run st1 _) in *.
  assert (gate_ok chunks value st2) as (_ & _ & Hlen2) by (by apply run_gate_ok).
  apply list_eq. intros j.
  change (phases st2 !! j = replicate (length chunks) Finished !! j).
  destruct (decide (j < length chunks)%nat) as [Hlt|Hge].
  2:{ rewrite !(proj2 (lookup_ge_None _ _)); [done | rewrite length_replicate; lia | lia]. }
  rewrite lookup_replicate_2 by done.
  destruct (decide (j ∈ pending)) as [Hin|Hout]; [by apply Hfin2|].
  rewrite Hsame2 by done.
  destruct (decide (j ∈ flying)) as [Hin1|Hout1]; [by apply Hfin|].
  rewrite Hsame by done.
  destruct Hok as (_ & _ & Hlen).
  destruct (lookup_lt_is_Some_2 (phases st) j ltac:(lia)) as [q Hq].
  rewrite Hq. destruct q; try done.
  - exfalso. apply Hout, elem_of_tasks_in. by exists Created.
  - exfalso. apply Hout, elem_of_tasks_in. by exists Waiting.
  - exfalso. apply Hout1, elem_of_tasks_in. by exists InFlight.
Qed.

Local Abbreviation halted := (halted respond).
Local Abbreviation until_halt := (until_halt api_key include_otc chunks respond).

(** A schedule that does not end in a failure is followed whole. *)
Lemma until_halt_full st schedule :
  halted (run st (until_halt st schedule)) = false ->
  until_halt st schedule = schedule.
Proof.
  revert st. induction schedule as [|i rest IH]; intros st; [done|].
  cbn [PolygonClient.until_halt]. destruct (halted (step st i)) eqn:Hi.
  - cbn. by rewrite Hi.
  - intros Hrun. f_equal. by apply IH.
Qed.

(** The loop is a run of the tasks under some schedule. *)
Lemma event_loop_reached value schedule :
  exists resumed,
    event_loop api_key include_otc chunks respond value schedule
    = run (initial chunks value) resumed.
Proof.
  unfold event_loop.
  destruct (halted (run (initial chunks value) (until_halt (initial chunks value) schedule))).
  - by eexists.
  - eexists. unfold PolygonClient.run. by rewrite <- foldl_app.
Qed.

(** The loop ends at a task that finished in failure, or with every
    task finished. *)
Lemma event_loop_ends value schedule :
  1 <= value ->
  halted (event_loop api_key include_otc chunks respond value schedule) = true \/
  phases (event_loop api_key include_otc chunks respond value schedule)
  = replicate (length chunks) Finished.
Proof.
  intros Hv. unfold event_loop.
  set (st := run (initial chunks value) (until_halt (initial chunks value) schedule)).
  destruct (halted st) eqn:Hst; [by left|].
  destruct (halted (run st (until_halt st (drain st)))) eqn:Hend; [by left|].
  right. rewrite (until_halt_full _ _ Hend). by apply drained_finishes.
Qed.

End Gate.

Lemma get_config_clamps getenv config :
  Config.get_config getenv = Ok config ->
  1 <= Config.ticker_batch_size config /\
  1 <= Config.snapshot_concurrency config /\
  1 <= Config.redis_pipeline_size config.
Proof.
  unfold Config.get_config.
  destruct (negb _); [discriminate|].
  destruct (float_of_str (default "20" _)) as [connect|]; [|discriminate].
  destruct (float_of_str (default "60" _)) as [read|]; [|discriminate].
  unfold mbind, result_bind, mret, result_ret.
  intros [= <-]. simpl. lia.
Qed.

(** C8. Whatever the number of chunks and the order in which the loop
    resumes the tasks, the requests in flight never exceed the gate's
    size, [max(1, concurrency)]: the concurrency value itself when it is
    at least 1, as every value the configuration loader produces is. A
    task that reaches a full gate waits, and enters once a request in
    flight is answered. *)
Theorem gate_bounds_in_flight
    (api_key : string) (include_otc : bool) (chunks : list (list string))
    (respond : nat -> result response) (schedule : list nat) (concurrency : Z)
    (getenv : string -> option string) (config : Config.AppConfig) :
  let cap := Z.max 1 concurrency in
  let st := PolygonClient.run api_key include_otc chunks respond
              (PolygonClient.initial chunks cap) schedule in
  let step := PolygonClient.step api_key include_otc chunks respond in
  0 <= PolygonClient.in_flight st <= cap /\
  (1 <= concurrency -> PolygonClient.in_flight st <= concurrency) /\
  (Config.get_config getenv = Ok config ->
   concurrency = Config.snapshot_concurrency config ->
   PolygonClient.in_flight st <= Config.snapshot_concurrency config) /\
  (forall i,
     PolygonClient.in_flight st = cap ->
     PolygonClient.phases st !! i = Some PolygonClient.Created \/
     PolygonClient.phases st !! i = Some PolygonClient.Waiting ->
     PolygonClient.in_flight (step st i) = cap /\
     PolygonClient.phases (step st i) !! i = Some PolygonClient.Waiting) /\
  (forall i j,
     PolygonClient.phases st !! i = Some PolygonClient.InFlight ->
     PolygonClient.phases st !! j = Some PolygonClient.Waiting ->
     PolygonClient.phases (step st i) !! i = Some PolygonClient.Finished /\
     PolygonClient.phases (step (step st i) j) !! j = Some PolygonClient.InFlight).
Proof.
  intros cap st step.
  assert (gate_ok chunks cap st) as Hok.
  { apply run_gate_ok, initial_gate_ok. lia. }
  pose proof Hok as (Hp & Hsum & Hlen).
  assert (0 <= PolygonClient.in_flight st) as Hnn by (unfold PolygonClient.in_flight, len; lia).
  repeat match goal with |- _ /\ _ => split end.
  - exact Hnn.
  - lia.
  - lia.
  - intros (_ & Hc & _)%get_config_clamps ->. lia.
  - intros i. exact (step_waits_while_full api_key include_otc chunks respond cap st i Hok).
  - intros i j.
    exact (step_enters_freed_slot api_key include_otc chunks respond cap st i j Hok).
Qed.

(** A gate of size one under three chunks: with SNAPSHOT_CONCURRENCY
    set to -3 the loader yields 1, and one request is in flight after the
    loop has resumed the three tasks. *)
Lemma gate_bounds_in_flight_witness :
  let getenv := fun k : string =>
    if (k =? "POLYGON_API_KEY")%string then Some "key"
    else if (k =? "SNAPSHOT_CONCURRENCY")%string then Some "-3" else None in
  exists config,
    Config.get_config getenv = Ok config /\
    Config.snapshot_concurrency config = 1 /\
    PolygonClient.in_flight
      (PolygonClient.run "key" false [["A"]; ["B"]; ["C"]] (fun _ => Raise TransportError)
         (PolygonClient.initial [["A"]; ["B"]; ["C"]] 1) [0; 1; 2]%nat) <= 1.
Proof.
  intros getenv.
  destruct (Config.get_config getenv) as [config|] eqn:Hcfg; [|vm_compute in Hcfg; discriminate].
  exists config. split; [reflexivity|].
  assert (Config.snapshot_concurrency config = 1) as Hc.
  { vm_compute in Hcfg. injection Hcfg as <-. reflexivity. }
  split; [exact Hc|].
  pose proof (gate_bounds_in_flight "key" false [["A"]; ["B"]; ["C"]]
                (fun _ => Raise TransportError) [0; 1; 2]%nat
                (Config.snapshot_concurrency config) getenv config) as H.
  simpl in H. destruct H as (_ & _ & H & _).
  specialize (H Hcfg eq_refl). rewrite Hc in H. exact H.
Defined.

(** ** Normalisation and the early return of the fetcher *)

Lemma lstrip_by_empty p s : lstrip_by p s = "" <-> all_chars p s = true.
Proof.
  induction s as [|c s IH]; simpl; [done|].
  destruct (p c); simpl; [exact IH | split; discriminate].
Qed.

Lemma all_chars_lstrip_by p s :
  all_chars p (lstrip_by p s) = true -> lstrip_by p s = "".
Proof.
  induction s as [|c s IH]; simpl; [done|].
  destruct (p c) eqn:Hc; [exact IH|]. simpl. by rewrite Hc.
Qed.

Lemma all_chars_rev_app p s1 s2 :
  all_chars p (String.rev_app s1 s2) = all_chars p s1 && all_chars p s2.
Proof.
  revert s2. induction s1 as [|c s1 IH]; intros s2; simpl; [done|].
  rewrite IH. simpl. by destruct (p c), (all_chars p s1).
Qed.

Lemma rev_app_empty s1 s2 : String.rev_app s1 s2 = "" -> s1 = "" /\ s2 = "".
Proof.
  revert s2. induction s1 as [|c s1 IH]; intros s2; simpl; [done|].
  intros [_ [=]]%IH.
Qed.

Lemma strip_empty s : strip s = "" <-> all_chars isspace s = true.
Proof.
  unfold strip, rstrip_by, String.rev. split.
  - intros [Hx _]%rev_app_empty. apply lstrip_by_empty in Hx.
    rewrite all_chars_rev_app, andb_true_r in Hx.
    by apply lstrip_by_empty, all_chars_lstrip_by.
  - intros Hs%lstrip_by_empty. by rewrite Hs.
Qed.

Lemma nonempty_strip s : nonempty (strip s) = negb (all_chars isspace s).
Proof.
  pose proof (strip_empty s) as Hs.
  destruct (strip s) as [|c r] eqn:Es; simpl.
  - by rewrite (proj1 Hs).
  - destruct (all_chars isspace s); [|done]. discriminate (proj2 Hs eq_refl).
Qed.

Lemma normalize_filter tickers :
  PolygonClient.normalize tickers
  = map (fun t => upper (strip t))
        (List.filter (fun t => negb (all_chars isspace t)) tickers).
Proof.
  unfold PolygonClient.normalize. f_equal.
  apply filter_ext. intros t. apply nonempty_strip.
Qed.

Lemma normalize_nil tickers :
  PolygonClient.normalize tickers = [] <->
  Forall (fun t => all_chars isspace t = true) tickers.
Proof.
  rewrite normalize_filter. induction tickers as [|t rest IH]; simpl.
  - split; [constructor | done].
  - destruct (all_chars isspace t) eqn:Ht; simpl.
    + rewrite IH. split; [by constructor | by inversion 1].
    + split; [discriminate | inversion 1; congruence].
Qed.

(** C6, as amended. With a non-empty API key: the normalised list is
    empty exactly when every ticker is empty or whitespace only, and the
    fetcher then returns the empty sequence and leaves no event behind,
    so no request; normalisation trims and upper-cases the tickers that
    are not blank, in order, and ["AAPL"; "msft "] gives
    ["AAPL"; "MSFT"]. *)
Theorem fetch_blank_tickers_no_request
    (respond : nat -> result response) (schedule : list nat)
    (api_key : string) (tickers : list string) (include_otc : bool)
    (batch_size concurrency : Z) :
  nonempty api_key = true ->
  (PolygonClient.normalize tickers = [] <->
   Forall (fun t => all_chars isspace t = true) tickers) /\
  (PolygonClient.normalize tickers = [] ->
   PolygonClient.fetch_market_snapshots respond schedule api_key tickers
     include_otc batch_size concurrency = IO (Ok []) []) /\
  PolygonClient.normalize tickers
  = map (fun t => upper (strip t))
        (List.filter (fun t => negb (all_chars isspace t)) tickers) /\
  Forall (fun t => nonempty t = true /\ upper t = t)
         (PolygonClient.normalize tickers) /\
  PolygonClient.normalize ["AAPL"; "msft "] = ["AAPL"; "MSFT"].
Proof.
  intros Hkey. split; [apply normalize_nil|]. split; [|split; [|split]].
  - intros Hnil. unfold PolygonClient.fetch_market_snapshots.
    by rewrite Hkey, Hnil.
  - apply normalize_filter.
  - unfold PolygonClient.normalize. apply Forall_forall.
    intros t' Hin%list_elem_of_In. apply in_map_iff in Hin as (t & <- & Hin).
    apply filter_In in Hin as [_ Ht].
    by rewrite upper_nonempty, upper_idem.
  - reflexivity.
Qed.

Lemma fetch_blank_tickers_no_request_witness :
  PolygonClient.fetch_market_snapshots (fun _ => Raise TransportError) [0%nat]
    "key" [" "; ""] false 500 5 = IO (Ok []) [].
Proof.
  refine (proj1 (proj2 (fetch_blank_tickers_no_request (fun _ => Raise TransportError)
            [0%nat] "key" [" "; ""] false 500 5 _)) _); reflexivity.
Defined.

(** C6 as stated fails without an API key: the blank list is not
    looked at, the call raises [ValueError]. *)
Lemma fetch_blank_tickers_empty_key :
  PolygonClient.normalize [" "; ""] = [] /\
  PolygonClient.fetch_market_snapshots (fun _ => Raise TransportError) [0%nat]
    "" [" "; ""] false 500 5 = IO (Raise ValueError) [].
Proof. split; reflexivity. Qed.

(** ** The clamps *)

Lemma lift_ok_bind {A B : Type} (a : A) (f : A -> io B) : lift (Ok a) ≫= f = f a.
Proof. unfold mbind, io_bind, lift. simpl. by destruct (f a). Qed.

Lemma chunked_zero (items : list string) :
  PolygonClient._chunked items 0 = Raise ValueError.
Proof. reflexivity. Qed.

Lemma chunked_negative (items : list string) (b : Z) :
  b < 0 -> PolygonClient._chunked items b = Ok [].
Proof.
  intros Hb. unfold PolygonClient._chunked, range, range_length, len.
  assert ((b =? 0) = false) as -> by lia.
  assert ((0 <? b) = false) as -> by lia.
  assert ((Z.of_nat (length items) <? 0) = false) as -> by (apply Z.ltb_ge; lia).
  by rewrite andb_false_r.
Qed.

(** C9. Whatever the integers given as batch size, concurrency and
    pipeline size, the fetcher and the publisher use [max(1, value)]:
    the semaphore is created, both partitions are produced and lose
    nothing and hold no empty chunk, the fetcher's loop is not blocked
    at the gate (it runs every chunk task to its end unless it ends at a
    task that failed), and the publisher reaches its loop. Without the
    clamp a zero size raises, a negative size drops every item, and a
    negative concurrency raises. *)
Theorem clamped_sizes_total
    (batch_size concurrency : Z) (tickers : list string)
    (config : Config.AppConfig) (entries : list Service.TickerPL) :
  let chunk_size := Z.max 1 batch_size in
  let pipeline_size := Z.max 1 (Config.redis_pipeline_size config) in
  (1 <= chunk_size /\ 1 <= Z.max 1 concurrency /\ 1 <= pipeline_size) /\
  Semaphore (Z.max 1 concurrency) = Ok (Z.max 1 concurrency) /\
  (exists chunks,
     PolygonClient._chunked tickers chunk_size = Ok chunks /\
     concat chunks = tickers /\
     Forall (fun chunk => 1 <= len chunk <= chunk_size) chunks) /\
  (exists batches,
     RedisCache._chunked entries pipeline_size = Ok batches /\
     concat batches = entries /\
     Forall (fun batch => 1 <= len batch <= pipeline_size) batches) /\
  (forall respond schedule api_key include_otc,
     nonempty api_key = true -> PolygonClient.normalize tickers <> [] ->
     exists chunks,
       PolygonClient._chunked (PolygonClient.normalize tickers) chunk_size = Ok chunks /\
       let st := PolygonClient.event_loop api_key include_otc chunks respond
                   (Z.max 1 concurrency) schedule in
       PolygonClient.fetch_market_snapshots respond schedule api_key tickers
         include_otc batch_size concurrency
       = IO (PolygonClient.gather respond (PolygonClient.completed st) [])
            (PolygonClient.trace st) /\
       (PolygonClient.halted respond st = true \/
        PolygonClient.phases st = replicate (length chunks) PolygonClient.Finished)) /\
  (forall float_repr respond,
     RedisCache.is_set (Config.redis_url config) = true ->
     RedisCache.is_set (Config.redis_token config) = true ->
     entries <> [] ->
     exists batches endpoint headers,
       RedisCache._chunked entries pipeline_size = Ok batches /\
       RedisCache.push_daily_pl_to_redis float_repr respond config entries
       = (RedisCache.publish float_repr respond endpoint headers config batches 0
          ≫= fun _ => emit (Log "INFO" "redis_publish_complete"))) /\
  PolygonClient._chunked tickers 0 = Raise ValueError /\
  (forall b, b < 0 -> PolygonClient._chunked tickers b = Ok []) /\
  (forall c, c < 0 -> Semaphore c = Raise ValueError).
Proof.
  intros chunk_size pipeline_size.
  assert (1 <= chunk_size) as Hc by (unfold chunk_size; lia).
  assert (1 <= pipeline_size) as Hp by (unfold pipeline_size; lia).
  assert (Semaphore (Z.max 1 concurrency) = Ok (Z.max 1 concurrency)) as Hsem.
  { unfold Semaphore. by assert ((Z.max 1 concurrency <? 0) = false) as -> by lia. }
  repeat match goal with |- _ /\ _ => split end; try done; try lia.
  - exists (pieces tickers chunk_size).
    destruct (pieces_partition tickers chunk_size Hc) as (_ & Hall & Hcat).
    by rewrite polygon_chunked_pieces.
  - exists (pieces entries pipeline_size).
    destruct (pieces_partition entries pipeline_size Hp) as (_ & Hall & Hcat).
    by rewrite redis_chunked_pieces.
  - intros respond schedule api_key include_otc Hkey Hsome.
    exists (pieces (PolygonClient.normalize tickers) chunk_size).
    split; [by apply polygon_chunked_pieces|]. split.
    + unfold PolygonClient.fetch_market_snapshots. rewrite Hkey. cbn [negb].
      destruct (PolygonClient.normalize tickers) as [|t rest] eqn:Hn; [done|].
      rewrite Hsem, lift_ok_bind.
      fold chunk_size. rewrite polygon_chunked_pieces by done.
      by rewrite lift_ok_bind.
    + apply event_loop_ends. lia.
  - intros float_repr respond Hurl Htoken Hsome.
    exists (pieces entries pipeline_size). eexists _, _.
    split; [by apply redis_chunked_pieces|].
    unfold RedisCache.push_daily_pl_to_redis. rewrite Hurl, Htoken. cbn [negb orb].
    destruct entries as [|e rest]; [done|].
    fold pipeline_size. rewrite redis_chunked_pieces by done.
    by rewrite lift_ok_bind.
  - apply chunked_negative.
  - intros c Hneg. unfold Semaphore. by assert ((c <? 0) = true) as -> by lia.
Qed.

(** ** The cache publisher *)

Section Publish.
Import RedisCache.
Variable float_repr : spec_float -> string.
Variable respond : nat -> result response.
Variable config : Config.AppConfig.
Variables (endpoint : string) (headers : list (string * string)).

Local Abbreviation request_of batch :=
  (HttpPost endpoint headers (batch_commands float_repr config batch)).

Lemma emit_bind {B : Type} (e : event) (f : unit -> io B) :
  emit e ≫= f = IO (outcome (f tt)) (e :: events (f tt)).
Proof. reflexivity. Qed.

Lemma publish_cons batch rest i :
  publish float_repr respond endpoint headers config (batch :: rest) i
  = IO (match respond i with
        | Ok resp =>
            if 400 <=? status_code resp then Raise RedisCacheError
            else outcome (publish float_repr respond endpoint headers config rest (S i))
        | Raise x => Raise x
        end)
       (Log "INFO" "redis_pipeline_publish" :: request_of batch ::
        if accepted (respond i)
        then events (publish float_repr respond endpoint headers config rest (S i))
        else []).
Proof.
  cbn [publish]. rewrite !emit_bind. unfold accepted.
  destruct (respond i) as [resp|x]; [|reflexivity].
  rewrite lift_ok_bind.
  replace (status_code resp <? 400) with (negb (400 <=? status_code resp)) by lia.
  destruct (400 <=? status_code resp); reflexivity.
Qed.

Lemma publish_requests batches i :
  requests (events (publish float_repr respond endpoint headers config batches i))
  = map (fun batch => request_of batch) (take (issued respond i (length batches)) batches).
Proof.
  revert i. induction batches as [|batch rest IH]; intros i; [done|].
  rewrite publish_cons. cbn [events requests List.filter is_request length issued].
  destruct (accepted (respond i)); cbn [take map]; [|done].
  f_equal. apply IH.
Qed.

Lemma issued_all n i :
  (forall k, (k < n)%nat -> accepted (respond (i + k)%nat) = true) ->
  issued respond i n = n.
Proof.
  revert i. induction n as [|n IH]; intros i Hall; [done|].
  cbn [issued]. rewrite <- (Nat.add_0_r i) at 1. rewrite Hall by lia.
  f_equal. apply IH. intros k Hk.
  replace (S i + k)%nat with (i + S k)%nat by lia. apply Hall. lia.
Qed.

Lemma issued_bounds n i : (issued respond i n <= n)%nat /\ (0 < n -> 0 < issued respond i n)%nat.
Proof.
  revert i. induction n as [|n IH]; intros i; [cbn; lia|].
  cbn [issued]. destruct (accepted (respond i)); [|lia].
  destruct (IH (S i)). lia.
Qed.

Lemma publish_outcome_accepted batches i :
  (forall k, (k < length batches)%nat -> accepted (respond (i + k)%nat) = true) ->
  outcome (publish float_repr respond endpoint headers config batches i) = Ok tt.
Proof.
  revert i. induction batches as [|batch rest IH]; intros i Hall; [done|].
  rewrite publish_cons. cbn [outcome].
  pose proof (Hall 0%nat ltac:(simpl; lia)) as H0. rewrite Nat.add_0_r in H0.
  unfold accepted in H0. destruct (respond i) as [resp|]; [|discriminate].
  assert ((400 <=? status_code resp) = false) as -> by lia.
  apply IH. intros k Hk.
  replace (S i + k)%nat with (i + S k)%nat by lia. apply Hall. simpl. lia.
Qed.

End Publish.

Lemma requests_app (es1 es2 : list event) :
  requests (es1 ++ es2) = requests es1 ++ requests es2.
Proof. unfold requests. apply List.filter_app. Qed.

Lemma push_publish float_repr respond config entries :
  RedisCache.is_set (Config.redis_url config) = true ->
  RedisCache.is_set (Config.redis_token config) = true ->
  entries <> [] ->
  RedisCache.push_daily_pl_to_redis float_repr respond config entries
  = (RedisCache.publish float_repr respond
       (rstrip_by (fun c => code c =? 47) (default "" (Config.redis_url config))
        +:+ "/pipeline")
       [("Authorization", "Bearer " +:+ default "" (Config.redis_token config));
        ("Content-Type", "application/json")]
       config (pieces entries (Z.max 1 (Config.redis_pipeline_size config))) 0
     ≫= fun _ => emit (Log "INFO" "redis_publish_complete")).
Proof.
  intros Hurl Htoken Hsome.
  unfold RedisCache.push_daily_pl_to_redis. rewrite Hurl, Htoken. cbn [negb orb].
  destruct entries as [|e rest]; [done|].
  rewrite redis_chunked_pieces by lia. by rewrite lift_ok_bind.
Qed.




(** ** The cache after a publish *)

Section Cache.
Import RedisCache.
Variable float_repr : spec_float -> string.
Variable config : Config.AppConfig.
Implicit Types (db : gmap string slot) (writes : list (string * option slot)).

Lemma execute_set db key value :
  execute db ["SET"; key; value] = <[key := Slot value None]> db.
Proof. reflexivity. Qed.

Lemma execute_expire db key seconds :
  execute db ["EXPIRE"; key; seconds]
  = match seconds_arg seconds, db !! key with
    | Some n, Some (Slot value _) =>
        if 0 <? n then <[key := Slot value (Some n)]> db else delete key db
    | _, _ => db
    end.
Proof. reflexivity. Qed.

(** The commands of one entry overwrite what its key holds. *)
Lemma execute_commands_of db e :
  foldl execute db (commands_of float_repr config e)
  = partial_alter (fun _ => snd (write_of float_repr config e))
                  (fst (write_of float_repr config e)) db.
Proof.
  unfold commands_of, write_of. cbn [fst snd].
  set (key := Config.redis_key_prefix config +:+ ":" +:+ Service.ticker e).
  set (value := json_dumps float_repr (Service.to_dict e)).
  destruct (Config.redis_ttl_seconds config) as [ttl|]; cbn [foldl].
  - rewrite execute_set, execute_expire, lookup_insert_eq.
    destruct (seconds_arg (str_int ttl)) as [n|]; [|done].
    destruct (0 <? n).
    + by rewrite insert_insert_eq.
    + by rewrite delete_insert_eq.
  - by rewrite execute_set.
Qed.

Lemma execute_entries db entries :
  foldl execute db (flat_map (commands_of float_repr config) entries)
  = apply_writes db (map (write_of float_repr config) entries).
Proof.
  revert db. induction entries as [|e rest IH]; intros db; [done|].
  cbn [flat_map map]. rewrite foldl_app, execute_commands_of, IH. reflexivity.
Qed.

Lemma lookup_apply_writes db writes k :
  apply_writes db writes !! k = default (db !! k) (last_write writes k).
Proof.
  revert db. induction writes as [|[key o] rest IH]; intros db; [done|].
  unfold apply_writes in *. cbn [foldl last_write fst snd]. rewrite IH.
  destruct (last_write rest k) as [o'|]; [done|]. cbn [default].
  rewrite lookup_partial_alter. by destruct (decide (key = k)).
Qed.

(** Writing the same list twice leaves what writing it once leaves. *)
Lemma apply_writes_twice db writes :
  apply_writes (apply_writes db writes) writes = apply_writes db writes.
Proof.
  apply map_eq. intros k. rewrite !lookup_apply_writes.
  by destruct (last_write writes k).
Qed.

Lemma serve_app db es1 es2 : serve db (es1 ++ es2) = serve (serve db es1) es2.
Proof. unfold serve. apply foldl_app. Qed.

Lemma serve_publish db endpoint headers batches i :
  serve db (events (publish float_repr accepting endpoint headers config batches i))
  = foldl execute db (flat_map (commands_of float_repr config) (concat batches)).
Proof.
  revert db i. induction batches as [|batch rest IH]; intros db i; [done|].
  rewrite publish_cons. cbn [events accepted accepting status_code].
  change (200 <? 400) with true. cbn iota.
  change (serve db (?a :: ?b :: ?es)) with (serve (serve db [a; b]) es).
  rewrite IH. cbn [concat]. rewrite flat_map_app, foldl_app. reflexivity.
Qed.

Lemma serve_push db entries :
  serve db (events (push_daily_pl_to_redis float_repr accepting config entries))
  = if is_set (Config.redis_url config) && is_set (Config.redis_token config)
    then apply_writes db (map (write_of float_repr config) entries)
    else db.
Proof.
  destruct (is_set (Config.redis_url config)) eqn:Hurl;
    [destruct (is_set (Config.redis_token config)) eqn:Htoken|]; cbn [andb].
  - destruct entries as [|e rest] eqn:He.
    { unfold push_daily_pl_to_redis. by rewrite Hurl, Htoken. }
    rewrite <- He. assert (entries <> []) as Hne by (by rewrite He).
    rewrite push_publish, events_bind by done.
    assert (outcome (publish float_repr accepting
                       (rstrip_by (fun c => code c =? 47)
                          (default "" (Config.redis_url config)) +:+ "/pipeline")
                       [("Authorization", "Bearer " +:+ default "" (Config.redis_token config));
                        ("Content-Type", "application/json")]
                       config (pieces entries (Z.max 1 (Config.redis_pipeline_size config))) 0)
            = Ok tt) as ->.
    { by apply publish_outcome_accepted. }
    rewrite serve_app, serve_publish.
    destruct (pieces_partition entries (Z.max 1 (Config.redis_pipeline_size config))
                ltac:(lia)) as (_ & _ & ->).
    by rewrite execute_entries.
  - unfold push_daily_pl_to_redis. by rewrite Hurl, Htoken.
  - unfold push_daily_pl_to_redis. by rewrite Hurl.
Qed.

End Cache.


(** ** The zone of the run *)

Lemma collect_daily_pl_in_zone w config tz warnings :
  resolve_zone w config = IO (Ok tz) warnings ->
  collect_daily_pl w config
  = IO (outcome (collect_in_zone w config tz))
       (Log "INFO" "collect_daily_pl_start" :: warnings ++ events (collect_in_zone w config tz)).
Proof.
  intros Hz. unfold collect_daily_pl. rewrite emit_bind, Hz.
  unfold mbind at 1 2, io_bind. reflexivity.
Qed.

(** X22. On a system whose zone data hold America/New_York, for a
    zone name that is a well-formed key: when the data hold a zone under
    the name, the run uses that zone and logs no warning; when they hold
    no file under it, the run logs a warning, takes New York as its zone
    and goes on exactly as the rest of the run does in that zone, so
    every entry carries the date of the clock reading in New York. *)
Theorem zone_not_found_falls_back
    (w : world) (config : Config.AppConfig) (ny : tzinfo) :
  conforming (Config.pl_timezone config) = true ->
  tzdata w "America/New_York" = Some (Zone ny) ->
  (forall tz, tzdata w (Config.pl_timezone config) = Some (Zone tz) ->
   resolve_zone w config = IO (Ok tz) [] /\
   collect_daily_pl w config
   = IO (outcome (collect_in_zone w config tz))
        (Log "INFO" "collect_daily_pl_start" :: events (collect_in_zone w config tz))) /\
  (tzdata w (Config.pl_timezone config) = None ->
   ZoneInfo (tzdata w) (Config.pl_timezone config) = Raise ZoneInfoNotFoundError /\
   resolve_zone w config = IO (Ok ny) [Log "WARNING" "timezone_not_found"] /\
   collect_daily_pl w config
   = IO (outcome (collect_in_zone w config ny))
        (Log "INFO" "collect_daily_pl_start" :: Log "WARNING" "timezone_not_found" ::
         events (collect_in_zone w config ny)) /\
   (forall entries, outcome (collect_daily_pl w config) = Ok entries ->
    exists today,
      now_date ny (clock w) = Ok today /\
      Forall (fun e => date e = strftime_ymd today) entries)).
Proof.
  intros Hkey Hny.
  assert (ZoneInfo (tzdata w) "America/New_York" = Ok ny) as Hdefault.
  { unfold ZoneInfo. by rewrite Hny. }
  assert (forall tz, tzdata w (Config.pl_timezone config) = Some (Zone tz) ->
            resolve_zone w config = IO (Ok tz) []) as Hfound.
  { intros tz Htz. unfold resolve_zone, ZoneInfo. by rewrite Hkey, Htz. }
  assert (tzdata w (Config.pl_timezone config) = None ->
            resolve_zone w config = IO (Ok ny) [Log "WARNING" "timezone_not_found"]) as Hmiss.
  { intros Htz. unfold resolve_zone. unfold ZoneInfo at 1. rewrite Hkey, Htz.
    by rewrite emit_bind, Hdefault. }
  split.
  - intros tz Htz. split; [by apply Hfound|].
    exact (collect_daily_pl_in_zone w config tz _ (Hfound tz Htz)).
  - intros Htz. split; [unfold ZoneInfo; by rewrite Hkey, Htz|].
    split; [by apply Hmiss|].
    pose proof (collect_daily_pl_in_zone w config ny _ (Hmiss Htz)) as Hrun.
    split; [exact Hrun|].
    intros entries. rewrite Hrun. cbn [outcome].
    intros (today & snapshots & Hnow & Hall)%collect_in_zone_ok.
    exists today. split; [exact Hnow|].
    eapply Forall_impl; [exact (derive_all_entries _ _ _ Hall)|].
    by intros e (snap & _ & (Hdate & _)%derive_some).
Qed.

(** An unknown zone name on a system that knows New York: the warning,
    and the date of 2024-11-04 00:00 UTC in New York, the day before. *)
Lemma zone_not_found_falls_back_witness :
  resolve_zone (sample_world sample_zones) (sample_config "Mars/Phobos" 2)
  = IO (Ok new_york) [Log "WARNING" "timezone_not_found"] /\
  exists entries,
    outcome (collect_daily_pl (sample_world sample_zones) (sample_config "Mars/Phobos" 2))
    = Ok entries /\
    map date entries = ["2024-11-03"].
Proof.
  destruct (zone_not_found_falls_back (sample_world sample_zones)
              (sample_config "Mars/Phobos" 2) new_york eq_refl eq_refl)
    as (_ & Hfall).
  destruct (Hfall eq_refl) as (_ & Hz & _).
  split; [exact Hz|].
  eexists. split; vm_compute; reflexivity.
Defined.

(** C3. The run does fail over a zone name: the handler around
    [ZoneInfo] catches [ZoneInfoNotFoundError] only, and [ZoneInfo]
    raises [ValueError] on a name that is not a well-formed key (the
    empty name, an absolute path) and on a well-formed name under which
    the zone directory holds a file that is not a zone file
    ([zone.tab]). The [ValueError] is not caught: the run ends before
    any request, with no warning and no fallback to New York. (Where the
    system has no zone data at all the fallback raises in its turn.) *)
Theorem zone_name_fails_the_run :
  collect_daily_pl (sample_world sample_zones) (sample_config "" 2)
  = IO (Raise ValueError) [Log "INFO" "collect_daily_pl_start"] /\
  collect_daily_pl (sample_world sample_zones) (sample_config "/etc/localtime" 2)
  = IO (Raise ValueError) [Log "INFO" "collect_daily_pl_start"] /\
  collect_daily_pl (sample_world sample_zones) (sample_config "zone.tab" 2)
  = IO (Raise ValueError) [Log "INFO" "collect_daily_pl_start"] /\
  collect_daily_pl (sample_world no_zones) (sample_config "Mars/Phobos" 2)
  = IO (Raise ZoneInfoNotFoundError)
       [Log "INFO" "collect_daily_pl_start"; Log "WARNING" "timezone_not_found"].
Proof. repeat split; vm_compute; reflexivity. Qed.

(** ** Two further facts *)

(** The coercion is not total: an integer beyond the range of a double
    is a number that [float] refuses with [OverflowError], which
    [_to_float] does not catch, so the derivation of a record that holds
    one raises. *)
Theorem to_float_overflow :
  _to_float (JInt (10 ^ 400)) = Raise OverflowError /\
  derive "2024-11-04" (JDict [("ticker", JStr "AAPL"); ("todaysChange", JInt (10 ^ 400))])
  = Raise OverflowError /\
  derive_all "2024-11-04"
    [sample_snapshot; JDict [("ticker", JStr "X"); ("todaysChange", JInt (10 ^ 400))]] []
  = Raise OverflowError.
Proof. repeat split; vm_compute; reflexivity. Qed.

(** * Further properties *)

(** ** Ticker discovery *)

Section DiscoveryFacts.
Import Discovery.
Variable server : nat -> result response.
Variable api_key : string.

Lemma prefix_app_r needle rest : String.prefix needle (needle +:+ rest) = true.
Proof.
  induction needle as [|c needle IH]; simpl; [by destruct rest|].
  destruct (ascii_dec c c); [exact IH | done].
Qed.

Lemma contains_app needle text before :
  contains needle text = true -> contains needle (before +:+ text) = true.
Proof.
  intros H. induction before as [|c before IH]; [exact H|].
  change (String c before +:+ text) with (String c (before +:+ text)).
  cbn [contains]. rewrite IH. apply orb_true_r.
Qed.

Lemma contains_here needle rest : contains needle (needle +:+ rest) = true.
Proof.
  destruct (needle +:+ rest) eqn:E; cbn [contains]; rewrite <- E, prefix_app_r; done.
Qed.

Lemma goto_keyed cursor url :
  next_request api_key cursor = Goto url ->
  contains "apiKey=" url = true /\ nonempty url = true /\
  exists next_url,
    cursor = JStr next_url /\
    (url = next_url \/
     (contains "apiKey=" next_url = false /\ url = next_url +:+ "&apiKey=" +:+ api_key)).
Proof.
  unfold next_request. destruct (truthy cursor) eqn:Ht; [|discriminate]. cbn [negb].
  destruct cursor as [| | | |next_url| |]; try discriminate.
  destruct (contains "apiKey=" next_url) eqn:Hc; intros [= <-].
  - split; [done|]. split; [exact Ht|]. eauto.
  - split.
    + apply contains_app. change ("&apiKey=" +:+ api_key)
        with (String "&" ("apiKey=" +:+ api_key)).
      cbn [contains]. rewrite contains_here. apply orb_true_r.
    + split; [by destruct next_url|]. eauto.
Qed.

Lemma keyed_page_request url query :
  contains "apiKey=" url = true -> page_request api_key url query = HttpGet url [].
Proof.
  intros Hc. unfold page_request. rewrite Hc.
  destruct (String.eqb_spec url base_url) as [->|]; [|done].
  vm_compute in Hc. discriminate.
Qed.

Lemma pages_continues fuel i next_url query tickers es found url :
  continues server api_key i found url ->
  pages (S fuel) server api_key i next_url query tickers es
  = pages fuel server api_key (S i) url [] (tickers ++ found)
      (es ++ [Log "DEBUG" "ticker_fetch_page"; page_request api_key next_url query]
          ++ [Log "INFO" "ticker_page_fetched"]).
Proof.
  intros (resp & cursor & Hs & Hok & Hread & Hnext). cbn [pages].
  rewrite Hs. assert ((400 <=? status_code resp) = false) as -> by lia.
  rewrite Hread, Hnext. by rewrite <- app_assoc.
Qed.

Lemma result_bind_ok {A B : Type} (m : result A) (f : A -> result B) (b : B) :
  m ≫= f = Ok b -> exists a, m = Ok a /\ f a = Ok b.
Proof. destruct m as [a|]; [eauto | discriminate]. Qed.

Lemma page_tickers_upper items found :
  page_tickers items = Ok found ->
  Forall (fun t => nonempty t = true /\ upper t = t) found.
Proof.
  revert found. induction items as [|item rest IH]; intros found; cbn [page_tickers].
  - intros [= <-]. constructor.
  - intros (ticker & _ & (found' & Hrest & [= <-])%result_bind_ok)%result_bind_ok.
    specialize (IH found' Hrest).
    destruct ticker as [| | | |symbol| |]; try exact IH.
    destruct (nonempty symbol) eqn:Hs; [|exact IH].
    constructor; [|exact IH]. by rewrite upper_nonempty, upper_idem.
Qed.

Lemma read_page_upper resp found cursor :
  read_page resp = Ok (found, cursor) ->
  Forall (fun t => nonempty t = true /\ upper t = t) found.
Proof.
  unfold read_page.
  intros (payload & _ & (results & _ & (items & _ & (found' & Hp &
            (c & _ & [= <- _])%result_bind_ok)%result_bind_ok)%result_bind_ok
         )%result_bind_ok)%result_bind_ok.
  exact (page_tickers_upper _ _ Hp).
Qed.

Lemma pages_upper fuel i next_url query tickers es r found :
  Forall (fun t => nonempty t = true /\ upper t = t) tickers ->
  pages fuel server api_key i next_url query tickers es = Returned r ->
  outcome r = Ok found ->
  Forall (fun t => nonempty t = true /\ upper t = t) found.
Proof.
  revert i next_url query tickers es.
  induction fuel as [|fuel IH]; intros i next_url query tickers es Hall; [discriminate|].
  cbn [pages]. destruct (server i) as [resp|]; [|by intros [= <-]].
  destruct (400 <=? status_code resp); [by intros [= <-]|].
  destruct (read_page resp) as [[found' cursor]|] eqn:Hread; [|by intros [= <-]].
  assert (Forall (fun t => nonempty t = true /\ upper t = t) (tickers ++ found')) as Hall'.
  { apply Forall_app. split; [done|]. by eapply read_page_upper. }
  destruct (next_request api_key cursor) as [|url|e|].
  - intros [= <-]. cbn [outcome]. by intros [= <-].
  - by apply IH.
  - by intros [= <-].
  - discriminate.
Qed.

Lemma pages_more_fuel fuel fuel' i next_url query tickers es r :
  pages fuel server api_key i next_url query tickers es = Returned r ->
  (fuel <= fuel')%nat ->
  pages fuel' server api_key i next_url query tickers es = Returned r.
Proof.
  revert fuel' i next_url query tickers es.
  induction fuel as [|fuel IH]; intros fuel' i next_url query tickers es; [discriminate|].
  intros H Hle. destruct fuel' as [|fuel']; [lia|].
  cbn [pages] in *. destruct (server i) as [resp|]; [|done].
  destruct (400 <=? status_code resp); [done|].
  destruct (read_page resp) as [[found cursor]|]; [|done].
  destruct (next_request api_key cursor); try done.
  apply IH; [done | lia].
Qed.

(** A chain of [k] continuing pages from request [i] on is followed
    in [k] turns, with one request each. *)
Lemma pages_chain (found : nat -> list string) (url : nat -> string) k :
  forall (fuel i : nat) next_url query tickers es,
  (forall j, (j < k)%nat ->
     continues server api_key (i + j)%nat (found (i + j)%nat) (url (i + j)%nat)) ->
  exists next_url' query' es',
    pages (k + fuel)%nat server api_key i next_url query tickers es
    = pages fuel server api_key (i + k)%nat next_url' query'
        (tickers ++ concat (map found (seq i k))) es' /\
    length (requests es') = (length (requests es) + k)%nat.
Proof.
  induction k as [|k IH]; intros fuel i next_url query tickers es Hgood.
  - exists next_url, query, es. cbn. by rewrite Nat.add_0_r, app_nil_r, Nat.add_0_r.
  - pose proof (Hgood 0%nat ltac:(lia)) as H0. rewrite Nat.add_0_r in H0.
    cbn [Nat.add]. rewrite (pages_continues _ _ _ _ _ _ _ _ H0).
    destruct (IH fuel (S i) (url i) [] (tickers ++ found i)
                (es ++ [Log "DEBUG" "ticker_fetch_page"; page_request api_key next_url query]
                    ++ [Log "INFO" "ticker_page_fetched"]))
      as (next' & query' & es' & Heq & Hlen).
    { intros j Hj. replace (S i + j)%nat with (i + S j)%nat by lia. apply Hgood. lia. }
    exists next', query', es'. split.
    + rewrite Heq. replace (S i + k)%nat with (i + S k)%nat by lia.
      cbn [seq map concat]. by rewrite <- app_assoc.
    + rewrite Hlen, !requests_app, !length_app.
      assert (length (requests [Log "DEBUG" "ticker_fetch_page";
                                page_request api_key next_url query]) = 1%nat) as ->.
      { unfold page_request. destruct (next_url =? base_url)%string; [done|].
        by destruct (contains "apiKey=" next_url). }
      cbn [requests List.filter is_request length]. lia.
Qed.

End DiscoveryFacts.

Lemma goto_with_key api_key cursor url :
  Discovery.next_request api_key cursor = Discovery.Goto url ->
  exists next_url,
    cursor = JStr next_url /\ nonempty next_url = true /\
    url = with_key api_key next_url /\ Discovery.contains "apiKey=" url = true.
Proof.
  intros Hgo. destruct (goto_keyed api_key cursor url Hgo) as (Hc & _ & _).
  revert Hgo. unfold Discovery.next_request.
  destruct (truthy cursor) eqn:Ht; [|discriminate]. cbn [negb].
  destruct cursor as [| | | |next_url| |]; try discriminate.
  intros [= <-]. exists next_url. split; [done|]. split; [exact Ht|]. by split.
Qed.

(** One turn of the loop: its request, and the page it goes on to
    when the answer names one. *)
Lemma pages_turn server api_key fuel i next_url query tickers es :
  requests (paged_events
              (Discovery.pages (S fuel) server api_key i next_url query tickers es))
  = requests es ++ [Discovery.page_request api_key next_url query] \/
  exists cursor found es',
    names_next server i cursor /\
    requests es' = requests es ++ [Discovery.page_request api_key next_url query] /\
    Discovery.contains "apiKey=" (with_key api_key cursor) = true /\
    Discovery.pages (S fuel) server api_key i next_url query tickers es
    = Discovery.pages fuel server api_key (S i) (with_key api_key cursor) []
        (tickers ++ found) es'.
Proof.
  assert (requests [Log "DEBUG" "ticker_fetch_page";
                    Discovery.page_request api_key next_url query]
          = [Discovery.page_request api_key next_url query]) as Hone.
  { unfold Discovery.page_request.
    destruct (next_url =? Discovery.base_url)%string; [done|].
    by destruct (Discovery.contains "apiKey=" next_url). }
  assert (forall tail, requests tail = [] ->
            requests ((es ++ [Log "DEBUG" "ticker_fetch_page";
                              Discovery.page_request api_key next_url query]) ++ tail)
            = requests es ++ [Discovery.page_request api_key next_url query]) as Hreq.
  { intros tail Htail. rewrite !requests_app, Htail, Hone. by rewrite app_nil_r. }
  assert (requests (es ++ [Log "DEBUG" "ticker_fetch_page";
                           Discovery.page_request api_key next_url query])
          = requests es ++ [Discovery.page_request api_key next_url query]) as Hreq0.
  { rewrite <- (app_nil_r (es ++ _)). by apply Hreq. }
  cbn [Discovery.pages].
  destruct (server i) as [resp|] eqn:Hs; [|by left].
  destruct (400 <=? status_code resp) eqn:Hstatus; [by left|].
  destruct (Discovery.read_page resp) as [[found cursor]|] eqn:Hread; [|by left].
  destruct (Discovery.next_request api_key cursor) as [|url|e|] eqn:Hnext;
    cbn [paged_events events].
  - left. rewrite <- app_assoc. by apply Hreq.
  - right. apply goto_with_key in Hnext as (c & -> & Hc & -> & Hkeyed).
    exists c, found, ((es ++ [Log "DEBUG" "ticker_fetch_page";
                              Discovery.page_request api_key next_url query])
                      ++ [Log "INFO" "ticker_page_fetched"]).
    split; [|split; [by apply Hreq | by split]].
    split; [done|]. exists resp, found. split; [done|]. split; [lia | done].
  - left. by apply Hreq.
  - left. by apply Hreq.
Qed.

(** The requests of the loop: the first one, then one per cursor the
    pages name, for as long as the loop is followed. *)
Lemma pages_cursors server api_key fuel :
  forall i next_url query tickers es,
  exists cursors,
    requests (paged_events
                (Discovery.pages (S fuel) server api_key i next_url query tickers es))
    = requests es ++ Discovery.page_request api_key next_url query
        :: map (fun cursor => HttpGet (with_key api_key cursor) []) cursors /\
    (forall k cursor, cursors !! k = Some cursor ->
                      names_next server (i + k) cursor).
Proof.
  induction fuel as [|fuel IH]; intros i next_url query tickers es.
  - destruct (pages_turn server api_key 0 i next_url query tickers es)
      as [Hstop|(c & found & es' & Hc & Hes & Hkeyed & Hgo)].
    + exists []. split; [done | intros k c Hk; by rewrite lookup_nil in Hk].
    + exists []. rewrite Hgo. cbn [Discovery.pages paged_events map].
      split; [done | intros k c' Hk; by rewrite lookup_nil in Hk].
  - destruct (pages_turn server api_key (S fuel) i next_url query tickers es)
      as [Hstop|(c & found & es' & Hc & Hes & Hkeyed & Hgo)].
    + exists []. split; [done | intros k c Hk; by rewrite lookup_nil in Hk].
    + destruct (IH (S i) (with_key api_key c) [] (tickers ++ found) es')
        as (cursors & Hreq & Hnames).
      exists (c :: cursors). rewrite Hgo, Hreq, Hes.
      rewrite (keyed_page_request api_key _ [] Hkeyed). cbn [map].
      split; [by rewrite <- app_assoc|].
      intros [|k] c'; cbn.
      * intros [= <-]. by rewrite Nat.add_0_r.
      * intros Hk. rewrite Nat.add_succ_r. by apply (Hnames k).
Qed.

(** X3. Whatever the reference server answers, every ticker that
    discovery returns is a non-empty string in upper case. *)
Theorem discovery_tickers_upper
    (fuel : nat) (server : nat -> result response) (api_key : string)
    (per_page_limit : Z) (active_only : bool) (r : io (list string))
    (tickers : list string) :
  Discovery.fetch_all_active_stock_tickers fuel server api_key per_page_limit active_only
  = Discovery.Returned r ->
  outcome r = Ok tickers ->
  Forall (fun t => nonempty t = true /\ upper t = t /\ uppercase t = true) tickers.
Proof.
  unfold Discovery.fetch_all_active_stock_tickers.
  destruct (negb (nonempty api_key)); [by intros [= <-]|].
  intros Hrun Hok.
  eapply Forall_impl; [exact (pages_upper _ _ _ _ _ _ _ _ _ _ (Forall_nil_2 _) Hrun Hok)|].
  intros t [Hn Hu]. split; [done|]. split; [done|]. rewrite <- Hu. apply upper_uppercase.
Qed.

Lemma discovery_tickers_upper_witness :
  exists r,
    Discovery.fetch_all_active_stock_tickers 3 sample_pages "key" 1000 true
    = Discovery.Returned r /\
    outcome r = Ok ["AAPL"; "MSFT"] /\
    Forall (fun t => nonempty t = true /\ upper t = t /\ uppercase t = true)
           ["AAPL"; "MSFT"].
Proof.
  eexists. split; [vm_compute; reflexivity|]. split; [reflexivity|].
  eapply (discovery_tickers_upper 3 sample_pages "key" 1000 true);
    [vm_compute; reflexivity | reflexivity].
Defined.

(** X4. Discovery without an API key raises [ValueError] before any
    request. With a key, the first request is the GET of the reference
    URL with the query that holds the key, and every later request is a
    GET, with no query, of the URL that the page answering the request
    before it names as next: that URL as the server sent it when the
    text [apiKey=] occurs in it (wherever, and whatever follows it), and
    with [&apiKey=key] appended when it does not. (The third branch of
    the loop, which would pass the key as a query, is never taken.) *)
Theorem discovery_requests_follow_cursors
    (fuel : nat) (server : nat -> result response) (api_key : string)
    (per_page_limit : Z) (active_only : bool) :
  let run := Discovery.fetch_all_active_stock_tickers (S fuel) server api_key
               per_page_limit active_only in
  (nonempty api_key = false -> run = Discovery.Returned (IO (Raise ValueError) [])) /\
  (nonempty api_key = true ->
   exists cursors,
     requests (paged_events run)
     = HttpGet Discovery.base_url (Discovery.params api_key per_page_limit active_only)
       :: map (fun cursor => HttpGet (with_key api_key cursor) []) cursors /\
     In ("apiKey", api_key) (Discovery.params api_key per_page_limit active_only) /\
     (forall k cursor, cursors !! k = Some cursor -> names_next server k cursor) /\
     (forall cursor,
        with_key api_key cursor = cursor \/
        (Discovery.contains "apiKey=" cursor = false /\
         with_key api_key cursor = cursor +:+ "&apiKey=" +:+ api_key))).
Proof.
  intros run. unfold run, Discovery.fetch_all_active_stock_tickers. split.
  - by intros ->.
  - intros ->. cbn [negb].
    destruct (pages_cursors server api_key fuel 0 Discovery.base_url
                (Discovery.params api_key per_page_limit active_only) [] [])
      as (cursors & Hreq & Hnames).
    exists cursors. split; [exact Hreq|]. split; [|split; [exact Hnames|]].
    + unfold Discovery.params. simpl. tauto.
    + intros cursor. unfold with_key.
      destruct (Discovery.contains "apiKey=" cursor); [by left | by right].
Qed.

Lemma discovery_requests_follow_cursors_witness :
  exists cursors,
    requests (paged_events
                (Discovery.fetch_all_active_stock_tickers 3 sample_pages "key" 1000 true))
    = HttpGet Discovery.base_url (Discovery.params "key" 1000 true)
      :: map (fun cursor => HttpGet (with_key "key" cursor) []) cursors /\
    cursors = ["https://api.polygon.io/v3/reference/tickers?cursor=abc"] /\
    map (with_key "key") cursors
    = ["https://api.polygon.io/v3/reference/tickers?cursor=abc&apiKey=key"].
Proof.
  destruct (discovery_requests_follow_cursors 2 sample_pages "key" 1000 true) as [_ H].
  destruct (H eq_refl) as (cursors & Hreq & _ & Hnames & _).
  exists cursors. split; [exact Hreq|].
  assert (cursors = ["https://api.polygon.io/v3/reference/tickers?cursor=abc"]) as ->;
    [|by split].
  destruct cursors as [|c [|c' rest]].
  - vm_compute in Hreq. discriminate.
  - destruct (Hnames 0%nat c eq_refl) as (_ & resp & found & Hs & _ & Hread).
    vm_compute in Hs. injection Hs as <-. vm_compute in Hread.
    injection Hread as _ Hc. by rewrite Hc.
  - vm_compute in Hreq. discriminate.
Defined.

(** X5. When the first [k] requests are answered with readable pages
    that name a next page, and request [k] with a readable page that
    names none, discovery returns after [k + 1] requests, with the
    tickers of the pages in page order; the turns it is followed for do
    not matter once they exceed [k]. *)
Theorem discovery_returns_all_pages
    (fuel : nat) (server : nat -> result response) (api_key : string)
    (per_page_limit : Z) (active_only : bool)
    (k : nat) (found : nat -> list string) (url : nat -> string) :
  nonempty api_key = true ->
  (forall i, (i < k)%nat -> continues server api_key i (found i) (url i)) ->
  ends server api_key k (found k) ->
  (k < fuel)%nat ->
  exists es,
    Discovery.fetch_all_active_stock_tickers fuel server api_key per_page_limit active_only
    = Discovery.Returned (IO (Ok (concat (map found (seq 0 (S k))))) es) /\
    length (requests es) = S k.
Proof.
  intros Hkey Hgood (resp & cursor & Hs & Hok & Hread & Hnext) Hfuel.
  unfold Discovery.fetch_all_active_stock_tickers. rewrite Hkey. cbn [negb].
  replace fuel with (k + S (fuel - S k))%nat by lia.
  destruct (pages_chain server api_key found url k (S (fuel - S k)) 0 Discovery.base_url
              (Discovery.params api_key per_page_limit active_only) [] [])
    as (next' & query' & es' & Heq & Hlen).
  { intros j Hj. by apply Hgood. }
  rewrite Heq. cbn [Discovery.pages Nat.add]. rewrite Hs.
  assert ((400 <=? status_code resp) = false) as -> by lia.
  rewrite Hread, Hnext. eexists. split.
  - rewrite seq_S, map_app, concat_app. cbn. by rewrite app_nil_r.
  - rewrite !requests_app, !length_app, Hlen.
    assert (length (requests [Log "DEBUG" "ticker_fetch_page";
                              Discovery.page_request api_key next' query']) = 1%nat) as ->.
    { unfold Discovery.page_request.
      destruct (next' =? Discovery.base_url)%string; [done|].
      by destruct (Discovery.contains "apiKey=" next'). }
    cbn [requests List.filter is_request length]. lia.
Qed.

Lemma discovery_returns_all_pages_witness :
  exists es,
    Discovery.fetch_all_active_stock_tickers 7 sample_pages "key" 1000 true
    = Discovery.Returned (IO (Ok ["AAPL"; "MSFT"]) es) /\
    length (requests es) = 2%nat.
Proof.
  refine (discovery_returns_all_pages 7 sample_pages "key" 1000 true 1
            (fun i => match i with O => ["AAPL"] | _ => ["MSFT"] end)
            (fun _ => "https://api.polygon.io/v3/reference/tickers?cursor=abc&apiKey=key")
            eq_refl _ _ _).
  - intros i Hi. assert (i = 0%nat) as -> by lia.
    eexists _, _. split; [reflexivity|]. split; [simpl; lia|]. split; reflexivity.
  - eexists _, _. split; [reflexivity|]. split; [simpl; lia|]. split; reflexivity.
  - lia.
Defined.

(** X6. When the first [k] requests are answered with readable pages
    that name a next page and request [k] fails (the transport raises,
    the status is 400 or more, or the page cannot be read), discovery
    raises that failure after [k + 1] requests: the tickers of the pages
    read so far are not returned. *)
Theorem discovery_aborts_on_failed_page
    (fuel : nat) (server : nat -> result response) (api_key : string)
    (per_page_limit : Z) (active_only : bool)
    (k : nat) (found : nat -> list string) (url : nat -> string) (e : exn) :
  nonempty api_key = true ->
  (forall i, (i < k)%nat -> continues server api_key i (found i) (url i)) ->
  fails server k e ->
  (k < fuel)%nat ->
  exists es,
    Discovery.fetch_all_active_stock_tickers fuel server api_key per_page_limit active_only
    = Discovery.Returned (IO (Raise e) es) /\
    length (requests es) = S k.
Proof.
  intros Hkey Hgood Hfail Hfuel.
  unfold Discovery.fetch_all_active_stock_tickers. rewrite Hkey. cbn [negb].
  replace fuel with (k + S (fuel - S k))%nat by lia.
  destruct (pages_chain server api_key found url k (S (fuel - S k)) 0 Discovery.base_url
              (Discovery.params api_key per_page_limit active_only) [] [])
    as (next' & query' & es' & Heq & Hlen).
  { intros j Hj. by apply Hgood. }
  rewrite Heq. cbn [Discovery.pages Nat.add].
  assert (length (requests (es' ++ [Log "DEBUG" "ticker_fetch_page";
                                    Discovery.page_request api_key next' query'])) = S k)
    as Hcount.
  { rewrite requests_app, length_app, Hlen.
    assert (length (requests [Log "DEBUG" "ticker_fetch_page";
                              Discovery.page_request api_key next' query']) = 1%nat) as ->.
    { unfold Discovery.page_request.
      destruct (next' =? Discovery.base_url)%string; [done|].
      by destruct (Discovery.contains "apiKey=" next'). }
    cbn [requests List.filter is_request length]. lia. }
  destruct Hfail as [Hs|[(resp & Hs & Hbad & ->)|(resp & Hs & Hok & Hread)]]; rewrite Hs.
  - eauto.
  - assert ((400 <=? status_code resp) = true) as -> by lia. eauto.
  - assert ((400 <=? status_code resp) = false) as -> by lia. rewrite Hread. eauto.
Qed.

Lemma discovery_aborts_on_failed_page_witness :
  exists es,
    Discovery.fetch_all_active_stock_tickers 7 failing_pages "key" 1000 true
    = Discovery.Returned (IO (Raise PolygonApiError) es) /\
    length (requests es) = 2%nat.
Proof.
  refine (discovery_aborts_on_failed_page 7 failing_pages "key" 1000 true 1
            (fun _ => ["AAPL"])
            (fun _ => "https://api.polygon.io/v3/reference/tickers?cursor=abc&apiKey=key")
            PolygonApiError eq_refl _ _ _).
  - intros i Hi. assert (i = 0%nat) as -> by lia.
    eexists _, _. split; [reflexivity|]. split; [simpl; lia|]. split; reflexivity.
  - right. left. eexists. split; [reflexivity|]. split; [simpl; lia | reflexivity].
  - lia.
Defined.

(** X7. The loop has no page cap: against a server that answers every
    request with a readable page naming a next page, discovery is still
    looping after any number of turns, one request per turn. *)
Theorem discovery_has_no_page_cap
    (fuel : nat) (server : nat -> result response) (api_key : string)
    (per_page_limit : Z) (active_only : bool)
    (found : nat -> list string) (url : nat -> string) :
  nonempty api_key = true ->
  (forall i, continues server api_key i (found i) (url i)) ->
  exists es,
    Discovery.fetch_all_active_stock_tickers fuel server api_key per_page_limit active_only
    = Discovery.Looping es /\
    length (requests es) = fuel.
Proof.
  intros Hkey Hgood.
  unfold Discovery.fetch_all_active_stock_tickers. rewrite Hkey. cbn [negb].
  destruct (pages_chain server api_key found url fuel 0 0 Discovery.base_url
              (Discovery.params api_key per_page_limit active_only) [] [])
    as (next' & query' & es' & Heq & Hlen).
  { intros j _. apply Hgood. }
  rewrite Nat.add_0_r in Heq. rewrite Heq. cbn [Discovery.pages].
  exists es'. split; [done|]. by rewrite Hlen.
Qed.

Lemma discovery_has_no_page_cap_witness :
  exists es,
    Discovery.fetch_all_active_stock_tickers 50 endless_pages "key" 1000 true
    = Discovery.Looping es /\
    length (requests es) = 50%nat.
Proof.
  refine (discovery_has_no_page_cap 50 endless_pages "key" 1000 true
            (fun _ => ["A"])
            (fun _ => "https://api.polygon.io/v3/reference/tickers?cursor=again&apiKey=key")
            eq_refl _).
  intros i. eexists _, _. split; [reflexivity|]. split; [simpl; lia|].
  split; reflexivity.
Defined.

(** ** The snapshot fetcher: requests and results *)

Section FetchFacts.
Import PolygonClient.
Variables (api_key : string) (include_otc : bool).
Variable chunks : list (list string).
Variable respond : nat -> result response.

Local Abbreviation step' := (PolygonClient.step api_key include_otc chunks respond).
Local Abbreviation run' := (PolygonClient.run api_key include_otc chunks respond).
Local Abbreviation accounted' := (accounted api_key include_otc chunks).

Lemma phase_insert_lookup (l : list phase) (i j : nat) (q : phase) :
  (i < length l)%nat ->
  <[i := q]> l !! j = if decide (j = i) then Some q else l !! j.
Proof.
  intros Hi. destruct (decide (j = i)) as [->|Hne].
  - by apply list_lookup_insert_eq.
  - by rewrite list_lookup_insert_ne.
Qed.

Lemma requests_snoc_log es level msg : requests (es ++ [Log level msg]) = requests es.
Proof. rewrite requests_app. apply app_nil_r. Qed.

Lemma requests_snoc_get es chunk :
  requests (es ++ [snapshot_request api_key include_otc chunk])
  = requests es ++ [snapshot_request api_key include_otc chunk].
Proof. by rewrite requests_app. Qed.

(** A task waits: nothing is issued, nothing completes. *)
Lemma accounted_waits st i entered es :
  accounted' st entered ->
  (phases st !! i = Some Created \/ phases st !! i = Some Waiting) ->
  requests es = requests (trace st) ->
  accounted' (LoopState (permits st) (<[i := Waiting]> (phases st)) (completed st) es)
             entered.
Proof.
  intros (Hlen & Hnd & Hin & Hreq & Hndc & Hdone) Hp Hes.
  assert (i < length (phases st))%nat as Hi.
  { destruct Hp as [Hp|Hp]; by eapply lookup_lt_Some. }
  unfold accounted; cbn [phases trace completed].
  repeat match goal with |- _ /\ _ => split end; try done.
  - by rewrite length_insert.
  - intros j. rewrite Hin, phase_insert_lookup by done.
    destruct (decide (j = i)) as [->|]; [|done]. intuition congruence.
  - by rewrite Hes.
  - intros j. rewrite Hdone, phase_insert_lookup by done.
    destruct (decide (j = i)) as [->|]; [|done]. intuition congruence.
Qed.

(** A task enters the gate: its request is the next one issued. *)
Lemma accounted_enters st i chunk entered :
  accounted' st entered ->
  (phases st !! i = Some Created \/ phases st !! i = Some Waiting) ->
  chunks !! i = Some chunk ->
  accounted' (enter_gate api_key include_otc i chunk st) (entered ++ [i]).
Proof.
  intros (Hlen & Hnd & Hin & Hreq & Hndc & Hdone) Hp Hc.
  assert (i < length (phases st))%nat as Hi.
  { destruct Hp as [Hp|Hp]; by eapply lookup_lt_Some. }
  assert (i ∉ entered) as Hnew by (rewrite Hin; intuition congruence).
  unfold accounted, enter_gate; cbn [phases trace completed].
  repeat match goal with |- _ /\ _ => split end; try done.
  - by rewrite length_insert.
  - apply NoDup_app. split; [done|]. split; [|apply NoDup_singleton].
    intros j Hj ->%list_elem_of_singleton. done.
  - intros j. rewrite elem_of_app, list_elem_of_singleton, Hin, phase_insert_lookup by done.
    destruct (decide (j = i)) as [->|]; intuition congruence.
  - rewrite requests_snoc_get, Hreq, map_app. cbn [map]. by rewrite Hc.
  - intros j. rewrite Hdone, phase_insert_lookup by done.
    destruct (decide (j = i)) as [->|]; [|done]. intuition congruence.
Qed.

(** A request is answered: its task is the next one completed. *)
Lemma accounted_leaves st i entered :
  accounted' st entered ->
  phases st !! i = Some InFlight ->
  accounted' (leave_gate respond i st) entered.
Proof.
  intros (Hlen & Hnd & Hin & Hreq & Hndc & Hdone) Hp.
  assert (i < length (phases st))%nat as Hi by (by eapply lookup_lt_Some).
  assert (i ∉ completed st) as Hnew by (rewrite Hdone, Hp; congruence).
  unfold accounted, leave_gate; cbn [phases trace completed].
  repeat match goal with |- _ /\ _ => split end; try done.
  - by rewrite length_insert.
  - intros j. rewrite Hin, phase_insert_lookup by done.
    destruct (decide (j = i)) as [->|]; [|done]. intuition congruence.
  - rewrite requests_app, Hreq.
    destruct (fetch_chunk_result (respond i)); apply app_nil_r.
  - apply NoDup_app. split; [done|]. split; [|apply NoDup_singleton].
    intros j Hj ->%list_elem_of_singleton. done.
  - intros j. rewrite elem_of_app, list_elem_of_singleton, Hdone, phase_insert_lookup by done.
    destruct (decide (j = i)) as [->|]; intuition congruence.
Qed.

Lemma step_accounted st i entered :
  accounted' st entered -> exists entered', accounted' (step' st i) entered'.
Proof.
  intros Hacc. unfold PolygonClient.step.
  destruct (phases st !! i) as [p|] eqn:Hp; [|by exists entered].
  destruct (chunks !! i) as [chunk|] eqn:Hc; [|destruct p; by exists entered].
  destruct p.
  - assert (accounted'
              (LoopState (permits st) (<[i := Waiting]> (phases st)) (completed st)
                 (trace st ++ [Log "INFO" "snapshot_request"])) entered) as Hw.
    { apply accounted_waits; [done | by left | apply requests_snoc_log]. }
    destruct (0 <? permits st); [|by exists entered].
    exists (entered ++ [i]). apply accounted_enters; [done| |done].
    right. cbn [phases]. apply list_lookup_insert_eq. by eapply lookup_lt_Some.
  - destruct (0 <? permits st); [|by exists entered].
    exists (entered ++ [i]). apply accounted_enters; [done | by right | done].
  - exists entered. by apply accounted_leaves.
  - by exists entered.
Qed.

Lemma run_accounted schedule st entered :
  accounted' st entered -> exists entered', accounted' (run' st schedule) entered'.
Proof.
  revert st entered. induction schedule as [|i rest IH]; intros st entered Hacc.
  - by exists entered.
  - destruct (step_accounted st i entered Hacc) as [entered' Hacc'].
    exact (IH _ _ Hacc').
Qed.

Lemma initial_accounted value : accounted' (initial chunks value) [].
Proof.
  unfold accounted, initial; cbn [phases trace completed].
  repeat match goal with |- _ /\ _ => split end;
    try done; try apply NoDup_nil_2; try apply length_replicate.
  - intros i. split; [by intros ?%elem_of_nil|].
    intros [H|H]; apply lookup_replicate in H as [? _]; discriminate.
  - intros i. split; [by intros ?%elem_of_nil|].
    intros H. apply lookup_replicate in H as [? _]; discriminate.
Qed.

Lemma all_tasks (l : list nat) (n : nat) :
  NoDup l -> (forall i, i ∈ l <-> (i < n)%nat) -> l ≡ₚ seq 0 n.
Proof.
  intros Hnd Hin. apply NoDup_Permutation; [done | apply NoDup_seq|].
  intros i. rewrite Hin, elem_of_seq. lia.
Qed.

Lemma map_lookup_seq {A B : Type} (f : A -> B) (d : A) (pre l : list A) :
  map (fun i => f (default d ((pre ++ l) !! i))) (seq (length pre) (length l))
  = map f l.
Proof.
  revert pre. induction l as [|x l IH]; intros pre; [done|].
  cbn [length seq map]. rewrite list_lookup_middle by done. cbn [default]. f_equal.
  specialize (IH (pre ++ [x])). rewrite length_app, Nat.add_1_r in IH.
  by rewrite <- app_assoc in IH.
Qed.

Lemma finished_lookup (n i : nat) :
  replicate n Finished !! i = Some Finished <-> (i < n)%nat.
Proof. rewrite lookup_replicate. tauto. Qed.

Lemma event_loop_accounted value schedule :
  exists entered,
    accounted' (event_loop api_key include_otc chunks respond value schedule) entered.
Proof.
  destruct (event_loop_reached api_key include_otc chunks respond value schedule)
    as [resumed ->].
  exact (run_accounted resumed _ _ (initial_accounted value)).
Qed.

Lemma completed_in_range st entered i :
  accounted' st entered -> i ∈ completed st -> (i < length chunks)%nat.
Proof.
  intros (Hlen & _ & _ & _ & _ & Hdone) Hi. apply Hdone in Hi.
  rewrite <- Hlen. by eapply lookup_lt_Some.
Qed.

(** A halted loop holds a finished task whose data cannot be
    gathered. *)
Lemma halted_raises st :
  halted respond st = true ->
  exists i e, i ∈ completed st /\ chunk_items respond i = Raise e.
Proof.
  unfold halted. intros (i & Hi & Hf)%existsb_exists. exists i.
  unfold chunk_items. destruct (fetch_chunk_result (respond i)) as [|e]; [done|].
  exists e. split; [by apply list_elem_of_In | done].
Qed.

(** With every task finished, every chunk has been requested once and
    every task has completed once. *)
Lemma finished_books st entered :
  accounted' st entered ->
  phases st = replicate (length chunks) Finished ->
  requests (trace st) ≡ₚ map (snapshot_request api_key include_otc) chunks /\
  completed st ≡ₚ seq 0 (length chunks).
Proof.
  intros (Hlen & Hnd & Hin & Hreq & Hndc & Hdone) Hfin.
  rewrite Hfin in Hin, Hdone.
  split.
  - rewrite Hreq, <- (map_lookup_seq (snapshot_request api_key include_otc) [] [] chunks).
    apply Permutation_map, all_tasks; [done|].
    intros i. rewrite Hin, finished_lookup.
    split; [intros [H|H]; [apply lookup_replicate in H as [? _]; discriminate | done]
           | by right].
  - apply all_tasks; [done|]. intros i. by rewrite Hdone, finished_lookup.
Qed.

(** When every chunk is answered well the loop ends with every task
    finished. *)
Lemma event_loop_finishes value schedule :
  1 <= value ->
  (forall i, (i < length chunks)%nat -> exists items, chunk_items respond i = Ok items) ->
  phases (event_loop api_key include_otc chunks respond value schedule)
  = replicate (length chunks) Finished.
Proof.
  intros Hv Hgood.
  destruct (event_loop_accounted value schedule) as [entered Hacc].
  destruct (event_loop_ends api_key include_otc chunks respond value schedule Hv)
    as [Hhalt|Hfin]; [|done].
  exfalso. apply halted_raises in Hhalt as (i & e & Hi & He).
  destruct (Hgood i) as [items Hitems]; [by eapply completed_in_range|]. congruence.
Qed.

Lemma event_loop_books value schedule :
  1 <= value ->
  (forall i, (i < length chunks)%nat -> exists items, chunk_items respond i = Ok items) ->
  let st := event_loop api_key include_otc chunks respond value schedule in
  requests (trace st) ≡ₚ map (snapshot_request api_key include_otc) chunks /\
  completed st ≡ₚ seq 0 (length chunks).
Proof.
  intros Hv Hgood st.
  destruct (event_loop_accounted value schedule) as [entered Hacc].
  apply (finished_books _ entered Hacc). by apply event_loop_finishes.
Qed.

Lemma gather_cons i rest results :
  gather respond (i :: rest) results
  = match chunk_items respond i with
    | Ok items => gather respond rest (results ++ items)
    | Raise e => Raise e
    end.
Proof.
  unfold chunk_items. cbn [gather].
  by destruct (fetch_chunk_result (respond i)) as [data|]; [destruct (iter data)|].
Qed.

Lemma gather_all (data : nat -> list json) order results :
  (forall i, i ∈ order -> chunk_items respond i = Ok (data i)) ->
  gather respond order results = Ok (results ++ concat (map data order)).
Proof.
  revert results. induction order as [|i rest IH]; intros results Hall.
  - by rewrite app_nil_r.
  - rewrite gather_cons, (Hall i) by (by left). rewrite IH.
    + cbn [map concat]. by rewrite app_assoc.
    + intros j Hj. apply Hall. by right.
Qed.

Lemma gather_raises order results i e :
  i ∈ order -> chunk_items respond i = Raise e ->
  exists j e', j ∈ order /\ chunk_items respond j = Raise e' /\
               gather respond order results = Raise e'.
Proof.
  revert results. induction order as [|k rest IH]; intros results Hin Hi.
  - by apply elem_of_nil in Hin.
  - rewrite gather_cons. destruct (chunk_items respond k) as [items|e'] eqn:Hk.
    + apply elem_of_cons in Hin as [->|Hin]; [congruence|].
      destruct (IH (results ++ items) Hin Hi) as (j & e' & Hj & Hje & Hg).
      exists j, e'. split; [by right | done].
    + exists k, e'. split; [by left | done].
Qed.

(** When a chunk cannot be gathered, the gathering raises the failure
    of such a chunk. *)
Lemma event_loop_failure value schedule i e :
  1 <= value -> (i < length chunks)%nat -> chunk_items respond i = Raise e ->
  exists j e',
    (j < length chunks)%nat /\ chunk_items respond j = Raise e' /\
    gather respond
      (completed (event_loop api_key include_otc chunks respond value schedule)) []
    = Raise e'.
Proof.
  intros Hv Hi He.
  destruct (event_loop_accounted value schedule) as [entered Hacc].
  set (st := event_loop api_key include_otc chunks respond value schedule) in *.
  assert (exists k e0, k ∈ completed st /\ chunk_items respond k = Raise e0)
    as (k & e0 & Hk & Hke).
  { destruct (event_loop_ends api_key include_otc chunks respond value schedule Hv)
      as [Hhalt|Hfin]; [by apply halted_raises|].
    exists i, e. split; [|done].
    destruct (finished_books st entered Hacc Hfin) as [_ Hperm].
    rewrite Hperm. apply elem_of_seq. lia. }
  destruct (gather_raises (completed st) [] k e0 Hk Hke) as (j & e' & Hj & Hje & Hg).
  exists j, e'. split; [by eapply completed_in_range | done].
Qed.

End FetchFacts.

Lemma pieces_nil {A : Type} (b : Z) : 1 <= b -> pieces (@nil A) b = [].
Proof.
  intros Hb. destruct (pieces_partition (@nil A) b Hb) as (_ & Hall & Hcat).
  destruct (pieces [] b) as [|p rest]; [done|].
  apply Forall_cons in Hall as [Hp _]. cbn [concat] in Hcat.
  apply app_eq_nil in Hcat as [-> _]. unfold len in Hp. simpl in Hp. lia.
Qed.

(** The fetcher with a key and at least one ticker left: the loop
    over the chunks, then the gathering. *)
Lemma fetch_market_snapshots_loop respond schedule api_key tickers include_otc
    batch_size concurrency :
  nonempty api_key = true ->
  PolygonClient.normalize tickers <> [] ->
  PolygonClient.fetch_market_snapshots respond schedule api_key tickers include_otc
    batch_size concurrency
  = let st := PolygonClient.event_loop api_key include_otc
                (pieces (PolygonClient.normalize tickers) (Z.max 1 batch_size))
                respond (Z.max 1 concurrency) schedule in
    IO (PolygonClient.gather respond (PolygonClient.completed st) [])
       (PolygonClient.trace st).
Proof.
  intros Hkey Hsome. unfold PolygonClient.fetch_market_snapshots. rewrite Hkey.
  cbn [negb]. destruct (PolygonClient.normalize tickers) as [|t rest] eqn:Hn; [done|].
  unfold Semaphore. assert ((Z.max 1 concurrency <? 0) = false) as -> by lia.
  rewrite lift_ok_bind, polygon_chunked_pieces by lia. by rewrite lift_ok_bind.
Qed.

(** The requests of the fetcher, up to their order. *)
Lemma fetch_requests_permutation respond schedule api_key tickers include_otc
    batch_size concurrency :
  nonempty api_key = true ->
  (forall i, (i < length (pieces (PolygonClient.normalize tickers)
                            (Z.max 1 batch_size)))%nat ->
             exists items, chunk_items respond i = Ok items) ->
  requests (events (PolygonClient.fetch_market_snapshots respond schedule api_key
                      tickers include_otc batch_size concurrency))
  ≡ₚ map (PolygonClient.snapshot_request api_key include_otc)
         (pieces (PolygonClient.normalize tickers) (Z.max 1 batch_size)).
Proof.
  intros Hkey Hgood.
  destruct (PolygonClient.normalize tickers) as [|t rest] eqn:Hn.
  - unfold PolygonClient.fetch_market_snapshots. rewrite Hkey, Hn. cbn [negb].
    by rewrite pieces_nil by lia.
  - rewrite <- Hn in *. rewrite fetch_market_snapshots_loop by (done || by rewrite Hn).
    cbn [events]. apply event_loop_books; [lia | done].
Qed.

(** What the fetcher returns when every chunk is answered well. *)
Lemma fetch_outcome_gathered respond schedule api_key tickers include_otc
    batch_size concurrency (data : nat -> list json) :
  let chunks := pieces (PolygonClient.normalize tickers) (Z.max 1 batch_size) in
  let st := PolygonClient.event_loop api_key include_otc chunks respond
              (Z.max 1 concurrency) schedule in
  nonempty api_key = true ->
  (forall i, (i < length chunks)%nat -> chunk_items respond i = Ok (data i)) ->
  PolygonClient.completed st ≡ₚ seq 0 (length chunks) /\
  outcome (PolygonClient.fetch_market_snapshots respond schedule api_key
             tickers include_otc batch_size concurrency)
  = Ok (concat (map data (PolygonClient.completed st))).
Proof.
  intros chunks st Hkey Hall.
  assert (PolygonClient.completed st ≡ₚ seq 0 (length chunks)) as Hperm.
  { apply event_loop_books; [lia|]. intros i Hi. exists (data i). by apply Hall. }
  split; [done|]. unfold st, chunks in *.
  destruct (PolygonClient.normalize tickers) as [|t rest] eqn:Hn.
  - rewrite pieces_nil in Hperm |- * by lia. cbn [length seq] in Hperm.
    apply Permutation_nil_r in Hperm. rewrite Hperm.
    unfold PolygonClient.fetch_market_snapshots. by rewrite Hkey, Hn.
  - rewrite <- Hn in *.
    rewrite fetch_market_snapshots_loop by (done || by rewrite Hn). cbn [outcome].
    rewrite (gather_all respond data); [done|].
    intros i Hi. apply Hall. rewrite Hperm in Hi. apply elem_of_seq in Hi. lia.
Qed.

(** X8. When every chunk is answered with data that can be gathered,
    the fetcher issues exactly one request per chunk of the normalised
    ticker list, whatever the order in which the loop resumes the tasks
    (only the order of the requests depends on it). *)
Theorem fetch_requests_each_chunk_once
    (respond : nat -> result response) (schedule : list nat) (api_key : string)
    (tickers : list string) (include_otc : bool) (batch_size concurrency : Z) :
  let chunks := pieces (PolygonClient.normalize tickers) (Z.max 1 batch_size) in
  nonempty api_key = true ->
  (forall i, (i < length chunks)%nat -> exists items, chunk_items respond i = Ok items) ->
  requests (events (PolygonClient.fetch_market_snapshots respond schedule api_key
                      tickers include_otc batch_size concurrency))
  ≡ₚ map (PolygonClient.snapshot_request api_key include_otc) chunks.
Proof. intros chunks Hkey Hgood. by apply fetch_requests_permutation. Qed.

Lemma fetch_requests_each_chunk_once_witness :
  requests (events (PolygonClient.fetch_market_snapshots sample_snapshots [1; 0; 0]%nat
                      "key" ["aapl"; " msft"; "ibm"] false 2 1))
  ≡ₚ map (PolygonClient.snapshot_request "key" false) [["AAPL"; "MSFT"]; ["IBM"]].
Proof.
  refine (fetch_requests_each_chunk_once sample_snapshots [1; 0; 0]%nat "key"
            ["aapl"; " msft"; "ibm"] false 2 1 eq_refl _).
  intros i _. by eexists.
Defined.

(** X9. When every chunk is answered with data that can be gathered,
    the fetcher returns the answers of all the chunks, each once and
    each in one piece, put together in the order in which the chunk
    tasks completed: the order the loop recorded them in, whatever the
    order of the chunks. *)
Theorem fetch_returns_every_chunk
    (respond : nat -> result response) (schedule : list nat) (api_key : string)
    (tickers : list string) (include_otc : bool) (batch_size concurrency : Z)
    (data : nat -> list json) :
  let chunks := pieces (PolygonClient.normalize tickers) (Z.max 1 batch_size) in
  let st := PolygonClient.event_loop api_key include_otc chunks respond
              (Z.max 1 concurrency) schedule in
  nonempty api_key = true ->
  (forall i, (i < length chunks)%nat -> chunk_items respond i = Ok (data i)) ->
  PolygonClient.completed st ≡ₚ seq 0 (length chunks) /\
  outcome (PolygonClient.fetch_market_snapshots respond schedule api_key
             tickers include_otc batch_size concurrency)
  = Ok (concat (map data (PolygonClient.completed st))).
Proof. intros chunks st Hkey Hall. by apply fetch_outcome_gathered. Qed.

(** Two chunks under a gate of one, the second task resumed first: it
    completes first, and its answer comes first in the result. *)
Lemma fetch_returns_every_chunk_witness :
  PolygonClient.completed
    (PolygonClient.event_loop "key" false [["AAPL"; "MSFT"]; ["IBM"]] numbered_snapshots
       1 [1; 0; 0]%nat)
  = [1; 0]%nat /\
  outcome (PolygonClient.fetch_market_snapshots numbered_snapshots [1; 0; 0]%nat
             "key" ["aapl"; " msft"; "ibm"] false 2 1)
  = Ok [JInt 1; JInt 0].
Proof.
  destruct (fetch_returns_every_chunk numbered_snapshots [1; 0; 0]%nat "key"
              ["aapl"; " msft"; "ibm"] false 2 1 (fun i => [JInt (Z.of_nat i)]) eq_refl)
    as [_ Hout].
  - intros i _. reflexivity.
  - split; [vm_compute; reflexivity | exact Hout].
Defined.

(** X10. When the answer to some chunk cannot be gathered (the
    transport raises, the status is 400 or more, or the body is not a
    record with a list of tickers), the fetcher raises the failure of
    such a chunk, whatever the order in which the loop resumes the
    tasks: the data of the other chunks is not returned. *)
Theorem fetch_raises_when_a_chunk_fails
    (respond : nat -> result response) (schedule : list nat) (api_key : string)
    (tickers : list string) (include_otc : bool) (batch_size concurrency : Z)
    (i : nat) (e : exn) :
  let chunks := pieces (PolygonClient.normalize tickers) (Z.max 1 batch_size) in
  nonempty api_key = true ->
  (i < length chunks)%nat ->
  chunk_items respond i = Raise e ->
  exists j e',
    (j < length chunks)%nat /\ chunk_items respond j = Raise e' /\
    outcome (PolygonClient.fetch_market_snapshots respond schedule api_key
               tickers include_otc batch_size concurrency)
    = Raise e'.
Proof.
  intros chunks Hkey Hi Hfail. unfold chunks in *.
  destruct (PolygonClient.normalize tickers) as [|t rest] eqn:Hn.
  { rewrite pieces_nil in Hi by lia. simpl in Hi. lia. }
  rewrite <- Hn in *.
  rewrite fetch_market_snapshots_loop by (done || by rewrite Hn). cbn [outcome].
  apply (event_loop_failure _ _ _ _ _ _ i e); [lia | done | done].
Qed.

Lemma fetch_raises_when_a_chunk_fails_witness :
  exists j e',
    (j < 2)%nat /\ chunk_items failing_snapshots j = Raise e' /\
    outcome (PolygonClient.fetch_market_snapshots failing_snapshots [1; 0; 0]%nat
               "key" ["aapl"; " msft"; "ibm"] false 2 1)
    = Raise e'.
Proof.
  refine (fetch_raises_when_a_chunk_fails failing_snapshots [1; 0; 0]%nat "key"
            ["aapl"; " msft"; "ibm"] false 2 1 1 PolygonApiError eq_refl _ _).
  - vm_compute. lia.
  - reflexivity.
Defined.

(** X2. With a gate of size [max(1, concurrency)], whatever order the
    scheduler picks, the loop of the fetcher is not left waiting at the
    gate: it ends with every chunk task finished, or at a chunk task
    that finished in failure, which is where the gathering raises and
    the tasks still pending are cancelled. When every chunk is answered
    with data that can be gathered, it ends with every task finished. *)
Theorem fetch_loop_finishes_every_task
    (api_key : string) (include_otc : bool) (chunks : list (list string))
    (respond : nat -> result response) (schedule : list nat) (concurrency : Z) :
  let st := PolygonClient.event_loop api_key include_otc chunks respond
              (Z.max 1 concurrency) schedule in
  (PolygonClient.halted respond st = true \/
   PolygonClient.phases st = replicate (length chunks) PolygonClient.Finished) /\
  (PolygonClient.halted respond st = true ->
   exists i e, i ∈ PolygonClient.completed st /\ (i < length chunks)%nat /\
               chunk_items respond i = Raise e) /\
  ((forall i, (i < length chunks)%nat -> exists items, chunk_items respond i = Ok items) ->
   PolygonClient.phases st = replicate (length chunks) PolygonClient.Finished).
Proof.
  intros st. unfold st. split; [|split].
  - apply event_loop_ends. lia.
  - intros (i & e & Hi & He)%halted_raises. exists i, e. split; [done|]. split; [|done].
    destruct (event_loop_accounted api_key include_otc chunks respond
                (Z.max 1 concurrency) schedule) as [entered Hacc].
    by eapply completed_in_range.
  - intros Hgood. apply event_loop_finishes; [lia | done].
Qed.

(** ** The run: discovery, limit, snapshots *)

Lemma slice_take {A : Type} (items : list A) (n : Z) :
  0 <= n -> slice items 0 n = take (Z.to_nat n) items.
Proof.
  intros Hn. unfold slice, slice_bound.
  assert ((0 <? 0) = false) as -> by done.
  assert ((n <? 0) = false) as -> by lia.
  rewrite (Z.min_l 0) by apply Nat2Z.is_nonneg.
  change (Z.to_nat 0) with 0%nat. rewrite drop_0, Z.sub_0_r.
  destruct (decide (n <= Z.of_nat (length items))) as [Hle|Hgt].
  - by rewrite Z.min_l by lia.
  - rewrite Z.min_r, Nat2Z.id by lia.
    rewrite take_ge by lia. symmetry. apply take_ge. lia.
Qed.

Lemma ok_bind {A B : Type} (a : A) (es : list event) (f : A -> io B) :
  IO (Ok a) es ≫= f = IO (outcome (f a)) (es ++ events (f a)).
Proof. reflexivity. Qed.

Lemma raise_bind {A B : Type} (e : exn) (es : list event) (f : A -> io B) :
  IO (Raise e) es ≫= f = IO (Raise e) es.
Proof. reflexivity. Qed.

Lemma resolve_zone_requests w config : requests (events (resolve_zone w config)) = [].
Proof.
  unfold resolve_zone.
  destruct (ZoneInfo (tzdata w) (Config.pl_timezone config)) as [tz|[]]; try done.
Qed.

(** The tickers the snapshots are fetched for. *)
Lemma collect_in_zone_fetch w config tz today tickers found :
  now_date tz (clock w) = Ok today ->
  fetch_all_active_stock_tickers w (Config.api_key config) = IO (Ok tickers) found ->
  let fetch :=
    PolygonClient.fetch_market_snapshots (respond w) (schedule w) (Config.api_key config)
      (limited config tickers) (Config.include_otc config)
      (Config.ticker_batch_size config) (Config.snapshot_concurrency config) in
  outcome (collect_in_zone w config tz)
  = match outcome fetch with
    | Ok snapshots => derive_all (strftime_ymd today) snapshots []
    | Raise e => Raise e
    end /\
  requests (events (collect_in_zone w config tz))
  = requests found ++ requests (events fetch).
Proof.
  intros Hnow Hfound fetch. unfold collect_in_zone.
  rewrite Hnow, lift_ok_bind, Hfound, ok_bind. cbn [outcome events].
  assert ((match Config.ticker_limit config with
           | Some limit =>
               emit (Log "INFO" "ticker_limit_applied") ≫= fun _ => mret (slice tickers 0 limit)
           | None => mret tickers
           end)
          = IO (Ok (limited config tickers))
               (match Config.ticker_limit config with
                | Some _ => [Log "INFO" "ticker_limit_applied"]
                | None => []
                end)) as ->.
  { unfold limited. by destruct (Config.ticker_limit config). }
  rewrite ok_bind, emit_bind. cbn [outcome events]. fold fetch.
  rewrite outcome_bind, events_bind, !requests_app.
  assert (requests (match Config.ticker_limit config with
                    | Some _ => [Log "INFO" "ticker_limit_applied"]
                    | None => []
                    end) = []) as -> by (by destruct (Config.ticker_limit config)).
  cbn [app requests List.filter is_request].
  destruct (outcome fetch) as [snapshots|e]; [|done].
  rewrite emit_bind. cbn [outcome events]. rewrite outcome_bind, events_bind.
  cbn [lift outcome events].
  rewrite requests_app. cbn [requests List.filter is_request app].
  destruct (derive_all (strftime_ymd today) snapshots []); cbn; by rewrite ?app_nil_r.
Qed.

(** X11. When ticker discovery raises, the run raises, and the only
    requests it has made are those of discovery: no snapshot is fetched.
    With the zone resolved and the clock in range, the run raises what
    discovery raised. *)
Theorem collect_stops_when_discovery_fails
    (w : world) (config : Config.AppConfig) (e : exn) (found : list event) :
  fetch_all_active_stock_tickers w (Config.api_key config) = IO (Raise e) found ->
  (exists e', outcome (collect_daily_pl w config) = Raise e') /\
  (forall request, request ∈ requests (events (collect_daily_pl w config)) ->
                   request ∈ requests found) /\
  (forall tz today,
     outcome (resolve_zone w config) = Ok tz -> now_date tz (clock w) = Ok today ->
     outcome (collect_daily_pl w config) = Raise e /\
     requests (events (collect_daily_pl w config)) = requests found).
Proof.
  intros Hfound.
  assert (forall tz,
            (exists e', outcome (collect_in_zone w config tz) = Raise e') /\
            (forall request, request ∈ requests (events (collect_in_zone w config tz)) ->
                             request ∈ requests found) /\
            (forall today, now_date tz (clock w) = Ok today ->
               collect_in_zone w config tz = IO (Raise e) found)) as Hzone.
  { intros tz. unfold collect_in_zone.
    destruct (now_date tz (clock w)) as [today|e0].
    - rewrite lift_ok_bind, Hfound, raise_bind. cbn [outcome events]. eauto.
    - cbn. split; [eauto|]. split; [by intros ? ?%elem_of_nil | done]. }
  pose proof (resolve_zone_requests w config) as Hquiet.
  unfold collect_daily_pl. rewrite emit_bind. cbn [outcome events].
  destruct (resolve_zone w config) as [[tz|e0] warnings] eqn:Hz; cbn [events] in Hquiet.
  - rewrite ok_bind. cbn [outcome events].
    destruct (Hzone tz) as (Hraise & Hreq & Hsame).
    change (requests (?a :: ?es)) with (requests ([a] ++ es)).
    rewrite !requests_app, Hquiet. cbn [requests List.filter is_request app].
    split; [done|]. split; [done|].
    intros tz' today [= <-] Hnow. by rewrite (Hsame today Hnow).
  - rewrite raise_bind. cbn [outcome events].
    change (requests (?a :: ?es)) with (requests ([a] ++ es)).
    rewrite requests_app, Hquiet. cbn.
    split; [eauto|]. split; [by intros ? ?%elem_of_nil | discriminate].
Qed.

Lemma collect_stops_when_discovery_fails_witness :
  outcome (collect_daily_pl (failing_discovery sample_zones) (sample_config "UTC" 2))
  = Raise PolygonApiError /\
  requests (events (collect_daily_pl (failing_discovery sample_zones)
                      (sample_config "UTC" 2)))
  = [HttpGet Discovery.base_url (Discovery.params "key" 1000 true)].
Proof.
  destruct (collect_stops_when_discovery_fails (failing_discovery sample_zones)
              (sample_config "UTC" 2) PolygonApiError
              [Log "DEBUG" "ticker_fetch_page";
               HttpGet Discovery.base_url (Discovery.params "key" 1000 true)] eq_refl)
    as (_ & _ & H).
  exact (H utc (2024, 11, 4) eq_refl eq_refl).
Defined.

(** X12. With the zone resolved, the clock in range, discovery
    returning and every chunk answered with data that can be gathered:
    the snapshots are requested for the discovered tickers, cut to the
    first [ticker_limit] when a limit is set, one request per chunk of
    their normalised list; and the entries of the run are those derived
    from the answers of all the chunks, put together in the order in
    which the chunk tasks completed. *)
Theorem collect_covers_limited_tickers
    (w : world) (config : Config.AppConfig) (tz : tzinfo) (today : Z * Z * Z)
    (tickers : list string) (found : list event) (data : nat -> list json) :
  let chunks :=
    pieces (PolygonClient.normalize (limited config tickers))
           (Z.max 1 (Config.ticker_batch_size config)) in
  let st :=
    PolygonClient.event_loop (Config.api_key config) (Config.include_otc config) chunks
      (respond w) (Z.max 1 (Config.snapshot_concurrency config)) (schedule w) in
  outcome (resolve_zone w config) = Ok tz ->
  now_date tz (clock w) = Ok today ->
  fetch_all_active_stock_tickers w (Config.api_key config) = IO (Ok tickers) found ->
  nonempty (Config.api_key config) = true ->
  (forall i, (i < length chunks)%nat -> chunk_items (respond w) i = Ok (data i)) ->
  requests (events (collect_daily_pl w config))
  ≡ₚ requests found ++
     map (PolygonClient.snapshot_request (Config.api_key config) (Config.include_otc config))
         chunks /\
  (forall n, Config.ticker_limit config = Some n -> 0 <= n ->
             limited config tickers = take (Z.to_nat n) tickers) /\
  PolygonClient.completed st ≡ₚ seq 0 (length chunks) /\
  outcome (collect_daily_pl w config)
  = derive_all (strftime_ymd today)
      (concat (map data (PolygonClient.completed st))) [].
Proof.
  intros chunks st Hz Hnow Hfound Hkey Hall.
  destruct (resolve_zone w config) as [o warnings] eqn:Hzone. cbn [outcome] in Hz. subst o.
  pose proof (resolve_zone_requests w config) as Hquiet.
  rewrite Hzone in Hquiet. cbn [events] in Hquiet.
  rewrite (collect_daily_pl_in_zone w config tz warnings Hzone). cbn [outcome events].
  destruct (collect_in_zone_fetch w config tz today tickers found Hnow Hfound)
    as [Hout Hreq].
  change (requests (?a :: ?es)) with (requests ([a] ++ es)).
  rewrite !requests_app, Hquiet, Hreq. cbn [requests List.filter is_request app].
  destruct (fetch_outcome_gathered (respond w) (schedule w) (Config.api_key config)
              (limited config tickers) (Config.include_otc config)
              (Config.ticker_batch_size config) (Config.snapshot_concurrency config)
              data Hkey Hall) as (Hperm & Hfetch).
  split; [|split; [|split]].
  - apply Permutation_app_head. apply fetch_requests_permutation; [done|].
    intros i Hi. exists (data i). by apply Hall.
  - intros n Hn Hpos. unfold limited. rewrite Hn. by apply slice_take.
  - exact Hperm.
  - by rewrite Hout, Hfetch.
Qed.

Lemma collect_covers_limited_tickers_witness :
  requests (events (collect_daily_pl (sample_world sample_zones) limited_config))
  ≡ₚ [] ++ map (PolygonClient.snapshot_request "key" false) [["AAPL"]] /\
  outcome (collect_daily_pl (sample_world sample_zones) limited_config)
  = derive_all "2024-11-04" (concat (map (fun _ => [sample_snapshot]) [0%nat])) [].
Proof.
  destruct (collect_covers_limited_tickers (sample_world sample_zones) limited_config
              utc (2024, 11, 4) ["AAPL"; "MSFT"] [] (fun _ => [sample_snapshot])
              eq_refl eq_refl eq_refl eq_refl)
    as (Hreq & _ & _ & Hout).
  - intros i _. reflexivity.
  - split; [exact Hreq | exact Hout].
Defined.

(** ** The publisher: early exits and failures *)

Lemma publish_fails_at float_repr respond config endpoint headers batches i j :
  (j < length batches)%nat ->
  (forall k, (k < j)%nat -> accepted (respond (i + k)%nat) = true) ->
  accepted (respond (i + j)%nat) = false ->
  outcome (RedisCache.publish float_repr respond endpoint headers config batches i)
  = Raise (failure_of (respond (i + j)%nat)) /\
  length (requests (events (RedisCache.publish float_repr respond endpoint headers
                              config batches i))) = S j.
Proof.
  revert batches i. induction j as [|j IH]; intros batches i Hj Hgood Hbad;
    (destruct batches as [|batch rest]; [simpl in Hj; lia|]); rewrite publish_cons;
    cbn [outcome events].
  - rewrite Nat.add_0_r in *. rewrite Hbad. split; [|done].
    unfold accepted in Hbad. destruct (respond i) as [resp|e]; [|done].
    by assert ((400 <=? status_code resp) = true) as -> by lia.
  - pose proof (Hgood 0%nat ltac:(lia)) as H0. rewrite Nat.add_0_r in H0. rewrite H0.
    destruct (IH rest (S i)) as [Hout Hlen].
    + simpl in Hj. lia.
    + intros k Hk. replace (S i + k)%nat with (i + S k)%nat by lia. apply Hgood. lia.
    + by replace (S i + j)%nat with (i + S j)%nat by lia.
    + replace (S i + j)%nat with (i + S j)%nat in Hout by lia.
      unfold accepted in H0. destruct (respond i) as [resp|e]; [|done].
      assert ((400 <=? status_code resp) = false) as -> by lia.
      split; [done|]. cbn [requests List.filter is_request length]. f_equal. exact Hlen.
Qed.

Lemma pieces_nonempty {A : Type} (items : list A) (b : Z) :
  1 <= b -> items <> [] -> pieces items b <> [].
Proof.
  intros Hb Hsome Hnone.
  destruct (pieces_partition items b Hb) as (_ & _ & Hcat).
  rewrite Hnone in Hcat. by cbn in Hcat.
Qed.

Lemma push_requests float_repr respond config entries :
  RedisCache.is_set (Config.redis_url config) = true ->
  RedisCache.is_set (Config.redis_token config) = true ->
  entries <> [] ->
  exists endpoint headers,
    requests (events (RedisCache.push_daily_pl_to_redis float_repr respond config entries))
    = requests (events (RedisCache.publish float_repr respond endpoint headers config
                          (pieces entries (Z.max 1 (Config.redis_pipeline_size config))) 0))
    /\
    outcome (RedisCache.push_daily_pl_to_redis float_repr respond config entries)
    = outcome (RedisCache.publish float_repr respond endpoint headers config
                 (pieces entries (Z.max 1 (Config.redis_pipeline_size config))) 0).
Proof.
  intros Hurl Htoken Hsome.
  exists (rstrip_by (fun c => code c =? 47) (default "" (Config.redis_url config))
          +:+ "/pipeline"),
         [("Authorization", "Bearer " +:+ default "" (Config.redis_token config));
          ("Content-Type", "application/json")].
  rewrite push_publish, events_bind, outcome_bind by done.
  destruct (outcome (RedisCache.publish _ _ _ _ _ _ _)) as [[]|e].
  - split; [|done]. rewrite requests_app. apply app_nil_r.
  - done.
Qed.




(** ** Integers and their decimal texts *)

Lemma digitpart_tail_digits d v n :
  digitpart_tail (NilEmpty.string_of_uint d) v n
  = (digits_value d v, n + Z.of_nat (String.length (NilEmpty.string_of_uint d)), "").
Proof.
  revert v n. induction d as [|d IH|d IH|d IH|d IH|d IH|d IH|d IH|d IH|d IH|d IH];
    intros v n; [by rewrite Z.add_0_r|..];
    cbn [NilEmpty.string_of_uint digitpart_tail digits_value String.length];
    match goal with
    | |- context [isdigit ?c] => change (isdigit c) with true; cbn iota
    end;
    rewrite IH; do 2 f_equal; lia.
Qed.

Lemma of_uint_acc_value d acc :
  Z.pos (Pos.of_uint_acc d acc) = digits_value d (Z.pos acc).
Proof.
  revert acc. induction d as [|d IH|d IH|d IH|d IH|d IH|d IH|d IH|d IH|d IH|d IH];
    intros acc; [done|..]; cbn [Pos.of_uint_acc digits_value]; rewrite IH; f_equal; lia.
Qed.

Lemma of_uint_value d : Z.of_N (Pos.of_uint d) = digits_value d 0.
Proof.
  induction d as [|d IH|d IH|d IH|d IH|d IH|d IH|d IH|d IH|d IH|d IH];
    [done|exact IH|..]; cbn [Pos.of_uint digits_value Z.of_N]; apply of_uint_acc_value.
Qed.

Lemma digitpart_digits d :
  d <> Decimal.Nil ->
  digitpart (NilEmpty.string_of_uint d)
  = Some (digits_value d 0, Z.of_nat (String.length (NilEmpty.string_of_uint d)), "").
Proof.
  intros Hd. destruct d; [done|..];
    cbn [NilEmpty.string_of_uint digitpart digits_value String.length];
    match goal with
    | |- context [isdigit ?c] => change (isdigit c) with true; cbn iota
    end;
    rewrite digitpart_tail_digits; do 3 f_equal; lia.
Qed.

Lemma read_sign_digits d :
  d <> Decimal.Nil ->
  read_sign (NilEmpty.string_of_uint d) = (false, NilEmpty.string_of_uint d).
Proof. intros Hd. by destruct d. Qed.

Lemma digits_no_space d :
  all_chars (fun c => negb (isspace_c c)) (NilEmpty.string_of_uint d) = true.
Proof. induction d; [done|..]; exact IHd. Qed.

Lemma lstrip_by_keeps p s :
  all_chars (fun c => negb (p c)) s = true -> lstrip_by p s = s.
Proof. destruct s as [|c s]; [done|]. cbn. by destruct (p c). Qed.

Lemma rev_app_rev_app s a b :
  String.rev_app (String.rev_app s a) b = String.rev_app a (s +:+ b).
Proof.
  revert a b. induction s as [|c s IH]; intros a b; [done|].
  cbn [String.rev_app]. by rewrite IH.
Qed.

Lemma append_empty_r s : s +:+ "" = s.
Proof.
  induction s as [|c s IH]; [done|].
  change (String c (s +:+ "") = String c s). by rewrite IH.
Qed.

Lemma rstrip_by_keeps p s :
  all_chars (fun c => negb (p c)) s = true -> rstrip_by p s = s.
Proof.
  intros Hs. unfold rstrip_by, String.rev.
  rewrite lstrip_by_keeps.
  - rewrite rev_app_rev_app. cbn [String.rev_app]. apply append_empty_r.
  - by rewrite all_chars_rev_app, Hs.
Qed.

(** [int(str(n)) == n], for a text within the limit on digits. *)
Lemma int_of_str_str_int n : convertible n -> int_of_str (str_int n) = Ok n.
Proof.
  unfold convertible, str_int. pose proof (DecimalZ.of_to n) as Hn.
  destruct n as [|p|p]; [done|..]; cbn [Z.to_int NilZero.string_of_int] in *;
    unfold Z.of_int, Z.of_uint in Hn; rewrite of_uint_value in Hn;
    pose proof (DecimalPos.Unsigned.to_uint_nonnil p) as Hnil;
    assert (NilZero.string_of_uint (Pos.to_uint p)
            = NilEmpty.string_of_uint (Pos.to_uint p)) as ->
      by (by destruct (Pos.to_uint p));
    intros Hshort; unfold int_of_str.
  - rewrite lstrip_by_keeps, rstrip_by_keeps by apply digits_no_space.
    rewrite read_sign_digits, digitpart_digits by done.
    assert ((max_str_digits <? Z.of_nat (String.length
               (NilEmpty.string_of_uint (Pos.to_uint p)))) = false) as -> by lia.
    by rewrite Hn.
  - rewrite lstrip_by_keeps, rstrip_by_keeps
      by (cbn [all_chars]; apply digits_no_space).
    cbn [read_sign]. change (code "-" =? 45) with true. cbn iota.
    rewrite digitpart_digits by done.
    cbn [String.length] in Hshort.
    assert ((max_str_digits <? Z.of_nat (String.length
               (NilEmpty.string_of_uint (Pos.to_uint p)))) = false) as -> by lia.
    f_equal. lia.
Qed.

Lemma parse_int_str_int n default :
  convertible n -> Config._parse_int (Some (str_int n)) default = n.
Proof. intros Hn. unfold Config._parse_int. by rewrite int_of_str_str_int. Qed.

Lemma str_int_nonempty n : nonempty (str_int n) = true.
Proof.
  unfold str_int. destruct n as [|p|p]; [done| |done]. cbn [Z.to_int NilZero.string_of_int].
  pose proof (DecimalPos.Unsigned.to_uint_nonnil p) as Hnil.
  by destruct (Pos.to_uint p).
Qed.

(** X15. An integer setting written in decimal, in a text short
    enough for [int] to convert it (at most 4300 characters), is read
    back as that integer: in a configuration that loads, the three sizes
    are the written values raised to 1 when they are below it, and the
    ticker limit and the time to live are the written values when these
    are positive, unset otherwise. *)
Theorem get_config_reads_decimal_settings
    (getenv : string -> option string) (config : Config.AppConfig)
    (batch concurrency pipeline limit ttl : Z) :
  Forall convertible [batch; concurrency; pipeline; limit; ttl] ->
  Config.get_config getenv = Ok config ->
  getenv "TICKER_BATCH_SIZE" = Some (str_int batch) ->
  getenv "SNAPSHOT_CONCURRENCY" = Some (str_int concurrency) ->
  getenv "REDIS_PIPELINE_SIZE" = Some (str_int pipeline) ->
  getenv "TICKER_LIMIT" = Some (str_int limit) ->
  getenv "REDIS_TTL_SECONDS" = Some (str_int ttl) ->
  Config.ticker_batch_size config = Z.max 1 batch /\
  Config.snapshot_concurrency config = Z.max 1 concurrency /\
  Config.redis_pipeline_size config = Z.max 1 pipeline /\
  Config.ticker_limit config = (if 0 <? limit then Some limit else None) /\
  Config.redis_ttl_seconds config = (if 0 <? ttl then Some ttl else None).
Proof.
  unfold Config.get_config. intros Hshort Hload Hb Hc Hp Hl Ht.
  apply Forall_cons in Hshort as [Sb Hshort]. apply Forall_cons in Hshort as [Sc Hshort].
  apply Forall_cons in Hshort as [Sp Hshort]. apply Forall_cons in Hshort as [Sl Hshort].
  apply Forall_cons in Hshort as [St _].
  destruct (negb _); [discriminate|].
  destruct (float_of_str (default "20" _)) as [connect|]; [|discriminate].
  destruct (float_of_str (default "60" _)) as [read|]; [|discriminate].
  unfold mbind, result_bind, mret, result_ret in Hload.
  injection Hload as <-.
  cbn [Config.ticker_batch_size Config.snapshot_concurrency Config.redis_pipeline_size
       Config.ticker_limit Config.redis_ttl_seconds].
  rewrite Hb, Hc, Hp, Hl, Ht.
  change (default "86400" (Some (str_int ttl))) with (str_int ttl).
  rewrite !parse_int_str_int, str_int_nonempty by done.
  unfold Config.positive_int. rewrite !int_of_str_str_int by done.
  repeat match goal with |- _ /\ _ => split end; reflexivity.
Qed.

Lemma get_config_reads_decimal_settings_witness :
  exists config,
    Config.get_config (integer_env 0 (-3) 25 (-1) 3600) = Ok config /\
    Config.ticker_batch_size config = 1 /\
    Config.snapshot_concurrency config = 1 /\
    Config.redis_pipeline_size config = 25 /\
    Config.ticker_limit config = None /\
    Config.redis_ttl_seconds config = Some 3600.
Proof.
  eexists. split; [vm_compute; reflexivity|].
  eapply (get_config_reads_decimal_settings (integer_env 0 (-3) 25 (-1) 3600) _
            0 (-3) 25 (-1) 3600); try reflexivity.
  repeat constructor; unfold convertible; vm_compute; discriminate.
Defined.

(** ** Loading the configuration *)

(** X16. The configuration loads exactly when the API key is set and
    not empty and both time-outs read as floats. A missing or empty key
    raises [RuntimeError]; any other failure is the [ValueError] of a
    time-out text. No integer or boolean setting makes loading fail. *)
Theorem get_config_loads_iff (getenv : string -> option string) :
  ((exists config, Config.get_config getenv = Ok config) <->
   nonempty (default "" (getenv "POLYGON_API_KEY")) = true /\
   (exists f, float_of_str (default "20" (getenv "HTTP_CONNECT_TIMEOUT")) = Ok f) /\
   (exists f, float_of_str (default "60" (getenv "HTTP_READ_TIMEOUT")) = Ok f)) /\
  (nonempty (default "" (getenv "POLYGON_API_KEY")) = false ->
   Config.get_config getenv = Raise RuntimeError) /\
  (forall e, Config.get_config getenv = Raise e ->
   nonempty (default "" (getenv "POLYGON_API_KEY")) = true ->
   e = ValueError) /\
  (forall config, Config.get_config getenv = Ok config ->
   Config.api_key config = default "" (getenv "POLYGON_API_KEY") /\
   (forall n, Config.ticker_limit config = Some n -> 0 < n) /\
   (forall n, Config.redis_ttl_seconds config = Some n -> 0 < n)).
Proof.
  unfold Config.get_config.
  destruct (nonempty (default "" (getenv "POLYGON_API_KEY"))) eqn:Hkey; cbn [negb].
  2:{ split; [|split; [done|split; [done|discriminate]]].
      split; [intros [config [=]] | intros [[=] _]]. }
  destruct (float_of_str (default "20" (getenv "HTTP_CONNECT_TIMEOUT")))
    as [connect|e1] eqn:H1.
  2:{ apply float_of_str_raises in H1 as ->.
      split; [|split; [done|split; [by intros e [= <-] | discriminate]]].
      split; [intros [config [=]] | intros (_ & [f [=]] & _)]. }
  destruct (float_of_str (default "60" (getenv "HTTP_READ_TIMEOUT")))
    as [read|e2] eqn:H2.
  2:{ apply float_of_str_raises in H2 as ->.
      split; [|split; [done|split; [by intros e [= <-] | discriminate]]].
      split; [intros [config [=]] | intros (_ & _ & [f [=]])]. }
  unfold mbind, result_bind, mret, result_ret.
  split; [|split; [done|split; [discriminate|]]].
  - split; [eauto 6 | eauto].
  - intros config [= <-].
    cbn [Config.api_key Config.ticker_limit Config.redis_ttl_seconds].
    split; [done|]. unfold Config.positive_int. split.
    + intros n. destruct (getenv "TICKER_LIMIT") as [raw|]; [|done].
      destruct (nonempty raw); [|done].
      destruct (int_of_str raw) as [value|]; [|done].
      destruct (0 <? value) eqn:Hpos; [|done]. intros [= <-]. lia.
    + intros n. destruct (int_of_str _) as [value|]; [|done].
      destruct (0 <? value) eqn:Hpos; [|done]. intros [= <-]. lia.
Qed.

(** ** The shape of the chunks *)

Lemma pieces_lookup {A : Type} (items : list A) (b : Z) (i : nat) chunk :
  1 <= b -> pieces items b !! i = Some chunk ->
  chunk = take (Z.to_nat b) (drop (i * Z.to_nat b) items) /\
  (i < length (pieces items b))%nat /\
  len (pieces items b) = ceil_div (len items) b.
Proof.
  intros Hb Hi.
  destruct (pieces_partition items b Hb) as (Hlen & _ & _).
  split; [|split; [by eapply lookup_lt_Some | done]].
  rewrite pieces_take in Hi by done.
  change (map ?f ?l) with (f <$> l) in Hi.
  rewrite list_lookup_fmap in Hi.
  destruct (seq 0 _ !! i) as [j|] eqn:Hj; [|done].
  apply lookup_seq in Hj as [-> _]. by injection Hi as <-.
Qed.

(** X17. For a chunk size [b >= 1], chunk [i] of [_chunked] is the
    [b] items from position [i * b] on, or those that are left: every
    chunk but the last holds exactly [b] items, and the last holds the
    rest. The publisher's [_chunked] cuts the entries the same way. *)
Theorem chunked_full_but_last
    (items : list string) (entries : list Service.TickerPL) (b : Z) :
  1 <= b ->
  (forall chunks i chunk,
     PolygonClient._chunked items b = Ok chunks -> chunks !! i = Some chunk ->
     chunk = take (Z.to_nat b) (drop (i * Z.to_nat b) items) /\
     len chunk = Z.min b (len items - Z.of_nat i * b) /\
     ((S i < length chunks)%nat -> len chunk = b)) /\
  (forall batches i batch,
     RedisCache._chunked entries b = Ok batches -> batches !! i = Some batch ->
     batch = take (Z.to_nat b) (drop (i * Z.to_nat b) entries) /\
     len batch = Z.min b (len entries - Z.of_nat i * b) /\
     ((S i < length batches)%nat -> len batch = b)).
Proof.
  intros Hb.
  assert (forall (A : Type) (l : list A) i piece,
            pieces l b !! i = Some piece ->
            piece = take (Z.to_nat b) (drop (i * Z.to_nat b) l) /\
            len piece = Z.min b (len l - Z.of_nat i * b) /\
            ((S i < length (pieces l b))%nat -> len piece = b)) as Hshape.
  { intros A l i piece Hi.
    destruct (pieces_lookup l b i piece Hb Hi) as (-> & Hlt & Hlen).
    pose proof (ceil_div_bounds (len l) b Hb) as Hc.
    split; [done|]. unfold len in *. rewrite length_take, length_drop.
    split; [nia|]. intros Hnext. nia. }
  split.
  - intros chunks i chunk Hchunks. rewrite polygon_chunked_pieces in Hchunks by done.
    injection Hchunks as <-. apply Hshape.
  - intros batches i batch Hbatches. rewrite redis_chunked_pieces in Hbatches by done.
    injection Hbatches as <-. apply Hshape.
Qed.

Lemma chunked_full_but_last_witness :
  PolygonClient._chunked ["A"; "B"; "C"; "D"; "E"] 2 = Ok [["A"; "B"]; ["C"; "D"]; ["E"]] /\
  len ["C"; "D"] = Z.min 2 (len ["A"; "B"; "C"; "D"; "E"] - Z.of_nat 1 * 2) /\
  len ["E"] = Z.min 2 (len ["A"; "B"; "C"; "D"; "E"] - Z.of_nat 2 * 2).
Proof.
  destruct (chunked_full_but_last ["A"; "B"; "C"; "D"; "E"] [] 2 ltac:(lia)) as [H _].
  split; [reflexivity|]. split.
  - exact (proj1 (proj2 (H _ 1%nat ["C"; "D"] eq_refl eq_refl))).
  - exact (proj1 (proj2 (H _ 2%nat ["E"] eq_refl eq_refl))).
Defined.

(** ** The entry points *)

Lemma async_collect_ok float_repr getenv w cache count items :
  outcome (Output._async_collect float_repr getenv w cache) = Ok (count, items) ->
  exists config entries,
    Config.get_config getenv = Ok config /\
    outcome (collect_daily_pl w config) = Ok entries /\
    outcome (RedisCache.push_daily_pl_to_redis float_repr cache config entries) = Ok tt /\
    count = len entries /\ items = Output.serialize_pl entries.
Proof.
  unfold Output._async_collect. intros H.
  bind_ok H config Hconfig. bind_ok H entries Hentries. bind_ok H u Hpush.
  cbn in Hconfig, H. injection H as <- <-. destruct u. eauto 10.
Qed.

(** X18. When the handler's collection returns a payload, its count
    is the number of its items, one per collected entry and in their
    order, and the publish to the cache has gone through: a failed
    publish fails the invocation although the entries were collected,
    as a failed collection does before anything is published and a
    configuration that does not load does before any event. *)
Theorem handler_count_matches_items
    (float_repr : spec_float -> string) (getenv : string -> option string)
    (w : world) (cache : nat -> result response) :
  let run := Output._async_collect float_repr getenv w cache in
  (forall count items, outcome run = Ok (count, items) ->
   count = len items /\
   exists config entries,
     Config.get_config getenv = Ok config /\
     outcome (collect_daily_pl w config) = Ok entries /\
     items = map to_dict entries /\
     outcome (RedisCache.push_daily_pl_to_redis float_repr cache config entries) = Ok tt) /\
  (forall e, Config.get_config getenv = Raise e -> run = IO (Raise e) []) /\
  (forall config e,
     Config.get_config getenv = Ok config ->
     outcome (collect_daily_pl w config) = Raise e ->
     run = IO (Raise e) (events (collect_daily_pl w config))) /\
  (forall config entries e,
     Config.get_config getenv = Ok config ->
     outcome (collect_daily_pl w config) = Ok entries ->
     outcome (RedisCache.push_daily_pl_to_redis float_repr cache config entries) = Raise e ->
     outcome run = Raise e).
Proof.
  intros run. unfold run.
  repeat match goal with |- _ /\ _ => split end.
  - intros count items (config & entries & Hc & He & Hp & -> & ->)%async_collect_ok.
    split; [|by eauto 10]. unfold Output.serialize_pl, len. by rewrite length_map.
  - intros e He. unfold Output._async_collect. by rewrite He.
  - intros config e Hc He. unfold Output._async_collect. rewrite Hc, lift_ok_bind.
    destruct (collect_daily_pl w config) as [o es]. cbn in He. by subst o.
  - intros config entries e Hc He Hp. unfold Output._async_collect.
    rewrite Hc, lift_ok_bind, outcome_bind, He, outcome_bind, Hp. done.
Qed.

(** X19. [main()] prints the number of collected entries and then the
    first entries only: as many as PRINT_LIMIT says when that is the
    decimal text of an integer that is not negative, five when it is
    unset, negative, or a text that [int] refuses (not an integer, or
    one of more than 4300 digits). *)
Theorem main_prints_first_entries
    (float_repr : spec_float -> string) (getenv : string -> option string)
    (w : world) (cache : nat -> result response)
    (line : string) (subset : list json) :
  outcome (Output.main float_repr getenv w cache) = Ok (line, subset) ->
  (exists config entries,
     Config.get_config getenv = Ok config /\
     outcome (collect_daily_pl w config) = Ok entries /\
     line = "Collected daily P&L for " +:+ str_int (len entries) +:+ " tickers." /\
     subset = take (printed (Output.print_limit getenv)) (map to_dict entries)) /\
  (forall n, convertible n -> getenv "PRINT_LIMIT" = Some (str_int n) ->
             Output.print_limit getenv = n) /\
  (getenv "PRINT_LIMIT" = None -> Output.print_limit getenv = 5) /\
  (forall raw e, getenv "PRINT_LIMIT" = Some raw -> int_of_str raw = Raise e ->
                 Output.print_limit getenv = 5).
Proof.
  unfold Output.main, Output._async_entry. intros H.
  bind_ok H config Hconfig. bind_ok H entries Hentries. bind_ok H u Hpush.
  cbn in Hconfig, H. injection H as <- <-.
  repeat match goal with |- _ /\ _ => split end.
  - exists config, entries. split; [done|]. split; [done|]. split; [done|].
    unfold printed, Output.serialize_pl.
    destruct (0 <=? Output.print_limit getenv) eqn:Hsign.
    + apply slice_take. lia.
    + by apply slice_take.
  - intros n Hshort Hn. unfold Output.print_limit. by rewrite Hn, int_of_str_str_int.
  - intros Hn. unfold Output.print_limit. by rewrite Hn.
  - intros raw e Hn Hraw. unfold Output.print_limit. by rewrite Hn, Hraw.
Qed.

Lemma main_prints_first_entries_witness :
  outcome (Output.main no_floats (print_env "0") (sample_world sample_zones)
             RedisCache.accepting)
  = Ok ("Collected daily P&L for 1 tickers.", []) /\
  Output.print_limit (print_env "0") = 0 /\
  printed 0 = 0%nat /\ printed (-2) = 5%nat.
Proof.
  destruct (main_prints_first_entries no_floats (print_env "0")
              (sample_world sample_zones) RedisCache.accepting
              "Collected daily P&L for 1 tickers." [])
    as (_ & Hround & _); [vm_compute; reflexivity|].
  split; [vm_compute; reflexivity|].
  split; [|split; reflexivity].
  apply (Hround 0); [unfold convertible; vm_compute; discriminate | reflexivity].
Defined.

(** ** Trimming and case *)

Lemma append_assoc_s a b c : (a +:+ b) +:+ c = a +:+ (b +:+ c).
Proof.
  induction a as [|x a IH]; [done|].
  change (String x ((a +:+ b) +:+ c) = String x (a +:+ (b +:+ c))). by rewrite IH.
Qed.

Lemma rev_app_append s a : String.rev_app s a = String.rev s +:+ a.
Proof.
  unfold String.rev. revert a. induction s as [|c s IH]; intros a; [done|].
  cbn [String.rev_app]. rewrite IH, (IH (String c "")). by rewrite append_assoc_s.
Qed.

Lemma rev_cons c s : String.rev (String c s) = String.rev s +:+ String c "".
Proof. unfold String.rev at 1. cbn [String.rev_app]. apply rev_app_append. Qed.

Lemma rev_append a b : String.rev (a +:+ b) = String.rev b +:+ String.rev a.
Proof.
  induction a as [|c a IH].
  - by rewrite append_empty_r.
  - change (String c a +:+ b) with (String c (a +:+ b)).
    by rewrite !rev_cons, IH, append_assoc_s.
Qed.

Lemma rev_rev s : String.rev (String.rev s) = s.
Proof.
  unfold String.rev. rewrite rev_app_rev_app. cbn [String.rev_app]. apply append_empty_r.
Qed.

Lemma all_chars_rev p s : all_chars p (String.rev s) = all_chars p s.
Proof. unfold String.rev. rewrite all_chars_rev_app. apply andb_true_r. Qed.

Lemma lstrip_by_append p a b :
  lstrip_by p (a +:+ b)
  = if all_chars p a then lstrip_by p b else lstrip_by p a +:+ b.
Proof.
  induction a as [|c a IH]; [done|].
  change (String c a +:+ b) with (String c (a +:+ b)). cbn [lstrip_by all_chars].
  by destruct (p c).
Qed.

Lemma rstrip_by_all p s : all_chars p s = true -> rstrip_by p s = "".
Proof.
  intros Hs. unfold rstrip_by.
  by rewrite (proj2 (lstrip_by_empty p (String.rev s))) by (by rewrite all_chars_rev).
Qed.

Lemma rstrip_by_cons p c s :
  rstrip_by p (String c s)
  = if all_chars p s && p c then "" else String c (rstrip_by p s).
Proof.
  unfold rstrip_by at 1. rewrite rev_cons, lstrip_by_append, all_chars_rev.
  destruct (all_chars p s) eqn:Hs; cbn [andb].
  - rewrite (rstrip_by_all p s Hs). cbn [lstrip_by]. by destruct (p c).
  - by rewrite rev_append.
Qed.

Lemma rstrip_by_append_all p s w :
  all_chars p w = true -> rstrip_by p (s +:+ w) = rstrip_by p s.
Proof.
  intros Hw. unfold rstrip_by.
  by rewrite rev_append, lstrip_by_append, all_chars_rev, Hw.
Qed.

Lemma lstrip_by_idem p s : lstrip_by p (lstrip_by p s) = lstrip_by p s.
Proof.
  induction s as [|c s IH]; [done|]. cbn [lstrip_by].
  destruct (p c) eqn:Hc; [exact IH|]. cbn [lstrip_by]. by rewrite Hc.
Qed.

Lemma rstrip_by_idem p s : rstrip_by p (rstrip_by p s) = rstrip_by p s.
Proof. unfold rstrip_by. by rewrite rev_rev, lstrip_by_idem. Qed.

Lemma strip_commute p s :
  lstrip_by p (rstrip_by p s) = rstrip_by p (lstrip_by p s).
Proof.
  induction s as [|c s IH]; [done|].
  rewrite rstrip_by_cons. cbn [lstrip_by].
  destruct (p c) eqn:Hc.
  - rewrite andb_true_r. destruct (all_chars p s) eqn:Hs.
    + by rewrite (proj2 (lstrip_by_empty p s) Hs).
    + cbn [lstrip_by]. by rewrite Hc.
  - rewrite andb_false_r. cbn [lstrip_by]. rewrite Hc.
    by rewrite rstrip_by_cons, Hc, andb_false_r.
Qed.

Lemma strip_idem s : strip (strip s) = strip s.
Proof.
  unfold strip. by rewrite strip_commute, lstrip_by_idem, rstrip_by_idem.
Qed.

(** Whitespace around a text does not count. *)
Lemma strip_padded pre s post :
  all_chars isspace pre = true -> all_chars isspace post = true ->
  strip (pre +:+ s +:+ post) = strip s.
Proof.
  intros Hpre Hpost. unfold strip.
  rewrite lstrip_by_append, Hpre, <- !strip_commute.
  by rewrite rstrip_by_append_all.
Qed.

Lemma map_string_rev_app f s a :
  map_string f (String.rev_app s a) = String.rev_app (map_string f s) (map_string f a).
Proof. revert a. induction s as [|c s IH]; intros a; [done|]. cbn. by rewrite IH. Qed.

Lemma lstrip_by_map p f s :
  (forall c, p (f c) = p c) ->
  lstrip_by p (map_string f s) = map_string f (lstrip_by p s).
Proof.
  intros Hf. induction s as [|c s IH]; [done|]. cbn [map_string lstrip_by].
  rewrite Hf. by destruct (p c).
Qed.

Lemma strip_map f s :
  (forall c, isspace (f c) = isspace c) ->
  strip (map_string f s) = map_string f (strip s).
Proof.
  intros Hf. unfold strip, rstrip_by.
  assert (forall x, String.rev (map_string f x) = map_string f (String.rev x)) as Hrev.
  { intros x. unfold String.rev. by rewrite map_string_rev_app. }
  by rewrite lstrip_by_map, Hrev, lstrip_by_map, Hrev by done.
Qed.

Lemma isspace_upper_char c : isspace (upper_char c) = isspace c.
Proof. by destruct c as [[] [] [] [] [] [] [] []]. Qed.

Lemma isspace_lower_char c : isspace (lower_char c) = isspace c.
Proof. by destruct c as [[] [] [] [] [] [] [] []]. Qed.

Lemma lower_upper_char c : lower_char (upper_char c) = lower_char c.
Proof. by destruct c as [[] [] [] [] [] [] [] []]. Qed.

Lemma lower_upper s : lower (upper s) = lower s.
Proof.
  induction s as [|c s IH]; [done|].
  unfold lower, upper in *. cbn [map_string]. by rewrite lower_upper_char, IH.
Qed.

Lemma normalize_fixed tickers :
  Forall (fun t => nonempty t = true /\ strip t = t /\ upper t = t) tickers ->
  PolygonClient.normalize tickers = tickers.
Proof.
  unfold PolygonClient.normalize.
  induction 1 as [|t rest (Hn & Hs & Hu) _ IH]; [done|].
  cbn [List.filter]. rewrite Hs, Hn. cbn [map]. by rewrite Hs, Hu, IH.
Qed.

(** X20. Normalising the tickers is idempotent: every ticker it
    yields is non-empty, has no whitespace around it and is in upper
    case, so normalising the result again changes nothing. *)
Theorem normalize_idempotent (tickers : list string) :
  Forall (fun t => nonempty t = true /\ strip t = t /\ upper t = t)
         (PolygonClient.normalize tickers) /\
  PolygonClient.normalize (PolygonClient.normalize tickers)
  = PolygonClient.normalize tickers.
Proof.
  assert (Forall (fun t => nonempty t = true /\ strip t = t /\ upper t = t)
                 (PolygonClient.normalize tickers)) as Hall.
  { unfold PolygonClient.normalize. apply Forall_forall. intros t' Hin%list_elem_of_In.
    apply in_map_iff in Hin as (t & <- & Hin). apply filter_In in Hin as [_ Hn].
    split; [by rewrite upper_nonempty|]. split; [|apply upper_idem].
    unfold upper. rewrite strip_map by apply isspace_upper_char. by rewrite strip_idem. }
  split; [exact Hall | by apply normalize_fixed].
Qed.

(** X21. A boolean setting that is set to an ASCII text is read
    without regard to the case of its letters, to the whitespace
    around it, or to the default. *)
Theorem parse_bool_ignores_case_and_space
    (value pre post : string) (default default' : bool) :
  ascii_text value = true ->
  all_chars isspace pre = true ->
  all_chars isspace post = true ->
  Config._parse_bool (Some (pre +:+ upper value +:+ post)) default
  = Config._parse_bool (Some value) default'.
Proof.
  intros _ Hpre Hpost. unfold Config._parse_bool.
  assert (lower (strip (pre +:+ upper value +:+ post)) = lower (strip value)) as ->;
    [|done].
  rewrite strip_padded by done. unfold upper.
  rewrite (strip_map upper_char value isspace_upper_char). apply lower_upper.
Qed.

Lemma parse_bool_ignores_case_and_space_witness :
  Config._parse_bool (Some (" " +:+ upper "Yes" +:+ "  ")) false
  = Config._parse_bool (Some "Yes") true /\
  Config._parse_bool (Some "Yes") true = true /\
  Config._parse_bool (Some "on") true = false.
Proof.
  split; [|split; reflexivity].
  apply (parse_bool_ignores_case_and_space "Yes" " " "  " false true); reflexivity.
Defined.
